(** * typescript-talk: the promise utilities and [oneOf]

    The utilities of the talk ([delay], [delayWithResult], [properRace])
    are written against the host language's promises.  They are embedded
    here over a small machine for promises: a heap of promise cells, the
    FIFO queue of promise jobs, and the timers.  Closures handed to [then]
    and the rest of an [async] function after its [await] are
    defunctionalised as [handler]s.  Everything the surrounding program
    may do to the promises it owns is an [event] of a schedule, and the
    statements quantify over all schedules. *)

From Stdlib Require Import ZArith Lia SpecFloat.
From stdpp Require Import base tactics option list list_numbers strings numbers.
From stdpp Require pretty.

(** ** Values and promise cells *)

Abbreviation pid := nat.

(** The values of the program are data: [undefined], numbers, strings,
    booleans, errors, references to promises, and objects whose properties
    are again data.  No value is a function, so no object has a method. *)
#[warnings="-register-all"]
Inductive value :=
| VUndefined
| VNumber (n : Z)
| VString (s : string)
| VBoolean (b : bool)
| VError (name : string)
| VPromise (p : pid)
| VObject (fields : list (string * value)).

Inductive settlement :=
| Fulfilled (v : value)
| Rejected (reason : value).

(** The callbacks the program registers on promises.  [HIndex index] is
    the arrow function [() => index] of [properRace]; [HResolving p] is the
    pair of resolving functions of [p], as [Promise.race] hands them to
    [then]; [HAdopt p] is the fresh pair a promise job creates when [p] was
    resolved with another promise; the two [..Resume] handlers are the
    bodies of the [async] functions after their [await]. *)
Inductive handler :=
| HIndex (index : nat)
| HResolving (p : pid)
| HAdopt (p : pid)
| HProperRaceResume (promiseArray : list pid) (ret : pid)
| HDelayWithResultResume (result : value) (ret : pid).

Record reaction := Reaction { r_handler : handler; r_derived : option pid }.

Inductive promise_state :=
| Pending (locked : bool) (reactions : list reaction)
| Settled (σ : settlement).

(** A promise is [External] when the surrounding program holds its
    resolving functions, [Internal] when only the machine does. *)
Inductive owner := External | Internal.

Record cell := Cell { c_owner : owner; c_state : promise_state }.

Inductive job :=
| JReaction (r : reaction) (σ : settlement)
| JResolveThenable (p : pid) (thenable : pid).

Record timer := Timer { t_due : Z; t_resolve : pid }.

Record state := State {
  heap : list cell;
  queue : list job;
  timers : list timer;
  now : Z
}.

Definition init : state := State [] [] [] 0.

Definition is_promise (v : value) : bool :=
  match v with VPromise _ => true | _ => false end.

(** A thenable is an object with a callable [then]: the host's resolving
    functions call it instead of fulfilling with the object.  No property
    of a [VObject] is callable, so the promises are the only thenables
    among the values; an object with a method [then] of its own is not a
    [value], and a statement about the values that are not thenable says
    nothing about it. *)
Definition thenable (v : value) : bool := is_promise v.

Fixpoint assoc {A} (name : string) (fields : list (string * A)) : option A :=
  match fields with
  | [] => None
  | (k, x) :: fields => if decide (k = name) then Some x else assoc name fields
  end.

(** Reading a property of a value; only plain objects have any. *)
Definition get_field (name : string) (v : value) : option value :=
  match v with
  | VObject fields => assoc name fields
  | _ => None
  end.

(** ** Heap primitives *)

Definition set_heap (h : list cell) (s : state) : state :=
  State h (queue s) (timers s) (now s).

Definition enqueue (js : list job) (s : state) : state :=
  State (heap s) (queue s ++ js) (timers s) (now s).

Definition alloc (o : owner) (s : state) : pid * state :=
  (length (heap s), set_heap (heap s ++ [Cell o (Pending false [])]) s).

(** FulfillPromise / RejectPromise: the cell becomes settled and every
    registered reaction becomes a job, in registration order. *)
Definition settle (p : pid) (σ : settlement) (s : state) : state :=
  match heap s !! p with
  | Some (Cell o (Pending _ rs)) =>
      enqueue ((λ r, JReaction r σ) <$> rs) (set_heap (<[p := Cell o (Settled σ)]> (heap s)) s)
  | _ => s
  end.

Definition lock (p : pid) (s : state) : state :=
  match heap s !! p with
  | Some (Cell o (Pending _ rs)) => set_heap (<[p := Cell o (Pending true rs)]> (heap s)) s
  | _ => s
  end.

(** PerformPromiseThen. *)
Definition subscribe (p : pid) (r : reaction) (s : state) : state :=
  match heap s !! p with
  | Some (Cell o (Pending l rs)) => set_heap (<[p := Cell o (Pending l (rs ++ [r]))]> (heap s)) s
  | Some (Cell o (Settled σ)) => enqueue [JReaction r σ] s
  | None => s
  end.

(** The body of a promise's resolve function once it has passed its
    already-resolved check: a thenable, here a promise, is adopted through
    a job, any other value fulfils. *)
Definition resolve_core (p : pid) (v : value) (s : state) : state :=
  match v with
  | VPromise q =>
      if decide (q = p) then settle p (Rejected (VError "TypeError")) s
      else enqueue [JResolveThenable p q] (lock p s)
  | _ => settle p (Fulfilled v) s
  end.

Definition unresolved (p : pid) (s : state) : bool :=
  match heap s !! p with
  | Some (Cell _ (Pending false _)) => true
  | _ => false
  end.

Definition unsettled (p : pid) (s : state) : bool :=
  match heap s !! p with
  | Some (Cell _ (Pending _ _)) => true
  | _ => false
  end.

(** What a job or an event does, as calls of resolving functions. *)
Inductive action :=
| AResolve (p : pid) (v : value)
| AReject (p : pid) (reason : value)
| AAdoptResolve (p : pid) (v : value)
| AAdoptReject (p : pid) (reason : value)
| AThen (thenable : pid) (h : handler).

Definition apply_action (a : action) (s : state) : state :=
  match a with
  | AResolve p v => if unresolved p s then resolve_core p v s else s
  | AReject p e => if unresolved p s then settle p (Rejected e) s else s
  | AAdoptResolve p v => if unsettled p s then resolve_core p v s else s
  | AAdoptReject p e => if unsettled p s then settle p (Rejected e) s else s
  | AThen q h =>
      let '(d, s1) := alloc Internal s in
      subscribe q (Reaction h (Some d)) s1
  end.

Definition run_actions (acts : list action) (s : state) : state :=
  foldl (λ s a, apply_action a s) s acts.

(** ** The handlers of the source *)

(** [promiseArray[firstFinishedIndex]]: out of range reads [undefined]. *)
Definition array_get (promiseArray : list pid) (index : value) : value :=
  match index with
  | VNumber n =>
      if decide (0 ≤ n)%Z then
        match promiseArray !! Z.to_nat n with
        | Some p => VPromise p
        | None => VUndefined
        end
      else VUndefined
  | _ => VUndefined
  end.

(** The rest of [properRace] after [await Promise.race(indexPromises)]. *)
Definition properRace_resume (promiseArray : list pid) (firstFinishedIndex : value) : value :=
  let firstFinishedPromise := array_get promiseArray firstFinishedIndex in
  VObject [("promise"%string, firstFinishedPromise)].

(** A handler returns normally or throws. *)
Inductive completion := Return (v : value) | Throw (e : value).

Definition handler_actions (h : handler) (σ : settlement) : list action * completion :=
  match h, σ with
  | HIndex index, Fulfilled _ => ([], Return (VNumber (Z.of_nat index)))
  | HIndex _, Rejected e => ([], Throw e)
  | HResolving p, Fulfilled v => ([AResolve p v], Return VUndefined)
  | HResolving p, Rejected e => ([AReject p e], Return VUndefined)
  | HAdopt p, Fulfilled v => ([AAdoptResolve p v], Return VUndefined)
  | HAdopt p, Rejected e => ([AAdoptReject p e], Return VUndefined)
  | HProperRaceResume promiseArray ret, Fulfilled firstFinishedIndex =>
      ([AResolve ret (properRace_resume promiseArray firstFinishedIndex)], Return VUndefined)
  | HProperRaceResume _ ret, Rejected e => ([AReject ret e], Return VUndefined)
  | HDelayWithResultResume result ret, Fulfilled _ => ([AResolve ret result], Return VUndefined)
  | HDelayWithResultResume _ ret, Rejected e => ([AReject ret e], Return VUndefined)
  end.

Definition derived_actions (d : option pid) (c : completion) : list action :=
  match d, c with
  | Some d, Return v => [AResolve d v]
  | Some d, Throw e => [AReject d e]
  | None, _ => []
  end.

Definition job_actions (j : job) : list action :=
  match j with
  | JReaction r σ =>
      let '(acts, c) := handler_actions (r_handler r) σ in
      acts ++ derived_actions (r_derived r) c
  | JResolveThenable p q => [AThen q (HAdopt p)]
  end.

(** ** Events and schedules *)

Inductive event :=
| EJob
| ETimer
| EResolve (p : pid) (v : value)
| EReject (p : pid) (reason : value).

Definition external (p : pid) (s : state) : bool :=
  match heap s !! p with
  | Some (Cell External _) => true
  | _ => false
  end.

Definition step (e : event) (s : state) : state :=
  match e with
  | EJob =>
      match queue s with
      | [] => s
      | j :: q => run_actions (job_actions j) (State (heap s) q (timers s) (now s))
      end
  | ETimer =>
      match queue s, timers s with
      | [], t :: ts =>
          apply_action (AResolve (t_resolve t) VUndefined)
            (State (heap s) [] ts (Z.max (now s) (t_due t)))
      | _, _ => s
      end
  | EResolve p v => if external p s then apply_action (AResolve p v) s else s
  | EReject p e => if external p s then apply_action (AReject p e) s else s
  end.

Definition exec (sched : list event) (s : state) : state :=
  foldl (λ s e, step e s) s sched.

(** ** A state monad for the calls of the source *)

Definition M (A : Type) : Type := state → A * state.

#[export] Instance M_ret : MRet M := λ A x s, (x, s).
#[export] Instance M_bind : MBind M := λ A B f m s, let '(x, s1) := m s in f x s1.

Definition lift (f : state → state) : M unit := λ s, (tt, f s).

(** [promise.then(h)]: a derived promise, and the reaction on [promise]. *)
Definition promise_then (promise : pid) (h : handler) : M pid :=
  d ← alloc Internal;
  lift (subscribe promise (Reaction h (Some d)));;
  mret d.

(** [await promise] inside an async function whose rest is [h]. *)
Definition await (promise : pid) (h : handler) : M unit :=
  lift (subscribe promise (Reaction h None)).

Fixpoint map_indexed {A B} (f : A → nat → M B) (index : nat) (l : list A) : M (list B) :=
  match l with
  | [] => mret []
  | x :: l =>
      y ← f x index;
      ys ← map_indexed f (S index) l;
      mret (y :: ys)
  end.

Fixpoint for_each {A} (f : A → M unit) (l : list A) : M unit :=
  match l with
  | [] => mret tt
  | x :: l => f x;; for_each f l
  end.

(** [Promise.race(promises)]. *)
Definition Promise_race (promises : list pid) : M pid :=
  raced ← alloc Internal;
  for_each (λ promise, _ ← promise_then promise (HResolving raced); mret tt) promises;;
  mret raced.

(** The delay a timer gets: the host sets a delay that is below 1 ms or
    above [TIMEOUT_MAX] to 1 ms. *)
Definition TIMEOUT_MAX : Z := 2147483647.

Definition timer_delay (milliseconds : Z) : Z :=
  if decide (1 ≤ milliseconds ≤ TIMEOUT_MAX)%Z then milliseconds else 1.

(** [setTimeout(resolve, milliseconds)]: timers are kept in firing order,
    a new timer after those already due at the same time. *)
Fixpoint insert_timer (t : timer) (ts : list timer) : list timer :=
  match ts with
  | [] => [t]
  | t' :: ts' =>
      if decide (t_due t' ≤ t_due t)%Z then t' :: insert_timer t ts' else t :: ts
  end.

Definition setTimeout (p : pid) (milliseconds : Z) : M unit :=
  λ s, (tt, State (heap s) (queue s)
              (insert_timer (Timer (now s + timer_delay milliseconds) p) (timers s)) (now s)).

(** ** The utilities of the source *)

Definition delay (milliseconds : Z) : M pid :=
  p ← alloc Internal;
  setTimeout p milliseconds;;
  mret p.

Definition delayWithResult (result : value) (milliseconds : Z) : M pid :=
  ret ← alloc Internal;
  d ← delay milliseconds;
  await d (HDelayWithResultResume result ret);;
  mret ret.

(** [await v] takes the promise of [v]: [v] itself when it is a promise,
    otherwise a new promise resolved with [v], which fulfils it since [v]
    is not thenable. *)
Definition promise_resolve (v : value) : M pid :=
  match v with
  | VPromise p => mret p
  | _ =>
      p ← alloc Internal;
      lift (resolve_core p v);;
      mret p
  end.

(** [retrieve(functor)].  The call of [functor] returns or throws.  The
    rest of the function after its [await] returns the awaited value or
    rethrows: these are the two resolving functions of its own promise. *)
Definition retrieve (functor : M completion) : M pid :=
  ret ← alloc Internal;
  c ← functor;
  match c with
  | Return v =>
      p ← promise_resolve v;
      await p (HResolving ret)
  | Throw e => lift (settle ret (Rejected e))
  end;;
  mret ret.

(** The locals of a call of [properRace]. *)
Record race := Race {
  promiseArray : list pid;
  indexPromises : list pid;
  raced : pid;
  ret : pid
}.

Definition properRace_frame (first second : pid) : M race :=
  ret ← alloc Internal;
  let promiseArray := [first; second] in
  indexPromises ← map_indexed (λ promise index, promise_then promise (HIndex index)) 0 promiseArray;
  raced ← Promise_race indexPromises;
  await raced (HProperRaceResume promiseArray ret);;
  mret (Race promiseArray indexPromises raced ret).

Definition properRace (first second : pid) : M pid :=
  f ← properRace_frame first second;
  mret (ret f).

(** Observations. *)
Definition status (p : pid) (s : state) : option promise_state :=
  c_state <$> heap s !! p.

Definition settled_as (p : pid) (σ : settlement) (s : state) : Prop :=
  status p s = Some (Settled σ).

(** [new Promise(...)] of the surrounding program, which keeps the
    resolving functions. *)
Definition new_promise : M pid := alloc External.

(** ** Capabilities

    The promises a reaction, a job, an action or a timer can resolve. *)

Definition handler_caps (h : handler) : list pid :=
  match h with
  | HIndex _ => []
  | HResolving p | HAdopt p => [p]
  | HProperRaceResume _ ret | HDelayWithResultResume _ ret => [ret]
  end.

Definition reaction_caps (r : reaction) : list pid :=
  handler_caps (r_handler r) ++ option_list (r_derived r).

Definition job_caps (j : job) : list pid :=
  match j with
  | JReaction r _ => reaction_caps r
  | JResolveThenable p _ => [p]
  end.

Definition action_caps (a : action) : list pid :=
  match a with
  | AResolve p _ | AReject p _ | AAdoptResolve p _ | AAdoptReject p _ => [p]
  | AThen _ h => handler_caps h
  end.

(** A promise is never fulfilled with a promise. *)
Definition plain (σ : settlement) : Prop :=
  match σ with
  | Fulfilled v => is_promise v = false
  | Rejected _ => True
  end.

Definition job_plain (j : job) : Prop :=
  match j with
  | JReaction _ σ => plain σ
  | JResolveThenable _ _ => True
  end.

(** Well-formed states: capabilities point into the heap, settlements are
    plain. *)
Record wf (s : state) : Prop := {
  wf_queue : ∀ j, j ∈ queue s →
    (∀ p, p ∈ job_caps j → p < length (heap s)) ∧ job_plain j;
  wf_reactions : ∀ p o l rs r,
    heap s !! p = Some (Cell o (Pending l rs)) → r ∈ rs →
    ∀ q, q ∈ reaction_caps r → q < length (heap s);
  wf_timers : ∀ t, t ∈ timers s → t_resolve t < length (heap s);
  wf_settled : ∀ p o σ, heap s !! p = Some (Cell o (Settled σ)) → plain σ
}.

(** ** The primitives, one by one *)

Lemma settle_pending s p o l rs σ :
  heap s !! p = Some (Cell o (Pending l rs)) →
  settle p σ s =
    State (<[p := Cell o (Settled σ)]> (heap s))
          (queue s ++ ((λ r, JReaction r σ) <$> rs)) (timers s) (now s).
Proof. intros H. unfold settle. by rewrite H. Qed.

Lemma settle_idle s p σ : unsettled p s = false → settle p σ s = s.
Proof.
  unfold unsettled, settle. by destruct (heap s !! p) as [[? [|]]|].
Qed.

Lemma unsettled_true s p :
  unsettled p s = true ↔ ∃ o l rs, heap s !! p = Some (Cell o (Pending l rs)).
Proof.
  unfold unsettled. destruct (heap s !! p) as [[? [|]]|]; split;
    try done; eauto; by intros (?&?&?&?).
Qed.

Lemma unresolved_true s p :
  unresolved p s = true ↔ ∃ o rs, heap s !! p = Some (Cell o (Pending false rs)).
Proof.
  unfold unresolved. destruct (heap s !! p) as [[? [[]|]]|]; split;
    try done; eauto; by intros (?&?&?).
Qed.

Lemma lock_pending s p o l rs :
  heap s !! p = Some (Cell o (Pending l rs)) →
  lock p s = set_heap (<[p := Cell o (Pending true rs)]> (heap s)) s.
Proof. intros H. unfold lock. by rewrite H. Qed.

(** Tactics unfolding one primitive at a known or unknown cell. *)
Ltac case_cell s p :=
  let c := fresh "c" in let E := fresh "E" in
  destruct (heap s !! p) as [[? [? ?|?]]|] eqn:E.

Ltac lookup_simpl :=
  repeat match goal with
  | H : <[_:=_]> _ !! _ = Some _ |- _ =>
      apply list_lookup_insert_Some in H as [(?&?&?)|[? ?]]; simplify_eq/=
  | H : (_ ++ [_]) !! _ = Some _ |- _ =>
      apply lookup_snoc_Some in H as [[? ?]|[? ?]]; simplify_eq/=
  | H : _ ∈ _ ++ _ |- _ => apply elem_of_app in H as [?|?]
  | H : _ ∈ _ <$> _ |- _ => apply list_elem_of_fmap in H as (?&?&?); simplify_eq/=
  | H : _ ∈ [_] |- _ => apply list_elem_of_singleton in H; simplify_eq/=
  | H : _ ∈ _ :: _ |- _ => apply elem_of_cons in H as [?|?]; simplify_eq/=
  | H : _ ∈ [] |- _ => by apply elem_of_nil in H
  end.

Lemma wf_settle s p σ : wf s → plain σ → wf (settle p σ s).
Proof.
  intros [Hq Hr Ht Hs] Hσ. unfold settle. case_cell s p; [|by constructor..].
  constructor; simpl; rewrite ?length_insert.
  - intros j Hj. lookup_simpl; [by apply Hq|]. split; [|done]. eauto.
  - intros ????? Hl ?. lookup_simpl. eauto.
  - done.
  - intros ??? Hl. lookup_simpl; eauto.
Qed.

Lemma wf_lock s p : wf s → wf (lock p s).
Proof.
  intros [Hq Hr Ht Hs]. unfold lock. case_cell s p; [|by constructor..].
  constructor; simpl; rewrite ?length_insert; [done| |done|].
  - intros ????? Hl ?. lookup_simpl; eauto.
  - intros ??? Hl. lookup_simpl; eauto.
Qed.

Lemma wf_enqueue s js :
  wf s →
  (∀ j, j ∈ js → (∀ p, p ∈ job_caps j → p < length (heap s)) ∧ job_plain j) →
  wf (enqueue js s).
Proof.
  intros [Hq Hr Ht Hs] Hjs. constructor; simpl; [|done..].
  intros j Hj. lookup_simpl; eauto.
Qed.

Lemma wf_alloc s o : wf s → wf (alloc o s).2.
Proof.
  intros [Hq Hr Ht Hs]. constructor; simpl; rewrite ?length_app; simpl.
  - intros j Hj. destruct (Hq j Hj) as [H1 H2]. split; [|done].
    intros p Hp. specialize (H1 p Hp). lia.
  - intros ????? Hl ? q Hq'. lookup_simpl.
    assert (q < length (heap s)) by eauto. lia.
  - intros t Hin. specialize (Ht t Hin). lia.
  - intros ??? Hl. lookup_simpl. eauto.
Qed.

Lemma wf_subscribe s p r :
  wf s → (∀ q, q ∈ reaction_caps r → q < length (heap s)) → wf (subscribe p r s).
Proof.
  intros Hwf Hcaps. unfold subscribe. case_cell s p; [| |done].
  - destruct Hwf as [Hq Hr Ht Hs].
    constructor; simpl; rewrite ?length_insert; [done| |done|].
    + intros ????? Hl Hin. lookup_simpl; eauto.
    + intros ??? Hl. lookup_simpl; eauto.
  - apply wf_enqueue; [done|]. intros j Hj. lookup_simpl.
    split; [done|]. simpl. by eapply wf_settled.
Qed.

(** ** What never changes: owners, settled cells, the size of the heap *)

Definition stable (s s' : state) : Prop :=
  ∀ p o st, heap s !! p = Some (Cell o st) →
    ∃ st', heap s' !! p = Some (Cell o st') ∧ (∀ σ, st = Settled σ → st' = Settled σ).

Lemma stable_refl s : stable s s.
Proof. intros p o st H. eauto. Qed.

Lemma stable_trans s1 s2 s3 : stable s1 s2 → stable s2 s3 → stable s1 s3.
Proof.
  intros H12 H23 p o st H.
  destruct (H12 _ _ _ H) as (st2 & H2 & Hs2).
  destruct (H23 _ _ _ H2) as (st3 & H3 & Hs3).
  exists st3. split; [done|]. intros σ ->. by apply Hs3, Hs2.
Qed.

Lemma stable_length s s' : stable s s' → length (heap s) ≤ length (heap s').
Proof.
  intros H. destruct (decide (length (heap s) = 0)) as [->|Hne]; [lia|].
  destruct (lookup_lt_is_Some_2 (heap s) (length (heap s) - 1)) as [[o st] Hc]; [lia|].
  destruct (H _ _ _ Hc) as (st' & Hc' & _). apply lookup_lt_Some in Hc'. lia.
Qed.

Lemma stable_settled s s' p σ :
  stable s s' → settled_as p σ s → settled_as p σ s'.
Proof.
  unfold settled_as, status. intros H Hp.
  destruct (heap s !! p) as [[o st]|] eqn:E; [|done].
  destruct (H _ _ _ E) as (st' & E' & Hst). rewrite E'. simpl in *.
  simplify_eq. by rewrite (Hst σ).
Qed.

Lemma stable_insert s p o st c (h := heap s) q t n :
  heap s !! p = Some (Cell o st) → (∀ σ, st = Settled σ → c = Settled σ) →
  stable s (State (<[p := Cell o c]> h) q t n).
Proof.
  intros Hp Hc p' o' st' Hp'. simpl. destruct (decide (p = p')) as [<-|Hne].
  - simplify_eq. exists c. split; [|done].
    apply list_lookup_insert_eq. by eapply lookup_lt_Some.
  - exists st'. by rewrite list_lookup_insert_ne.
Qed.

Lemma stable_settle s p σ : stable s (settle p σ s).
Proof.
  unfold settle. case_cell s p; try apply stable_refl.
  eapply stable_insert; [done|]. by intros.
Qed.

Lemma stable_lock s p : stable s (lock p s).
Proof.
  unfold lock. case_cell s p; try apply stable_refl.
  eapply stable_insert; [done|]. by intros.
Qed.

Lemma stable_enqueue s js : stable s (enqueue js s).
Proof. intros p o st H. eauto. Qed.

Lemma stable_alloc s o : stable s (alloc o s).2.
Proof.
  intros p o' st H. exists st. split; [|done]. simpl. by apply lookup_app_l_Some.
Qed.

Lemma stable_subscribe s p r : stable s (subscribe p r s).
Proof.
  unfold subscribe. case_cell s p; try apply stable_refl.
  - eapply stable_insert; [done|]. by intros.
  - apply stable_enqueue.
Qed.

Lemma stable_resolve_core s p v : stable s (resolve_core p v s).
Proof.
  unfold resolve_core. destruct v; try apply stable_settle.
  case_decide; [apply stable_settle|].
  eapply stable_trans; [apply stable_lock|apply stable_enqueue].
Qed.

Lemma stable_action s a : stable s (apply_action a s).
Proof.
  destruct a; simpl; try case_match;
    eauto using stable_refl, stable_settle, stable_resolve_core.
  eapply stable_trans; [apply (stable_alloc s Internal)|apply stable_subscribe].
Qed.

Lemma stable_actions s acts : stable s (run_actions acts s).
Proof.
  revert s. induction acts as [|a acts IH]; intros s; [apply stable_refl|].
  eapply stable_trans; [apply (stable_action s a)|apply IH].
Qed.

Lemma stable_same_heap s s' : heap s = heap s' → stable s s'.
Proof. intros E p o st H. rewrite <-E. eauto. Qed.

Lemma stable_step s e : stable s (step e s).
Proof.
  destruct e; unfold step.
  - destruct (queue s); [apply stable_refl|].
    eapply stable_trans; [|apply stable_actions]. by apply stable_same_heap.
  - destruct (queue s), (timers s); try apply stable_refl.
    eapply stable_trans; [|apply stable_action]. by apply stable_same_heap.
  - case_match; [apply stable_action|apply stable_refl].
  - case_match; [apply stable_action|apply stable_refl].
Qed.

Lemma stable_exec s sched : stable s (exec sched s).
Proof.
  revert s. induction sched as [|e sched IH]; intros s; [apply stable_refl|].
  eapply stable_trans; [apply (stable_step s e)|apply IH].
Qed.

(** Actions only append to the queue and leave the timers alone. *)
Definition appends (s s' : state) : Prop :=
  (∃ js, queue s' = queue s ++ js) ∧ timers s' = timers s ∧ now s' = now s.

Lemma appends_same s s' :
  queue s' = queue s → timers s' = timers s → now s' = now s → appends s s'.
Proof. intros Eq ? ?. split; [|done]. exists []. by rewrite app_nil_r. Qed.

Lemma appends_refl s : appends s s.
Proof. by apply appends_same. Qed.

Lemma appends_trans s1 s2 s3 : appends s1 s2 → appends s2 s3 → appends s1 s3.
Proof.
  intros ([js1 E1] & ? & ?) ([js2 E2] & ? & ?). split; [|split; congruence].
  exists (js1 ++ js2). by rewrite E2, E1, app_assoc.
Qed.

Lemma appends_enqueue s js : appends s (enqueue js s).
Proof. split; [|done]. by exists js. Qed.

Lemma appends_settle s p σ : appends s (settle p σ s).
Proof.
  unfold settle. case_cell s p; try apply appends_refl.
  split; [|done]. simpl. eauto.
Qed.

Lemma appends_lock s p : appends s (lock p s).
Proof. unfold lock. case_cell s p; by apply appends_same. Qed.

Lemma appends_alloc s o : appends s (alloc o s).2.
Proof. by apply appends_same. Qed.

Lemma appends_subscribe s p r : appends s (subscribe p r s).
Proof.
  unfold subscribe. case_cell s p; try by apply appends_same.
  apply appends_enqueue.
Qed.

Lemma appends_resolve_core s p v : appends s (resolve_core p v s).
Proof.
  unfold resolve_core. destruct v; try apply appends_settle.
  case_decide; [apply appends_settle|].
  eapply appends_trans; [apply appends_lock|apply appends_enqueue].
Qed.

Lemma appends_action s a : appends s (apply_action a s).
Proof.
  destruct a; simpl; try case_match;
    eauto using appends_refl, appends_settle, appends_resolve_core.
  eapply appends_trans; [apply (appends_alloc s Internal)|apply appends_subscribe].
Qed.

Lemma appends_actions s acts : appends s (run_actions acts s).
Proof.
  revert s. induction acts as [|a acts IH]; intros s; [apply appends_refl|].
  eapply appends_trans; [apply (appends_action s a)|apply IH].
Qed.

(** ** Well-formedness is kept *)

Lemma wf_resolve_core s p v :
  wf s → p < length (heap s) → wf (resolve_core p v s).
Proof.
  intros Hwf Hp. unfold resolve_core.
  destruct v; try (apply wf_settle; done).
  case_decide; [by apply wf_settle|].
  apply wf_enqueue; [by apply wf_lock|]. intros j Hj. lookup_simpl.
  split; [|done]. intros q Hq. lookup_simpl.
  pose proof (stable_length _ _ (stable_lock s p)). lia.
Qed.

Lemma wf_action s a :
  wf s → (∀ p, p ∈ action_caps a → p < length (heap s)) → wf (apply_action a s).
Proof.
  intros Hwf Hcaps. destruct a as [p v|p e|p v|p e|q h]; simpl in *.
  - case_match; [|done]. apply wf_resolve_core; [done|]. apply Hcaps. by left.
  - case_match; [|done]. by apply wf_settle.
  - case_match; [|done]. apply wf_resolve_core; [done|]. apply Hcaps. by left.
  - case_match; [|done]. by apply wf_settle.
  - apply wf_subscribe; [by apply (wf_alloc s Internal)|].
    intros p Hp. simpl. rewrite length_app. simpl.
    unfold reaction_caps in Hp. simpl in Hp. lookup_simpl; [|lia].
    specialize (Hcaps _ H). lia.
Qed.

Lemma wf_actions s acts :
  wf s → (∀ a p, a ∈ acts → p ∈ action_caps a → p < length (heap s)) →
  wf (run_actions acts s).
Proof.
  revert s. induction acts as [|a acts IH]; intros s Hwf Hcaps; [done|].
  simpl. apply IH.
  - apply wf_action; [done|]. intros p Hp. eapply Hcaps; [by left|done].
  - intros b p Hb Hp.
    pose proof (stable_length _ _ (stable_action s a)).
    assert (p < length (heap s)); [|lia]. eapply Hcaps; [by right|done].
Qed.

Lemma job_actions_caps j a p :
  a ∈ job_actions j → p ∈ action_caps a → p ∈ job_caps j.
Proof.
  destruct j as [[h d] σ|p' q]; simpl.
  - unfold reaction_caps. simpl. intros Ha Hp.
    destruct h, σ, d; simpl in *; lookup_simpl; lookup_simpl;
      rewrite ?elem_of_cons; auto.
  - intros Ha Hp. lookup_simpl. by left.
Qed.

Lemma wf_step s e : wf s → wf (step e s).
Proof.
  intros Hwf. destruct e as [| |p v|p r]; unfold step.
  - destruct (queue s) as [|j q] eqn:Eq; [done|].
    destruct (wf_queue _ Hwf j) as [Hj _]; [rewrite Eq; by left|].
    apply wf_actions.
    + destruct Hwf as [Hq Hr Ht Hs]. constructor; simpl; [|done..].
      intros j' Hj'. apply Hq. rewrite Eq. by right.
    + simpl. eauto using job_actions_caps.
  - destruct (queue s) as [|j q] eqn:Eq; [|done].
    destruct (timers s) as [|t ts] eqn:Et; [done|].
    apply wf_action.
    + destruct Hwf as [Hq Hr Ht Hs]. constructor; simpl; [|done| |done].
      * intros ? ?. lookup_simpl.
      * intros t' Ht'. apply Ht. rewrite Et. by right.
    + simpl. intros p Hp. lookup_simpl. apply (wf_timers _ Hwf). rewrite Et. by left.
  - case_match eqn:Ex; [|done]. apply wf_action; [done|].
    simpl. intros q Hq. lookup_simpl. unfold external in Ex.
    destruct (heap s !! p) eqn:E; [|done]. by eapply lookup_lt_Some.
  - case_match eqn:Ex; [|done]. apply wf_action; [done|].
    simpl. intros q Hq. lookup_simpl. unfold external in Ex.
    destruct (heap s !! p) eqn:E; [|done]. by eapply lookup_lt_Some.
Qed.

Lemma wf_exec s sched : wf s → wf (exec sched s).
Proof.
  revert s. induction sched as [|e sched IH]; intros s Hwf; [done|].
  simpl. apply IH. by apply wf_step.
Qed.

(** ** The effect of a job on one promise *)

(** An action that settles its promise outright. *)
Definition settling (a : action) : option (pid * settlement) :=
  match a with
  | AResolve p v => if is_promise v then None else Some (p, Fulfilled v)
  | AReject p e => Some (p, Rejected e)
  | _ => None
  end.

(** [job_effect P j = Some τ]: exactly one action of [j] concerns [P], and
    it settles [P] as [τ] (when [P] is still unresolved). *)
Definition job_effect (P : pid) (j : job) : option settlement :=
  match filter (λ a, P ∈ action_caps a) (job_actions j) with
  | [a] => snd <$> settling a
  | _ => None
  end.

Lemma filter_singleton {A} (f : A → Prop) `{!∀ x, Decision (f x)} (l : list A) a :
  filter f l = [a] →
  ∃ pre post, l = pre ++ a :: post ∧ f a ∧ Forall (λ b, ¬ f b) pre ∧ Forall (λ b, ¬ f b) post.
Proof.
  induction l as [|x l IH]; [done|]. rewrite filter_cons. case_decide as Hx.
  - intros [= -> Hnil]. exists [], l. repeat split; [done|constructor|].
    apply list.Forall_forall. intros b Hb Hfb.
    assert (b ∈ filter f l) as Hin by (apply list_elem_of_filter; done).
    rewrite Hnil in Hin. by apply elem_of_nil in Hin.
  - intros (pre & post & -> & ? & ? & ?)%IH. exists (x :: pre), post.
    repeat split; [done|by constructor|done].
Qed.

Lemma settling_caps a p τ : settling a = Some (p, τ) → action_caps a = [p].
Proof. destruct a; simpl; try done; [case_match; naive_solver|naive_solver]. Qed.

Lemma job_effect_split P j τ :
  job_effect P j = Some τ →
  ∃ pre a post, job_actions j = pre ++ a :: post ∧ settling a = Some (P, τ) ∧
    Forall (λ b, P ∉ action_caps b) pre ∧ Forall (λ b, P ∉ action_caps b) post.
Proof.
  unfold job_effect. intros H.
  destruct (filter _ _) as [|a [|]] eqn:E; try done.
  apply filter_singleton in E as (pre & post & -> & Ha & Hpre & Hpost).
  exists pre, a, post. repeat split; try done.
  destruct (settling a) as [[p τ']|] eqn:Es; simplify_eq/=.
  apply settling_caps in Es as Ec. rewrite Ec in Ha.
  apply list_elem_of_singleton in Ha. by subst.
Qed.

Lemma resolve_core_plain s p v :
  is_promise v = false → resolve_core p v s = settle p (Fulfilled v) s.
Proof. by destruct v. Qed.

(** ** Promises governed by their sources

    [governed P srcs timed s]: the promise [P] can only be settled through
    the reactions [srcs], each registered on its source promise (or by a
    timer when [timed]); nothing else in the state holds a capability for
    [P], and [P] is unresolved or settled as one of its sources decided. *)
Section governed.
Context (P : pid) (srcs : list (pid * reaction)) (timed : bool).

Definition designated (s : state) (j : job) : Prop :=
  ∃ src r σ, j = JReaction r σ ∧ (src, r) ∈ srcs ∧ settled_as src σ s.

Definition justified (s : state) (τ : settlement) : Prop :=
  (∃ j, designated s j ∧ job_effect P j = Some τ) ∨
  (timed = true ∧ τ = Fulfilled VUndefined).

Record governed (s : state) : Prop := {
  gov_cell : ∃ st, heap s !! P = Some (Cell Internal st) ∧
    match st with Pending l _ => l = false | Settled τ => justified s τ end;
  gov_reactions : ∀ p o l rs r,
    heap s !! p = Some (Cell o (Pending l rs)) → r ∈ rs →
    P ∈ reaction_caps r → (p, r) ∈ srcs;
  gov_queue : ∀ j, j ∈ queue s → P ∈ job_caps j → designated s j;
  gov_timers : ∀ t, t ∈ timers s → t_resolve t = P → timed = true
}.

Hypothesis well_behaved : ∀ src r σ,
  (src, r) ∈ srcs → plain σ → is_Some (job_effect P (JReaction r σ)).

Lemma designated_stable s s' j : stable s s' → designated s j → designated s' j.
Proof.
  intros Hst (src & r & σ & -> & ? & ?). exists src, r, σ.
  eauto using stable_settled.
Qed.

Lemma justified_stable s s' τ : stable s s' → justified s τ → justified s' τ.
Proof.
  intros Hst [(j & ? & ?)|?]; [left|by right].
  exists j. eauto using designated_stable.
Qed.

Lemma governed_settle s p σ :
  governed s → (p = P → justified s σ) → governed (settle p σ s).
Proof.
  intros [(st & HP & Hst) Hr Hq Ht] Hp.
  pose proof (stable_settle s p σ) as Hstable.
  unfold settle in *. case_cell s p; [|by constructor; eauto..].
  constructor; simpl.
  - destruct (decide (p = P)) as [->|Hne].
    + simplify_eq. eexists. split.
      { apply list_lookup_insert_eq. by eapply lookup_lt_Some. }
      eapply justified_stable; eauto.
    + exists st. split; [by rewrite list_lookup_insert_ne|].
      destruct st; [done|]. eapply justified_stable; eauto.
  - intros ????? Hl ? ?. lookup_simpl. eauto.
  - intros j Hj Hcap. lookup_simpl.
    + eapply designated_stable; eauto.
    + eexists p, _, σ. split; [done|]. split; [by eauto|].
      unfold settled_as, status. simpl.
      rewrite list_lookup_insert_eq; [done|by eapply lookup_lt_Some].
  - done.
Qed.

Lemma governed_lock s p : governed s → p ≠ P → governed (lock p s).
Proof.
  intros [(st & HP & Hst) Hr Hq Ht] Hp.
  pose proof (stable_lock s p) as Hstable.
  unfold lock in *. case_cell s p; [|by constructor; eauto..].
  constructor; simpl.
  - exists st. split; [by rewrite list_lookup_insert_ne|].
    destruct st; [done|]. eapply justified_stable; eauto.
  - intros ????? Hl ? ?. lookup_simpl; eauto.
  - intros j Hj Hcap. eapply designated_stable; eauto.
  - done.
Qed.

Lemma governed_enqueue s js :
  governed s → (∀ j, j ∈ js → P ∈ job_caps j → designated s j) →
  governed (enqueue js s).
Proof.
  intros [HP Hr Hq Ht] Hjs. constructor; simpl; [done..| |done].
  intros j Hj Hcap. lookup_simpl; eauto.
Qed.

Lemma governed_alloc s o : governed s → governed (alloc o s).2.
Proof.
  intros [(st & HP & Hst) Hr Hq Ht].
  pose proof (stable_alloc s o) as Hstable.
  constructor; simpl.
  - exists st. split; [by apply lookup_app_l_Some|].
    destruct st; [done|]. eapply justified_stable; eauto.
  - intros ????? Hl ? ?. lookup_simpl. eauto.
  - intros j Hj Hcap. eapply designated_stable; eauto.
  - done.
Qed.

Lemma governed_subscribe s p r :
  governed s → (P ∈ reaction_caps r → (p, r) ∈ srcs) →
  governed (subscribe p r s).
Proof.
  intros Hgov Hp.
  pose proof (stable_subscribe s p r) as Hstable.
  unfold subscribe in *. case_cell s p; [| |done].
  - destruct Hgov as [(st & HP & Hst) Hr Hq Ht]. constructor; simpl.
    + destruct (decide (p = P)) as [->|Hne].
      * rewrite HP in E. simplify_eq. eexists. split.
        { apply list_lookup_insert_eq. by eapply lookup_lt_Some. }
        done.
      * exists st. split; [by rewrite list_lookup_insert_ne|].
        destruct st; [done|]. eapply justified_stable; eauto.
    + intros ????? Hl ? ?. lookup_simpl; eauto.
    + intros j Hj Hcap. eapply designated_stable; eauto.
    + done.
  - apply governed_enqueue; [done|]. intros j Hj Hcap. lookup_simpl.
    eexists p, _, _. split; [done|]. split; [by eauto|].
    unfold settled_as, status. by rewrite E.
Qed.

Lemma governed_lt s : governed s → P < length (heap s).
Proof. intros [(st & HP & _) _ _ _]. by eapply lookup_lt_Some. Qed.

Lemma governed_resolve_core s p v :
  governed s → p ≠ P → governed (resolve_core p v s).
Proof.
  intros Hgov Hp. unfold resolve_core.
  destruct v; try (apply governed_settle; done).
  case_decide; [by apply governed_settle|].
  apply governed_enqueue; [by apply governed_lock|].
  intros j Hj Hcap; lookup_simpl; done.
Qed.

Lemma governed_action_other s a :
  governed s → P ∉ action_caps a → governed (apply_action a s).
Proof.
  intros Hgov Hcap. destruct a as [p v|p e|p v|p e|q h]; simpl in *.
  - case_match; [|done]. apply governed_resolve_core; [done|].
    intros ->. apply Hcap. by left.
  - case_match; [|done]. apply governed_settle; [done|].
    intros ->. destruct Hcap. by left.
  - case_match; [|done]. apply governed_resolve_core; [done|].
    intros ->. apply Hcap. by left.
  - case_match; [|done]. apply governed_settle; [done|].
    intros ->. destruct Hcap. by left.
  - apply governed_subscribe; [by apply (governed_alloc s Internal)|].
    unfold reaction_caps. simpl. intros Hin. lookup_simpl; [done|].
    apply governed_lt in Hgov. lia.
Qed.

Lemma governed_action_self s a τ :
  governed s → settling a = Some (P, τ) → justified s τ →
  governed (apply_action a s).
Proof.
  intros Hgov Ha Hj. destruct a as [p v|p e|p v|p e|q h]; simplify_eq/=.
  - destruct (is_promise v) eqn:Ev; simplify_eq.
    case_match; [|done]. rewrite resolve_core_plain by done.
    by apply governed_settle.
  - case_match; [|done]. by apply governed_settle.
Qed.

Lemma governed_actions_other s acts :
  governed s → Forall (λ b, P ∉ action_caps b) acts →
  governed (run_actions acts s).
Proof.
  revert s. induction acts as [|a acts IH]; intros s Hgov Hall; [done|].
  inversion_clear Hall. simpl. apply IH; [|done].
  by apply governed_action_other.
Qed.

Lemma governed_job s j :
  wf s → governed s → (P ∈ job_caps j → designated s j) →
  governed (run_actions (job_actions j) s).
Proof.
  intros Hwf Hgov Hj. destruct (decide (P ∈ job_caps j)) as [Hin|Hout].
  - destruct (Hj Hin) as (src & r & σ & -> & Hsrc & Hset).
    assert (plain σ) as Hσ.
    { unfold settled_as, status in Hset.
      destruct (heap s !! src) as [[o st]|] eqn:E; simplify_eq/=.
      by eapply wf_settled. }
    destruct (well_behaved _ _ _ Hsrc Hσ) as [τ Hτ].
    destruct (job_effect_split _ _ _ Hτ) as (pre & a & post & -> & Ha & Hpre & Hpost).
    unfold run_actions. rewrite foldl_app. simpl.
    apply governed_actions_other; [|done].
    eapply governed_action_self; [by apply governed_actions_other|done|].
    left. exists (JReaction r σ). split; [|done].
    eapply designated_stable; [apply stable_actions|]. by exists src, r, σ.
  - apply governed_actions_other; [done|].
    apply list.Forall_forall. intros a Ha Hcap. apply Hout.
    by eapply job_actions_caps.
Qed.

Lemma governed_step s e : wf s → governed s → governed (step e s).
Proof.
  intros Hwf Hgov. destruct e as [| |p v|p r]; unfold step.
  - destruct (queue s) as [|j q] eqn:Eq; [done|].
    apply governed_job.
    + destruct Hwf as [Hq Hr Ht Hs]. constructor; simpl; [|done..].
      intros j' Hj'. apply Hq. rewrite Eq. by right.
    + destruct Hgov as [HP Hr Hq' Ht]. constructor; simpl; [done..| |done].
      intros j' Hj'. apply Hq'. rewrite Eq. by right.
    + intros Hin. eapply designated_stable; [by apply stable_same_heap|].
      apply (gov_queue _ Hgov); [|done]. rewrite Eq. by left.
  - destruct (queue s) as [|j q] eqn:Eq; [|done].
    destruct (timers s) as [|t ts] eqn:Et; [done|].
    set (s1 := State _ _ _ _).
    assert (governed s1) as Hgov1.
    { destruct Hgov as [HP Hr Hq' Ht]. constructor; simpl; [done..| |].
      - intros ? ?. lookup_simpl.
      - intros t' Ht'. apply Ht. rewrite Et. by right. }
    destruct (decide (t_resolve t = P)) as [EP|NP].
    + eapply governed_action_self; [done|by rewrite EP|].
      right. split; [|done]. eapply (gov_timers _ Hgov); [|done].
      rewrite Et. by left.
    + apply governed_action_other; [done|]. simpl.
      by intros ?%list_elem_of_singleton.
  - case_match eqn:Ex; [|done]. apply governed_action_other; [done|].
    simpl. intros HPp%list_elem_of_singleton.
    destruct Hgov as [(st & HP & _) _ _ _]. unfold external in Ex.
    by rewrite <-HPp, HP in Ex.
  - case_match eqn:Ex; [|done]. apply governed_action_other; [done|].
    simpl. intros HPp%list_elem_of_singleton.
    destruct Hgov as [(st & HP & _) _ _ _]. unfold external in Ex.
    by rewrite <-HPp, HP in Ex.
Qed.

Lemma governed_exec s sched : wf s → governed s → governed (exec sched s).
Proof.
  revert s. induction sched as [|e sched IH]; intros s Hwf Hgov; [done|].
  simpl. apply IH; [by apply wf_step|by apply governed_step].
Qed.
End governed.

(** ** Actions that do not concern a promise leave it pending *)

Definition keeps (P : pid) (s s' : state) : Prop :=
  ∀ o l rs, heap s !! P = Some (Cell o (Pending l rs)) →
    ∃ rs', heap s' !! P = Some (Cell o (Pending l (rs ++ rs'))).

Lemma keeps_refl P s : keeps P s s.
Proof. intros o l rs H. exists []. by rewrite app_nil_r. Qed.

Lemma keeps_trans P s1 s2 s3 : keeps P s1 s2 → keeps P s2 s3 → keeps P s1 s3.
Proof.
  intros H12 H23 o l rs H. destruct (H12 _ _ _ H) as [rs2 H2].
  destruct (H23 _ _ _ H2) as [rs3 H3]. exists (rs2 ++ rs3). by rewrite app_assoc.
Qed.

Lemma keeps_same_heap P s s' : heap s = heap s' → keeps P s s'.
Proof. intros E o l rs H. exists []. by rewrite app_nil_r, <-E. Qed.

Lemma keeps_insert_ne P s p c q t n :
  p ≠ P → keeps P s (State (<[p := c]> (heap s)) q t n).
Proof.
  intros Hne o l rs H. exists []. simpl.
  by rewrite app_nil_r, list_lookup_insert_ne.
Qed.

Lemma keeps_settle P s p σ : p ≠ P → keeps P s (settle p σ s).
Proof.
  intros Hne. unfold settle. case_cell s p; try apply keeps_refl.
  by apply keeps_insert_ne.
Qed.

Lemma keeps_lock P s p : p ≠ P → keeps P s (lock p s).
Proof.
  intros Hne. unfold lock. case_cell s p; try apply keeps_refl.
  by apply keeps_insert_ne.
Qed.

Lemma keeps_alloc P s o : keeps P s (alloc o s).2.
Proof.
  intros o' l rs H. exists []. rewrite app_nil_r. simpl.
  by apply lookup_app_l_Some.
Qed.

Lemma keeps_subscribe P s p r : keeps P s (subscribe p r s).
Proof.
  unfold subscribe. case_cell s p; try apply keeps_refl.
  - destruct (decide (p = P)) as [->|Hne]; [|by apply keeps_insert_ne].
    intros o l rs H. simplify_eq. exists [r]. simpl.
    apply list_lookup_insert_eq. by eapply lookup_lt_Some.
  - by apply keeps_same_heap.
Qed.

Lemma keeps_resolve_core P s p v : p ≠ P → keeps P s (resolve_core p v s).
Proof.
  intros Hne. unfold resolve_core. destruct v; try by apply keeps_settle.
  case_decide; [by apply keeps_settle|].
  eapply keeps_trans; [by apply keeps_lock|by apply keeps_same_heap].
Qed.

Lemma keeps_action P s a : P ∉ action_caps a → keeps P s (apply_action a s).
Proof.
  intros Hcap. destruct a as [p v|p e|p v|p e|q h]; simpl in *.
  - case_match; [|apply keeps_refl]. apply keeps_resolve_core.
    intros ->. apply Hcap. by left.
  - case_match; [|apply keeps_refl]. apply keeps_settle.
    intros ->. apply Hcap. by left.
  - case_match; [|apply keeps_refl]. apply keeps_resolve_core.
    intros ->. apply Hcap. by left.
  - case_match; [|apply keeps_refl]. apply keeps_settle.
    intros ->. apply Hcap. by left.
  - eapply keeps_trans; [apply (keeps_alloc P s Internal)|apply keeps_subscribe].
Qed.

Lemma keeps_actions P s acts :
  Forall (λ b, P ∉ action_caps b) acts → keeps P s (run_actions acts s).
Proof.
  revert s. induction acts as [|a acts IH]; intros s Hall; [apply keeps_refl|].
  inversion_clear Hall. eapply keeps_trans; [by apply keeps_action|by apply IH].
Qed.

Lemma keeps_unsettled P s s' : keeps P s s' → unsettled P s = true → unsettled P s' = true.
Proof.
  intros Hk (o & l & rs & H)%unsettled_true. destruct (Hk _ _ _ H) as [rs' H'].
  apply unsettled_true. eauto.
Qed.

(** A settling action settles an unresolved promise. *)
Lemma action_settles s a P τ o rs :
  settling a = Some (P, τ) → heap s !! P = Some (Cell o (Pending false rs)) →
  settled_as P τ (apply_action a s).
Proof.
  intros Ha HP.
  assert (unresolved P s = true) as Hun by (apply unresolved_true; eauto).
  assert (settled_as P τ (settle P τ s)) as Hset.
  { rewrite (settle_pending _ _ _ _ _ _ HP). unfold settled_as, status. simpl.
    rewrite list_lookup_insert_eq; [done|by eapply lookup_lt_Some]. }
  destruct a as [p v|p e|p v|p e|q h]; simplify_eq/=.
  - destruct (is_promise v) eqn:Ev; simplify_eq.
    by rewrite Hun, resolve_core_plain.
  - by rewrite Hun.
Qed.

Lemma job_settles s j P τ o rs :
  job_effect P j = Some τ → heap s !! P = Some (Cell o (Pending false rs)) →
  settled_as P τ (run_actions (job_actions j) s).
Proof.
  intros (pre & a & post & -> & Ha & Hpre & Hpost)%job_effect_split HP.
  unfold run_actions. rewrite foldl_app. simpl.
  eapply stable_settled; [apply stable_actions|].
  destruct (keeps_actions P s pre Hpre _ _ _ HP) as [rs' HP'].
  by eapply action_settles.
Qed.

(** ** Liveness: a source feeds its target *)

Definition feeds (src : pid) (r : reaction) (P : pid) (s : state) : Prop :=
  match heap s !! src with
  | Some (Cell _ (Pending _ rs)) => r ∈ rs
  | Some (Cell _ (Settled σ)) => JReaction r σ ∈ queue s ∨ ∃ τ, settled_as P τ s
  | None => False
  end.

(** A step of the heap that only settles, locks, allocates, registers and
    appends jobs: every primitive and every action is one. *)
Definition advances (s s' : state) : Prop :=
  stable s s' ∧ appends s s' ∧
  ∀ p o l rs, heap s !! p = Some (Cell o (Pending l rs)) →
    (∃ l' rs', heap s' !! p = Some (Cell o (Pending l' (rs ++ rs')))) ∨
    (∃ σ, heap s' !! p = Some (Cell o (Settled σ)) ∧
          ∀ r, r ∈ rs → JReaction r σ ∈ queue s').

Lemma feeds_advances src r P s s' :
  advances s s' → feeds src r P s → feeds src r P s'.
Proof.
  intros (Hst & ([js Hq] & _ & _) & Hadv). unfold feeds.
  destruct (heap s !! src) as [[o [l rs|σ]]|] eqn:E; [| |done].
  - intros Hr. destruct (Hadv _ _ _ _ E) as [(l' & rs' & ->)|(σ & -> & Hjobs)].
    + apply elem_of_app. by left.
    + left. by apply Hjobs.
  - destruct (Hst _ _ _ E) as (st' & -> & Hs'). rewrite (Hs' σ) by done.
    intros [Hj|[τ Hτ]]; [left|right].
    + rewrite Hq. apply elem_of_app. by left.
    + exists τ. by eapply stable_settled.
Qed.

Lemma advances_refl s : advances s s.
Proof.
  split; [apply stable_refl|]. split; [apply appends_refl|].
  intros p o l rs H. left. exists l, []. by rewrite app_nil_r.
Qed.

Lemma advances_trans s1 s2 s3 : advances s1 s2 → advances s2 s3 → advances s1 s3.
Proof.
  intros (Hs12 & Ha12 & H12) (Hs23 & Ha23 & H23).
  split; [by eapply stable_trans|]. split; [by eapply appends_trans|].
  intros p o l rs H. destruct (H12 _ _ _ _ H) as [(l2 & rs2 & H2)|(σ & H2 & Hj)].
  - destruct (H23 _ _ _ _ H2) as [(l3 & rs3 & H3)|(σ & H3 & Hj)].
    + left. exists l3, (rs2 ++ rs3). by rewrite app_assoc.
    + right. exists σ. split; [done|]. intros r Hr. apply Hj.
      apply elem_of_app. by left.
  - right. exists σ. destruct (Hs23 _ _ _ H2) as (st3 & H3 & Hst3).
    rewrite (Hst3 σ) in H3 by done. split; [done|]. intros r Hr.
    destruct Ha23 as ([js ->] & _). apply elem_of_app. left. by apply Hj.
Qed.

Lemma advances_same_pending s s' :
  stable s s' → appends s s' →
  (∀ p o l rs, heap s !! p = Some (Cell o (Pending l rs)) →
     ∃ l' rs', heap s' !! p = Some (Cell o (Pending l' (rs ++ rs')))) →
  advances s s'.
Proof. intros ?? H. split; [done|]. split; [done|]. intros. left. eauto. Qed.

Lemma advances_settle s p σ : advances s (settle p σ s).
Proof.
  split; [apply stable_settle|]. split; [apply appends_settle|].
  unfold settle. case_cell s p; try apply advances_refl.
  intros p' o l rs H. simpl. destruct (decide (p = p')) as [<-|Hne].
  - simplify_eq. right. exists σ. split.
    + apply list_lookup_insert_eq. by eapply lookup_lt_Some.
    + intros r Hr. apply elem_of_app. right. apply list_elem_of_fmap. eauto.
  - left. exists l, []. by rewrite app_nil_r, list_lookup_insert_ne.
Qed.

Lemma advances_lock s p : advances s (lock p s).
Proof.
  apply advances_same_pending; [apply stable_lock|apply appends_lock|].
  unfold lock. case_cell s p; try (intros; eexists _, []; by rewrite app_nil_r).
  intros p' o l rs H. simpl. destruct (decide (p = p')) as [<-|Hne].
  - simplify_eq. exists true, []. rewrite app_nil_r.
    apply list_lookup_insert_eq. by eapply lookup_lt_Some.
  - exists l, []. by rewrite app_nil_r, list_lookup_insert_ne.
Qed.

Lemma advances_enqueue s js : advances s (enqueue js s).
Proof.
  apply advances_same_pending; [apply stable_enqueue|apply appends_enqueue|].
  intros; eexists _, []; by rewrite app_nil_r.
Qed.

Lemma advances_alloc s o : advances s (alloc o s).2.
Proof.
  apply advances_same_pending; [apply stable_alloc|apply appends_alloc|].
  intros p o' l rs H. exists l, []. rewrite app_nil_r. simpl.
  by apply lookup_app_l_Some.
Qed.

Lemma advances_subscribe s p r : advances s (subscribe p r s).
Proof.
  apply advances_same_pending; [apply stable_subscribe|apply appends_subscribe|].
  unfold subscribe. case_cell s p; try (intros; eexists _, []; by rewrite app_nil_r).
  intros p' o l rs H. simpl. destruct (decide (p = p')) as [<-|Hne].
  - simplify_eq. eexists _, [r].
    apply list_lookup_insert_eq. by eapply lookup_lt_Some.
  - exists l, []. by rewrite app_nil_r, list_lookup_insert_ne.
Qed.

Lemma advances_resolve_core s p v : advances s (resolve_core p v s).
Proof.
  unfold resolve_core. destruct v; try apply advances_settle.
  case_decide; [apply advances_settle|].
  eapply advances_trans; [apply advances_lock|apply advances_enqueue].
Qed.

Lemma advances_action s a : advances s (apply_action a s).
Proof.
  destruct a; simpl; try case_match;
    eauto using advances_refl, advances_settle, advances_resolve_core.
  eapply advances_trans; [apply (advances_alloc s Internal)|apply advances_subscribe].
Qed.

Lemma advances_actions s acts : advances s (run_actions acts s).
Proof.
  revert s. induction acts as [|a acts IH]; intros s; [apply advances_refl|].
  eapply advances_trans; [apply (advances_action s a)|apply IH].
Qed.

(** ** The first job that concerns a set of promises *)

Definition concerns (Ps : list pid) (j : job) : Prop :=
  Exists (λ p, p ∈ job_caps j) Ps.

#[export] Instance concerns_dec Ps j : Decision (concerns Ps j).
Proof. unfold concerns. apply _. Defined.

Definition first_job (Ps : list pid) (q : list job) : option job :=
  head (filter (concerns Ps) q).

Lemma first_job_app Ps q js j :
  first_job Ps q = Some j → first_job Ps (q ++ js) = Some j.
Proof.
  unfold first_job. rewrite list.filter_app.
  destruct (filter (concerns Ps) q); [done|]. by simpl.
Qed.

Lemma first_job_here Ps q j : concerns Ps j → first_job Ps (j :: q) = Some j.
Proof. intros H. unfold first_job. by rewrite filter_cons_True. Qed.

Lemma first_job_skip Ps q j : ¬ concerns Ps j → first_job Ps (j :: q) = first_job Ps q.
Proof. intros H. unfold first_job. by rewrite filter_cons_False. Qed.

Lemma first_job_elem Ps q j : first_job Ps q = Some j → j ∈ q ∧ concerns Ps j.
Proof.
  unfold first_job. intros H.
  assert (j ∈ filter (concerns Ps) q) as Hin.
  { destruct (filter _ _); simplify_eq/=. by left. }
  apply list_elem_of_filter in Hin. tauto.
Qed.

Lemma first_job_none_app Ps q js :
  (∀ j, j ∈ q → ¬ concerns Ps j) → first_job Ps (q ++ js) = first_job Ps js.
Proof.
  intros H. unfold first_job. rewrite list.filter_app.
  replace (filter (concerns Ps) q) with (@nil job); [done|].
  symmetry. apply elem_of_nil_inv. intros j [? ?]%list_elem_of_filter.
  by eapply H.
Qed.

Lemma first_job_is_Some Ps q j : j ∈ q → concerns Ps j → is_Some (first_job Ps q).
Proof.
  intros Hin Hc. unfold first_job.
  assert (j ∈ filter (concerns Ps) q) as Hf by (apply list_elem_of_filter; done).
  destruct (filter _ _); [by apply elem_of_nil in Hf|]. by eexists.
Qed.

Lemma concerns_singleton P j : concerns [P] j ↔ P ∈ job_caps j.
Proof.
  unfold concerns. rewrite Exists_cons, Exists_nil. tauto.
Qed.

(** ** Links of a governed promise *)
Section links.
Context (P : pid) (srcs : list (pid * reaction)) (timed : bool).
Hypothesis well_behaved : ∀ src r σ,
  (src, r) ∈ srcs → plain σ → is_Some (job_effect P (JReaction r σ)).

Lemma settled_plain s p σ : wf s → settled_as p σ s → plain σ.
Proof.
  unfold settled_as, status. intros Hwf H.
  destruct (heap s !! p) as [[o st]|] eqn:E; simplify_eq/=.
  by eapply wf_settled.
Qed.

Lemma feeds_settled src r s σ τ :
  settled_as src σ s → settled_as P τ s → feeds src r P s.
Proof.
  unfold settled_as at 1, status, feeds. intros Hs HP.
  destruct (heap s !! src) as [[o st]|]; simplify_eq/=. eauto.
Qed.

(** Running a designated job leaves [P] settled. *)
Lemma designated_job_settles s r σ src :
  wf s → governed P srcs timed s → (src, r) ∈ srcs → settled_as src σ s →
  ∃ τ, settled_as P τ (run_actions (job_actions (JReaction r σ)) s).
Proof.
  intros Hwf Hgov Hsrc Hσ.
  destruct (well_behaved _ _ _ Hsrc (settled_plain _ _ _ Hwf Hσ)) as [τ Hτ].
  destruct (gov_cell _ _ _ _ Hgov) as ([l rs|τ'] & HP & Hst).
  - subst l. exists τ. by eapply job_settles.
  - exists τ'. eapply stable_settled; [apply stable_actions|].
    unfold settled_as, status. by rewrite HP.
Qed.

Lemma feeds_step src r s e :
  wf s → governed P srcs timed s → (src, r) ∈ srcs →
  feeds src r P s → feeds src r P (step e s).
Proof.
  intros Hwf Hgov Hsrc Hf. destruct e as [| |p v|p e]; unfold step.
  - destruct (queue s) as [|j q] eqn:Eq; [done|].
    set (s1 := State (heap s) q (timers s) (now s)).
    assert (wf s1) as Hwf1.
    { destruct Hwf as [Hq Hr Ht Hs]. constructor; simpl; [|done..].
      intros j' Hj'. apply Hq. rewrite Eq. by right. }
    assert (governed P srcs timed s1) as Hgov1.
    { destruct Hgov as [HP Hr Hq' Ht]. constructor; simpl; [done..| |done].
      intros j' Hj'. apply Hq'. rewrite Eq. by right. }
    assert (feeds src r P s1 ∨ ∃ σ, j = JReaction r σ ∧ settled_as src σ s1)
      as [Hf1|(σ & -> & Hσ)].
    { unfold feeds, settled_as, status in *. simpl.
      destruct (heap s !! src) as [[o [l rs|σ]]|]; [by left| |done].
      destruct Hf as [Hin|?]; [|by eauto]. rewrite Eq in Hin.
      apply elem_of_cons in Hin as [<-|?]; [right|left]; eauto. }
    + eapply feeds_advances; [apply advances_actions|done].
    + destruct (designated_job_settles s1 r σ src) as [τ Hτ]; try done.
      eapply feeds_settled; [|done].
      eapply stable_settled; [apply stable_actions|done].
  - destruct (queue s) as [|j q] eqn:Eq; [|done].
    destruct (timers s) as [|t ts] eqn:Et; [done|].
    eapply feeds_advances; [apply advances_action|].
    unfold feeds in *. simpl. by rewrite Eq in Hf.
  - case_match; [|done]. eapply feeds_advances; [apply advances_action|done].
  - case_match; [|done]. eapply feeds_advances; [apply advances_action|done].
Qed.

Lemma feeds_exec src r s sched :
  wf s → governed P srcs timed s → (src, r) ∈ srcs →
  feeds src r P s → feeds src r P (exec sched s).
Proof.
  revert s. induction sched as [|e sched IH]; intros s Hwf Hgov Hsrc Hf; [done|].
  simpl. apply IH; [by apply wf_step|by apply governed_step|done|].
  by apply feeds_step.
Qed.

(** [leads τ s]: [P] is settled as [τ], or the first job of the queue
    that concerns [P] will settle it so. *)
Definition leads (τ : settlement) (s : state) : Prop :=
  settled_as P τ s ∨
  (unsettled P s = true ∧
   ∃ j, first_job [P] (queue s) = Some j ∧ job_effect P j = Some τ).

Lemma leads_step τ s e :
  wf s → governed P srcs timed s → leads τ s → leads τ (step e s).
Proof.
  intros Hwf Hgov [Hset|(Hun & j & Hfirst & Heff)].
  { left. eapply stable_settled; [apply stable_step|done]. }
  assert (∀ a, P ∉ action_caps a → leads τ (apply_action a s)) as Hother.
  { intros a Ha. right. split.
    - eapply keeps_unsettled; [by apply keeps_action|done].
    - exists j. split; [|done].
      destruct (appends_action s a) as ([js ->] & _). by apply first_job_app. }
  assert (leads τ s) as Hsame by (right; eauto).
  destruct e as [| |p v|p e]; unfold step.
  - destruct (queue s) as [|j0 q] eqn:Eq; [done|].
    set (s1 := State (heap s) q (timers s) (now s)).
    destruct (decide (concerns [P] j0)) as [Hc|Hc].
    + rewrite first_job_here in Hfirst by done. simplify_eq. left.
      destruct (gov_cell _ _ _ _ Hgov) as ([l rs|τ'] & HP & Hst).
      * subst l. by eapply (job_settles s1).
      * apply unsettled_true in Hun as (?&?&?&?). congruence.
    + rewrite first_job_skip in Hfirst by done. right. split.
      * eapply keeps_unsettled; [|done].
        eapply keeps_trans; [by apply (keeps_same_heap P s s1)|].
        apply keeps_actions, list.Forall_forall. intros a Ha Hcap.
        apply Hc, concerns_singleton. by eapply job_actions_caps.
      * exists j. split; [|done].
        destruct (appends_actions s1 (job_actions j0)) as ([js ->] & _).
        by apply first_job_app.
  - destruct (queue s) as [|j0 q] eqn:Eq; done.
  - case_match eqn:Ex; [|done]. apply Hother. simpl.
    intros HPp%list_elem_of_singleton.
    destruct (gov_cell _ _ _ _ Hgov) as (st & HP & _). unfold external in Ex.
    by rewrite <-HPp, HP in Ex.
  - case_match eqn:Ex; [|done]. apply Hother. simpl.
    intros HPp%list_elem_of_singleton.
    destruct (gov_cell _ _ _ _ Hgov) as (st & HP & _). unfold external in Ex.
    by rewrite <-HPp, HP in Ex.
Qed.

Lemma leads_exec τ s sched :
  wf s → governed P srcs timed s → leads τ s → leads τ (exec sched s).
Proof.
  revert s. induction sched as [|e sched IH]; intros s Hwf Hgov Hl; [done|].
  simpl. apply IH; [by apply wf_step|by apply governed_step|].
  by apply leads_step.
Qed.

(** A pending timed promise still has its timer. *)
Definition timer_feeds (s : state) : Prop :=
  (∃ τ, settled_as P τ s) ∨ (∃ t, t ∈ timers s ∧ t_resolve t = P).

Lemma timer_feeds_step s e :
  governed P srcs timed s → timer_feeds s → timer_feeds (step e s).
Proof.
  intros Hgov [[τ Hτ]|(t & Ht & HtP)].
  { left. exists τ. eapply stable_settled; [apply stable_step|done]. }
  destruct e as [| |p v|p e]; unfold step.
  - destruct (queue s) as [|j0 q] eqn:Eq; [right; eauto|].
    right. exists t. split; [|done].
    by destruct (appends_actions (State (heap s) q (timers s) (now s))
                   (job_actions j0)) as (_ & -> & _).
  - destruct (queue s) as [|j0 q] eqn:Eq; [|right; eauto].
    destruct (timers s) as [|t0 ts] eqn:Et; [by apply elem_of_nil in Ht|].
    set (s1 := State (heap s) [] ts _).
    apply elem_of_cons in Ht as [<-|Ht].
    + left. destruct (gov_cell _ _ _ _ Hgov) as ([l rs|τ'] & HP & Hst).
      * subst l. exists (Fulfilled VUndefined).
        eapply (action_settles s1); [by rewrite HtP|done].
      * exists τ'. eapply stable_settled; [apply stable_action|].
        unfold settled_as, status. simpl. by rewrite HP.
    + right. exists t. split; [|done].
      by destruct (appends_action s1 (AResolve (t_resolve t0) VUndefined))
        as (_ & -> & _).
  - right. exists t. split; [|done]. case_match; [|done].
    by destruct (appends_action s (AResolve p v)) as (_ & -> & _).
  - right. exists t. split; [|done]. case_match; [|done].
    by destruct (appends_action s (AReject p e)) as (_ & -> & _).
Qed.
End links.

(** ** The state after a call of [properRace] *)

Lemma length_heap_alloc s o : length (heap (alloc o s).2) = S (length (heap s)).
Proof. simpl. rewrite length_app. simpl. lia. Qed.

Lemma length_heap_subscribe s p r : length (heap (subscribe p r s)) = length (heap s).
Proof. unfold subscribe. case_cell s p; simpl; by rewrite ?length_insert. Qed.

(** [promise.then(h)] with the derived promise named. *)
Definition then_at (d p : pid) (h : handler) (s : state) : state :=
  subscribe p (Reaction h (Some d)) (alloc Internal s).2.

Lemma length_heap_then_at s d p h : length (heap (then_at d p h s)) = S (length (heap s)).
Proof. unfold then_at. by rewrite length_heap_subscribe, length_heap_alloc. Qed.

Lemma promise_then_eq p h s :
  promise_then p h s = (length (heap s), then_at (length (heap s)) p h s).
Proof. done. Qed.

Definition index_reaction (index : nat) (indexPromise : pid) : reaction :=
  Reaction (HIndex index) (Some indexPromise).

Definition race_reaction (raced derived : pid) : reaction :=
  Reaction (HResolving raced) (Some derived).

Definition resume_reaction (promiseArray : list pid) (ret : pid) : reaction :=
  Reaction (HProperRaceResume promiseArray ret) None.

Definition after_properRace (first second : pid) (s : state) : state :=
  let n := length (heap s) in
  subscribe (n + 3) (resume_reaction [first; second] n)
    (then_at (n + 5) (n + 2) (HResolving (n + 3))
      (then_at (n + 4) (n + 1) (HResolving (n + 3))
        (alloc Internal
          (then_at (n + 2) second (HIndex 1)
            (then_at (n + 1) first (HIndex 0) (alloc Internal s).2))).2)).

Lemma properRace_frame_eq first second s :
  properRace_frame first second s =
    (let n := length (heap s) in Race [first; second] [n + 1; n + 2] (n + 3) n,
     after_properRace first second s).
Proof.
  unfold properRace_frame, Promise_race, await, after_properRace, then_at.
  unfold promise_then, alloc.
  repeat (unfold mbind, mret, M_bind, M_ret, lift; cbn -[subscribe Nat.add]).
  repeat (rewrite ?length_heap_subscribe; cbn -[subscribe Nat.add]; rewrite ?length_app;
          cbn -[subscribe Nat.add]).
  replace (length (heap s) + 1 + 1 + 1 + 1 + 1) with (length (heap s) + 5) by lia.
  replace (length (heap s) + 1 + 1 + 1 + 1) with (length (heap s) + 4) by lia.
  replace (length (heap s) + 1 + 1 + 1) with (length (heap s) + 3) by lia.
  replace (length (heap s) + 1 + 1) with (length (heap s) + 2) by lia.
  reflexivity.
Qed.

Lemma properRace_eq first second s :
  properRace first second s = (length (heap s), after_properRace first second s).
Proof.
  unfold properRace, mbind, M_bind. by rewrite properRace_frame_eq.
Qed.

Lemma governed_fresh P srcs timed s :
  wf s → P = length (heap s) → governed P srcs timed (alloc Internal s).2.
Proof.
  intros [Hq Hr Ht Hs] ->. constructor; simpl.
  - eexists. split; [by apply list_lookup_middle|done].
  - intros ????? Hl Hin Hcap. lookup_simpl.
    assert (length (heap s) < length (heap s)) by eauto. lia.
  - intros j Hj Hcap. destruct (Hq j Hj) as [Hlt _].
    specialize (Hlt _ Hcap). lia.
  - intros t Hin HtP. specialize (Ht t Hin). lia.
Qed.

Lemma feeds_subscribe src r P s :
  src < length (heap s) → feeds src r P (subscribe src r s).
Proof.
  intros [[o st] E]%lookup_lt_is_Some. unfold feeds, subscribe. rewrite E.
  destruct st as [l rs|σ]; simpl.
  - rewrite list_lookup_insert_eq by (by eapply lookup_lt_Some).
    apply elem_of_app. right. by left.
  - rewrite E. left. apply elem_of_app. right. by left.
Qed.

(** The promises of one call of [properRace] that started with [n]
    promises in the heap: [n] is returned, [n + 1] and [n + 2] are the
    index promises, [n + 3] is the promise of [Promise.race]. *)
Definition srcs_raced (n : nat) : list (pid * reaction) :=
  [(n + 1, race_reaction (n + 3) (n + 4)); (n + 2, race_reaction (n + 3) (n + 5))].

Record racing (first second : pid) (n : nat) (s : state) : Prop := {
  rc_wf : wf s;
  rc_index0 : governed (n + 1) [(first, index_reaction 0 (n + 1))] false s;
  rc_index1 : governed (n + 2) [(second, index_reaction 1 (n + 2))] false s;
  rc_raced : governed (n + 3) (srcs_raced n) false s;
  rc_ret : governed n [(n + 3, resume_reaction [first; second] n)] false s;
  rc_feed0 : feeds first (index_reaction 0 (n + 1)) (n + 1) s;
  rc_feed1 : feeds second (index_reaction 1 (n + 2)) (n + 2) s;
  rc_feed_raced0 : feeds (n + 1) (race_reaction (n + 3) (n + 4)) (n + 3) s;
  rc_feed_raced1 : feeds (n + 2) (race_reaction (n + 3) (n + 5)) (n + 3) s;
  rc_feed_ret : feeds (n + 3) (resume_reaction [first; second] n) n s
}.

#[local] Opaque subscribe alloc.

Ltac heap_len :=
  repeat (rewrite length_heap_subscribe || rewrite length_heap_alloc); try lia.

Ltac caps_side :=
  unfold reaction_caps, index_reaction, race_reaction, resume_reaction, srcs_raced;
  simpl; intros; lookup_simpl; heap_len;
  try (exfalso; lia);
  rewrite ?elem_of_cons; auto.

Ltac peel_wf :=
  repeat first
    [ assumption
    | apply wf_alloc
    | apply wf_subscribe; [|by caps_side] ].

Ltac peel_governed :=
  repeat first
    [ assumption
    | apply governed_fresh; [by peel_wf|by heap_len]
    | apply governed_alloc
    | apply governed_subscribe; [|by caps_side] ].

Ltac peel_feeds :=
  repeat first
    [ apply feeds_subscribe; by heap_len
    | eapply feeds_advances; [apply advances_subscribe|]
    | eapply feeds_advances; [apply advances_alloc|] ].

Lemma racing_after_properRace first second s :
  wf s → first < length (heap s) → second < length (heap s) →
  racing first second (length (heap s)) (after_properRace first second s).
Proof.
  intros Hwf Hfirst Hsecond. unfold after_properRace, then_at.
  constructor.
  - peel_wf.
  - peel_governed.
  - peel_governed.
  - peel_governed.
  - peel_governed.
  - peel_feeds.
  - peel_feeds.
  - peel_feeds.
  - peel_feeds.
  - peel_feeds.
Qed.

#[local] Transparent subscribe alloc.

(** ** What the reactions of [properRace] do *)

Definition index_result (k : nat) (σ : settlement) : settlement :=
  match σ with
  | Fulfilled _ => Fulfilled (VNumber (Z.of_nat k))
  | Rejected e => Rejected e
  end.

Definition resume_result (promiseArray : list pid) (τ : settlement) : settlement :=
  match τ with
  | Fulfilled firstFinishedIndex => Fulfilled (properRace_resume promiseArray firstFinishedIndex)
  | Rejected e => Rejected e
  end.

Lemma job_effect_index k I σ :
  job_effect I (JReaction (index_reaction k I) σ) = Some (index_result k σ).
Proof.
  unfold job_effect. destruct σ; simpl.
  - rewrite filter_cons_True by (simpl; by left). by rewrite filter_nil.
  - rewrite filter_cons_True by (simpl; by left). by rewrite filter_nil.
Qed.

Lemma job_effect_race RC D σ :
  D ≠ RC → plain σ → job_effect RC (JReaction (race_reaction RC D) σ) = Some σ.
Proof.
  intros HD Hσ. unfold job_effect. destruct σ as [v|e]; simpl in *.
  - rewrite filter_cons_True by (simpl; by left).
    rewrite filter_cons_False by (simpl; by intros ->%list_elem_of_singleton).
    rewrite filter_nil. simpl. by rewrite Hσ.
  - rewrite filter_cons_True by (simpl; by left).
    rewrite filter_cons_False by (simpl; by intros ->%list_elem_of_singleton).
    by rewrite filter_nil.
Qed.

Lemma job_effect_resume arr R τ :
  job_effect R (JReaction (resume_reaction arr R) τ) = Some (resume_result arr τ).
Proof.
  unfold job_effect. destruct τ; simpl.
  - rewrite filter_cons_True by (simpl; by left). by rewrite filter_nil.
  - rewrite filter_cons_True by (simpl; by left). by rewrite filter_nil.
Qed.

Lemma index_result_plain k σ : plain (index_result k σ).
Proof. by destruct σ. Qed.

Lemma well_behaved_index (X : pid) k I (src : pid) r σ :
  (src, r) ∈ [(X, index_reaction k I)] → plain σ →
  is_Some (job_effect I (JReaction r σ)).
Proof. intros Hin _. lookup_simpl. rewrite job_effect_index. by eexists. Qed.

Lemma well_behaved_raced n (src : pid) r σ :
  (src, r) ∈ srcs_raced n → plain σ →
  is_Some (job_effect (n + 3) (JReaction r σ)).
Proof.
  intros Hin Hσ. unfold srcs_raced in Hin. lookup_simpl.
  - rewrite job_effect_race by (done || lia). by eexists.
  - rewrite job_effect_race by (done || lia). by eexists.
Qed.

Lemma well_behaved_ret arr n (src : pid) r σ :
  (src, r) ∈ [(n + 3, resume_reaction arr n)] → plain σ →
  is_Some (job_effect n (JReaction r σ)).
Proof. intros Hin _. lookup_simpl. rewrite job_effect_resume. by eexists. Qed.

Lemma racing_step first second n s e :
  racing first second n s → racing first second n (step e s).
Proof.
  intros [Hwf H0 H1 HRC HR F0 F1 FR0 FR1 FR].
  constructor.
  - by apply wf_step.
  - apply governed_step; [apply well_behaved_index|done..].
  - apply governed_step; [apply well_behaved_index|done..].
  - apply governed_step; [apply well_behaved_raced|done..].
  - apply governed_step; [apply well_behaved_ret|done..].
  - eapply feeds_step; [apply well_behaved_index|done..|by left|done].
  - eapply feeds_step; [apply well_behaved_index|done..|by left|done].
  - eapply feeds_step; [apply well_behaved_raced|done..|by left|done].
  - eapply feeds_step; [apply well_behaved_raced|done..| |done].
    unfold srcs_raced. right. by left.
  - eapply feeds_step; [apply well_behaved_ret|done..|by left|done].
Qed.

Lemma racing_exec first second n s sched :
  racing first second n s → racing first second n (exec sched s).
Proof.
  revert s. induction sched as [|e sched IH]; intros s H; [done|].
  simpl. by apply IH, racing_step.
Qed.

(** ** Safety: every settlement of the race comes from an input *)

Lemma settled_as_inj p σ σ' s : settled_as p σ s → settled_as p σ' s → σ = σ'.
Proof. unfold settled_as. congruence. Qed.

Lemma settled_not_unsettled p σ s : settled_as p σ s → unsettled p s = true → False.
Proof.
  unfold settled_as, status. intros H (o & l & rs & E)%unsettled_true.
  rewrite E in H. done.
Qed.

Lemma governed_settled P srcs timed s τ :
  governed P srcs timed s → settled_as P τ s → justified P srcs timed s τ.
Proof.
  intros [(st & HP & Hst) _ _ _]. unfold settled_as, status. rewrite HP.
  intros [= ->]. done.
Qed.

Lemma governed_unsettled P srcs timed s :
  governed P srcs timed s → unsettled P s = true →
  ∃ rs, heap s !! P = Some (Cell Internal (Pending false rs)).
Proof.
  intros [(st & HP & Hst) _ _ _] (o & l & rs & E)%unsettled_true.
  rewrite HP in E. simplify_eq. eauto.
Qed.

Lemma governed_cases P srcs timed s :
  governed P srcs timed s → unsettled P s = true ∨ ∃ τ, settled_as P τ s.
Proof.
  intros [([l rs|τ] & HP & Hst) _ _ _].
  - left. apply unsettled_true. eauto.
  - right. exists τ. unfold settled_as, status. by rewrite HP.
Qed.

Section race_facts.
Context (first second : pid) (n : nat) (s : state).
Hypothesis Hrace : racing first second n s.

Lemma index0_settled τ :
  settled_as (n + 1) τ s → ∃ σ, settled_as first σ s ∧ τ = index_result 0 σ.
Proof.
  intros Hτ. destruct (governed_settled _ _ _ _ _ (rc_index0 _ _ _ _ Hrace) Hτ)
    as [(j & (src & r & σ & -> & Hin & Hσ) & Heff)|[? _]]; [|done].
  lookup_simpl. rewrite job_effect_index in Heff. simplify_eq. eauto.
Qed.

Lemma index1_settled τ :
  settled_as (n + 2) τ s → ∃ σ, settled_as second σ s ∧ τ = index_result 1 σ.
Proof.
  intros Hτ. destruct (governed_settled _ _ _ _ _ (rc_index1 _ _ _ _ Hrace) Hτ)
    as [(j & (src & r & σ & -> & Hin & Hσ) & Heff)|[? _]]; [|done].
  lookup_simpl. rewrite job_effect_index in Heff. simplify_eq. eauto.
Qed.

Lemma raced_settled τ :
  settled_as (n + 3) τ s → settled_as (n + 1) τ s ∨ settled_as (n + 2) τ s.
Proof.
  intros Hτ. destruct (governed_settled _ _ _ _ _ (rc_raced _ _ _ _ Hrace) Hτ)
    as [(j & (src & r & σ & -> & Hin & Hσ) & Heff)|[? _]]; [|done].
  pose proof (settled_plain _ _ _ (rc_wf _ _ _ _ Hrace) Hσ) as Hp.
  unfold srcs_raced in Hin. lookup_simpl.
  - rewrite job_effect_race in Heff by (done || lia). simplify_eq. by left.
  - rewrite job_effect_race in Heff by (done || lia). simplify_eq. by right.
Qed.

Lemma ret_settled ρ :
  settled_as n ρ s →
  ∃ τ, settled_as (n + 3) τ s ∧ ρ = resume_result [first; second] τ.
Proof.
  intros Hρ. destruct (governed_settled _ _ _ _ _ (rc_ret _ _ _ _ Hrace) Hρ)
    as [(j & (src & r & σ & -> & Hin & Hσ) & Heff)|[? _]]; [|done].
  lookup_simpl. rewrite job_effect_resume in Heff. simplify_eq. eauto.
Qed.

(** The value of [Promise.race(indexPromises)] is the index of an input
    that fulfilled, or the reason of an input that rejected. *)
Lemma raced_from_input τ :
  settled_as (n + 3) τ s →
  ∃ k X σ, [first; second] !! k = Some X ∧ settled_as X σ s ∧ τ = index_result k σ.
Proof.
  intros [H|H]%raced_settled.
  - apply index0_settled in H as (σ & ? & ?). by exists 0, first, σ.
  - apply index1_settled in H as (σ & ? & ?). by exists 1, second, σ.
Qed.

Lemma resume_index_result k X σ :
  [first; second] !! k = Some X →
  resume_result [first; second] (index_result k σ) =
    match σ with
    | Fulfilled _ => Fulfilled (VObject [("promise"%string, VPromise X)])
    | Rejected e => Rejected e
    end.
Proof.
  intros HX. destruct σ; [|done]. simpl. unfold properRace_resume, array_get.
  rewrite decide_True by lia. by rewrite Nat2Z.id, HX.
Qed.

Lemma ret_from_input ρ :
  settled_as n ρ s →
  ∃ k X σ, [first; second] !! k = Some X ∧ settled_as X σ s ∧
    settled_as (n + 3) (index_result k σ) s ∧
    ρ = match σ with
        | Fulfilled _ => Fulfilled (VObject [("promise"%string, VPromise X)])
        | Rejected e => Rejected e
        end.
Proof.
  intros (τ & Hτ & ->)%ret_settled.
  destruct (raced_from_input _ Hτ) as (k & X & σ & HX & Hσ & ->).
  exists k, X, σ. by rewrite (resume_index_result _ _ _ HX).
Qed.

(** Liveness at rest: with no job left, whatever could be passed on has
    been passed on. *)
Lemma feeds_quiet src r P σ :
  feeds src r P s → queue s = [] → settled_as src σ s → ∃ τ, settled_as P τ s.
Proof.
  intros Hf Hq Hσ. unfold feeds in Hf. unfold settled_as, status in Hσ.
  destruct (heap s !! src) as [[o st]|]; simplify_eq/=.
  destruct Hf as [Hin|?]; [|done]. rewrite Hq in Hin. by apply elem_of_nil in Hin.
Qed.

Lemma quiet_ret k X σ :
  queue s = [] → [first; second] !! k = Some X → settled_as X σ s →
  ∃ ρ, settled_as n ρ s.
Proof.
  intros Hq HX Hσ.
  assert (∃ τ, settled_as (n + 3) τ s) as [τ Hτ].
  { destruct k as [|[|k]]; simplify_eq/=.
    - destruct (feeds_quiet _ _ _ _ (rc_feed0 _ _ _ _ Hrace) Hq Hσ) as [τ0 H0].
      eapply feeds_quiet; [apply (rc_feed_raced0 _ _ _ _ Hrace)|done..].
    - destruct (feeds_quiet _ _ _ _ (rc_feed1 _ _ _ _ Hrace) Hq Hσ) as [τ1 H1].
      eapply feeds_quiet; [apply (rc_feed_raced1 _ _ _ _ Hrace)|done..]. }
  eapply feeds_quiet; [apply (rc_feed_ret _ _ _ _ Hrace)|done..].
Qed.
End race_facts.

(** ** Order: who wins the race *)

Lemma apply_settling a P τ s :
  settling a = Some (P, τ) → unresolved P s = true →
  apply_action a s = settle P τ s.
Proof.
  intros Ha Hun. destruct a as [p v|p e|p v|p e|q h]; simplify_eq/=.
  - destruct (is_promise v) eqn:Ev; simplify_eq.
    by rewrite Hun, resolve_core_plain.
  - by rewrite Hun.
Qed.

Lemma index_job_actions k I σ :
  ∃ a, job_actions (JReaction (index_reaction k I) σ) = [a] ∧
       settling a = Some (I, index_result k σ).
Proof. destruct σ; eexists; (split; [done|done]). Qed.

Section winning.
Context (first second : pid) (n : nat).

(** Both index promises are pending and the first job of the queue that
    concerns one of them concerns the one of input [k]. *)
Definition lead3 (k : nat) (s : state) : Prop :=
  unsettled (n + 1) s = true ∧ unsettled (n + 2) s = true ∧
  ∃ j, first_job [n + 1; n + 2] (queue s) = Some j ∧ (n + 1 + k) ∈ job_caps j.

Definition winning (k : nat) (σ : settlement) (s : state) : Prop :=
  leads (n + 3) (index_result k σ) s ∨
  (lead3 k s ∧ ∃ X, [first; second] !! k = Some X ∧ settled_as X σ s).

Lemma lead3_advance k s s' :
  lead3 k s → keeps (n + 1) s s' → keeps (n + 2) s s' → appends s s' →
  lead3 k s'.
Proof.
  intros (H0 & H1 & j & Hfirst & Hcap) K0 K1 ([js Hq] & _).
  repeat split; eauto using keeps_unsettled.
  exists j. split; [|done]. rewrite Hq. by apply first_job_app.
Qed.

Lemma raced_unsettled s :
  racing first second n s →
  unsettled (n + 1) s = true → unsettled (n + 2) s = true →
  unsettled (n + 3) s = true.
Proof.
  intros Hrace H0 H1.
  destruct (governed_cases _ _ _ _ (rc_raced _ _ _ _ Hrace)) as [?|[τ Hτ]]; [done|].
  apply (raced_settled _ _ _ _ Hrace) in Hτ as [Hτ|Hτ];
    exfalso; eauto using settled_not_unsettled.
Qed.

(** The index job of input [k] runs while both index promises are
    pending: from then on the race promise is led by index [k]. *)
Lemma index_job_leads k I D σ q s :
  racing first second n s →
  (k = 0 ∧ I = n + 1 ∧ D = n + 4) ∨ (k = 1 ∧ I = n + 2 ∧ D = n + 5) →
  queue s = JReaction (index_reaction k I) σ :: q →
  unsettled (n + 1) s = true → unsettled (n + 2) s = true →
  leads (n + 3) (index_result k σ) (step EJob s).
Proof.
  intros Hrace Hk Hq H0 H1.
  pose proof (raced_unsettled _ Hrace H0 H1) as HRC.
  assert (∃ rs, heap s !! I = Some (Cell Internal (Pending false rs)) ∧
                race_reaction (n + 3) D ∈ rs) as (rs & HIcell & Hrr).
  { destruct Hrace as [_ G0 G1 _ _ _ _ F0 F1 _].
    destruct Hk as [(-> & -> & ->)|(-> & -> & ->)].
    - destruct (governed_unsettled _ _ _ _ G0 H0) as [rs Hrs].
      exists rs. split; [done|]. unfold feeds in F0. by rewrite Hrs in F0.
    - destruct (governed_unsettled _ _ _ _ G1 H1) as [rs Hrs].
      exists rs. split; [done|]. unfold feeds in F1. by rewrite Hrs in F1. }
  assert (I ≠ n + 3 ∧ D ≠ n + 3) as [HI3 HD3] by lia.
  unfold step. rewrite Hq.
  destruct (index_job_actions k I σ) as (a & -> & Ha).
  set (s1 := State (heap s) q (timers s) (now s)). simpl.
  rewrite (apply_settling a _ _ s1 Ha) by (apply unresolved_true; eauto).
  rewrite (settle_pending s1 _ _ _ _ _ HIcell). simpl.
  right. split.
  { apply unsettled_true in HRC as (o & l & rs' & E). apply unsettled_true.
    exists o, l, rs'. simpl. by rewrite list_lookup_insert_ne. }
  assert (∀ j, j ∈ q → ¬ concerns [n + 3] j) as Hnone.
  { intros j Hj Hc%concerns_singleton.
    destruct (gov_queue _ _ _ _ (rc_raced _ _ _ _ Hrace) j) as
      (src & r & σ' & -> & Hin & Hσ'); [rewrite Hq; by right|done|].
    unfold srcs_raced in Hin. lookup_simpl; eauto using settled_not_unsettled. }
  cbn [queue]. rewrite first_job_none_app by done.
  set (τ := index_result k σ).
  destruct (first_job_is_Some [n + 3] ((λ r, JReaction r τ) <$> rs)
              (JReaction (race_reaction (n + 3) D) τ)) as [j Hj].
  { apply list_elem_of_fmap. eauto. }
  { apply concerns_singleton. simpl. by left. }
  exists j. split; [done|].
  apply first_job_elem in Hj as [Hin Hc%concerns_singleton].
  apply list_elem_of_fmap in Hin as (r & -> & Hr).
  pose proof (gov_reactions _ _ _ _ (rc_raced _ _ _ _ Hrace) _ _ _ _ _ HIcell Hr Hc)
    as Hsrc.
  unfold srcs_raced in Hsrc.
  assert (r = race_reaction (n + 3) D) as ->.
  { destruct Hk as [(-> & -> & ->)|(-> & -> & ->)];
      lookup_simpl; try done; exfalso; lia. }
  apply job_effect_race; [done|apply index_result_plain].
Qed.

Lemma winning_step k σ s e :
  racing first second n s → winning k σ s → winning k σ (step e s).
Proof.
  intros Hrace [Hl|(Hlead & X & HX & Hσ)].
  { left. eapply leads_step; [|apply (rc_raced _ _ _ _ Hrace)|done].
    apply (rc_wf _ _ _ _ Hrace). }
  assert (k < 2) as Hk by (apply lookup_lt_Some in HX; simpl in HX; lia).
  assert (∀ a p, c_owner <$> heap s !! p = Some External →
             action_caps a = [p] → winning k σ (apply_action a s)) as Hext.
  { intros a p Hp Ha. right. split; [|exists X; split; [done|]].
    - assert (p ≠ n + 1 ∧ p ≠ n + 2) as [??].
      { destruct Hrace as [_ [(?&E0&_) _ _ _] [(?&E1&_) _ _ _] _ _ _ _ _ _ _].
        split; intros ->; [rewrite E0 in Hp|rewrite E1 in Hp]; done. }
      eapply lead3_advance; [done|..|apply appends_action];
        apply keeps_action; rewrite Ha; by intros ?%list_elem_of_singleton.
    - eapply stable_settled; [apply stable_action|done]. }
  destruct e as [| |p v|p e].
  - destruct Hlead as (H0 & H1 & j & Hfirst & Hcap).
    destruct (queue s) as [|j0 q] eqn:Eq; [done|].
    destruct (decide (concerns [n + 1; n + 2] j0)) as [Hc|Hc].
    + rewrite first_job_here in Hfirst by done. simplify_eq. left.
      assert (∃ I D, ((k = 0 ∧ I = n + 1 ∧ D = n + 4) ∨
                      (k = 1 ∧ I = n + 2 ∧ D = n + 5)) ∧
                     j = JReaction (index_reaction k I) σ) as (I & D & HID & ->).
      { pose proof Hrace as [_ G0 G1 _ _ _ _ _ _ _].
        destruct k as [|[|]]; [| |lia]; simplify_eq/=.
        - rewrite Nat.add_0_r in *. exists (n + 1), (n + 4). split; [by left|].
          destruct (gov_queue _ _ _ _ G0 j) as (src & r & σ' & -> & Hin & Hσ');
            [rewrite Eq; by left|done|].
          lookup_simpl. by rewrite (settled_as_inj _ _ _ _ Hσ Hσ').
        - replace (n + 1 + 1) with (n + 2) in * by lia.
          exists (n + 2), (n + 5). split; [by right|].
          destruct (gov_queue _ _ _ _ G1 j) as (src & r & σ' & -> & Hin & Hσ');
            [rewrite Eq; by left|done|].
          lookup_simpl. by rewrite (settled_as_inj _ _ _ _ Hσ Hσ'). }
      by eapply index_job_leads.
    + rewrite first_job_skip in Hfirst by done. right.
      set (s1 := State (heap s) q (timers s) (now s)).
      assert (lead3 k s1) as Hlead1.
      { repeat split; try done. by exists j. }
      split; [|exists X; split; [done|]].
      * unfold step. rewrite Eq.
        eapply lead3_advance; [done|..|apply appends_actions];
          apply keeps_actions, list.Forall_forall; intros a Ha Hcap';
          apply Hc; unfold concerns; rewrite !Exists_cons;
          eauto using job_actions_caps.
      * eapply stable_settled; [apply stable_step|done].
  - unfold step. destruct Hlead as (H0 & H1 & j & Hfirst & Hcap).
    destruct (queue s) as [|j0 q] eqn:Eq; [done|].
    right. split; [|by eauto]. repeat split; try done. exists j. by rewrite Eq.
  - unfold step. case_match eqn:Ex; [|right; eauto].
    eapply Hext; [|done]. unfold external in Ex.
    by destruct (heap s !! p) as [[[] ?]|].
  - unfold step. case_match eqn:Ex; [|right; eauto].
    eapply Hext; [|done]. unfold external in Ex.
    by destruct (heap s !! p) as [[[] ?]|].
Qed.

Lemma winning_exec k σ s sched :
  racing first second n s → winning k σ s → winning k σ (exec sched s).
Proof.
  revert s. induction sched as [|e sched IH]; intros s Hrace Hw; [done|].
  simpl. apply IH; [by apply racing_step|by apply winning_step].
Qed.

(** At rest, the winner has settled the race promise. *)
Lemma winning_quiet k σ s :
  winning k σ s → queue s = [] → settled_as (n + 3) (index_result k σ) s.
Proof.
  intros [[?|(_ & j & Hj & _)]|((_ & _ & j & Hj & _) & _)] Hq; [done|..];
    by rewrite Hq in Hj.
Qed.
End winning.

Section winning_start.
Context (first second : pid) (n : nat) (s : state).
Hypothesis Hrace : racing first second n s.

(** The input [X] at index [k] is settled and the other input [Y] is
    still pending: index [k] wins. *)
Lemma winning_start_gen k X Y I J D σ :
  (k = 0 ∧ X = first ∧ Y = second ∧ I = n + 1 ∧ J = n + 2 ∧ D = n + 4) ∨
  (k = 1 ∧ X = second ∧ Y = first ∧ I = n + 2 ∧ J = n + 1 ∧ D = n + 5) →
  settled_as X σ s → unsettled Y s = true → winning first second n k σ s.
Proof.
  intros Hk Hσ HY.
  assert ([first; second] !! k = Some X) as HX.
  { by destruct Hk as [(->&->&_)|(->&->&_)]. }
  assert (governed I [(X, index_reaction k I)] false s) as GI.
  { destruct Hrace. by destruct Hk as [(->&->&->&->&->&->)|(->&->&->&->&->&->)]. }
  assert (feeds X (index_reaction k I) I s) as FI.
  { destruct Hrace. by destruct Hk as [(->&->&->&->&->&->)|(->&->&->&->&->&->)]. }
  assert (feeds I (race_reaction (n + 3) D) (n + 3) s) as FR.
  { destruct Hrace. by destruct Hk as [(->&->&->&->&->&->)|(->&->&->&->&->&->)]. }
  assert (∀ τ, settled_as I τ s → τ = index_result k σ) as HIτ.
  { intros τ Hτ. destruct Hk as [(->&->&->&->&->&->)|(->&->&->&->&->&->)].
    - apply (index0_settled _ _ _ _ Hrace) in Hτ as (σ' & Hσ' & ->).
      by rewrite (settled_as_inj _ _ _ _ Hσ Hσ').
    - apply (index1_settled _ _ _ _ Hrace) in Hτ as (σ' & Hσ' & ->).
      by rewrite (settled_as_inj _ _ _ _ Hσ Hσ'). }
  assert (∀ τ, settled_as J τ s → False) as HJ.
  { intros τ Hτ. destruct Hk as [(->&->&->&->&->&->)|(->&->&->&->&->&->)].
    - apply (index1_settled _ _ _ _ Hrace) in Hτ as (σ' & Hσ' & _).
      eauto using settled_not_unsettled.
    - apply (index0_settled _ _ _ _ Hrace) in Hτ as (σ' & Hσ' & _).
      eauto using settled_not_unsettled. }
  assert (∀ j, j ∈ queue s → J ∈ job_caps j → False) as HJq.
  { intros j Hj Hc. destruct Hrace as [_ G0 G1 _ _ _ _ _ _ _].
    destruct Hk as [(->&->&->&->&->&->)|(->&->&->&->&->&->)].
    - destruct (gov_queue _ _ _ _ G1 j Hj Hc) as (src & r & σ' & -> & Hin & Hσ').
      lookup_simpl. eauto using settled_not_unsettled.
    - destruct (gov_queue _ _ _ _ G0 j Hj Hc) as (src & r & σ' & -> & Hin & Hσ').
      lookup_simpl. eauto using settled_not_unsettled. }
  assert (unsettled J s = true) as HJun.
  { destruct Hrace as [_ G0 G1 _ _ _ _ _ _ _].
    destruct Hk as [(->&->&->&->&->&->)|(->&->&->&->&->&->)].
    - destruct (governed_cases _ _ _ _ G1) as [?|[τ Hτ]]; [done|]. by destruct (HJ τ).
    - destruct (governed_cases _ _ _ _ G0) as [?|[τ Hτ]]; [done|]. by destruct (HJ τ). }
  assert (∀ src r σ', (src, r) ∈ srcs_raced n → settled_as src σ' s →
            r = race_reaction (n + 3) D ∧ σ' = index_result k σ) as Hsrc.
  { intros src r σ' Hin Hσ'. unfold srcs_raced in Hin.
    destruct Hk as [(->&->&->&->&->&->)|(->&->&->&->&->&->)]; lookup_simpl;
      first [by destruct (HJ σ')|split; [done|by apply HIτ]]. }
  assert (D ≠ n + 3) as HD by lia.
  destruct (governed_cases _ _ _ _ (rc_raced _ _ _ _ Hrace)) as [HRC|[τ Hτ]].
  2:{ left. left. apply (raced_settled _ _ _ _ Hrace) in Hτ as Hτ'.
      assert (settled_as I τ s) as HI.
      { destruct Hk as [(->&->&->&->&->&->)|(->&->&->&->&->&->)];
          destruct Hτ' as [?|?]; first [done|by destruct (HJ τ)]. }
      by rewrite <-(HIτ _ HI). }
  destruct (governed_cases _ _ _ _ GI) as [HIun|[τ Hτ]].
  - right. split; [|by eauto].
    assert (JReaction (index_reaction k I) σ ∈ queue s) as Hin.
    { unfold feeds in FI. unfold settled_as, status in Hσ.
      destruct (heap s !! X) as [[o st]|]; simplify_eq/=.
      destruct FI as [?|[τ Hτ]]; [done|]. exfalso. eauto using settled_not_unsettled. }
    destruct (first_job_is_Some [n + 1; n + 2] _ _ Hin) as [j Hj].
    { unfold concerns. rewrite !Exists_cons.
      destruct Hk as [(->&->&->&->&->&->)|(->&->&->&->&->&->)];
        [left|right; left]; by left. }
    assert (unsettled (n + 1) s = true ∧ unsettled (n + 2) s = true) as [??].
    { by destruct Hk as [(->&->&->&->&->&->)|(->&->&->&->&->&->)]. }
    repeat split; try done. exists j. split; [done|].
    apply first_job_elem in Hj as [Hjq Hc]. unfold concerns in Hc.
    rewrite !Exists_cons, Exists_nil in Hc.
    destruct Hk as [(->&->&->&->&->&->)|(->&->&->&->&->&->)].
    + rewrite Nat.add_0_r. destruct Hc as [?|[?|[]]]; [done|]. by destruct (HJq j).
    + replace (n + 1 + 1) with (n + 2) by lia.
      destruct Hc as [?|[?|[]]]; [|done]. by destruct (HJq j).
  - left. right. split; [done|]. pose proof (HIτ _ Hτ) as ->.
    assert (JReaction (race_reaction (n + 3) D) (index_result k σ) ∈ queue s) as Hin.
    { unfold feeds in FR. unfold settled_as, status in Hτ.
      destruct (heap s !! I) as [[o st]|]; simplify_eq/=.
      destruct FR as [?|[τ Hτ]]; [done|]. exfalso. eauto using settled_not_unsettled. }
    destruct (first_job_is_Some [n + 3] _ _ Hin) as [j Hj].
    { apply concerns_singleton. simpl. by left. }
    exists j. split; [done|].
    apply first_job_elem in Hj as [Hjq Hc%concerns_singleton].
    destruct (gov_queue _ _ _ _ (rc_raced _ _ _ _ Hrace) j Hjq Hc)
      as (src & r & σ' & -> & Hin' & Hσ').
    destruct (Hsrc _ _ _ Hin' Hσ') as [-> ->].
    apply job_effect_race; [done|apply index_result_plain].
Qed.

Lemma winning_start k X Y σ :
  [first; second] !! k = Some X → [first; second] !! (1 - k) = Some Y →
  settled_as X σ s → unsettled Y s = true → winning first second n k σ s.
Proof.
  destruct k as [|[|k]]; simpl; intros HX HY; try done;
    injection HX as <-; injection HY as <-.
  - apply (winning_start_gen 0 _ _ (n + 1) (n + 2) (n + 4)). left. done.
  - apply (winning_start_gen 1 _ _ (n + 2) (n + 1) (n + 5)). right. done.
Qed.
End winning_start.

(** ** A race of two promises that are already settled *)

Lemma unsettled_fresh s o P :
  P = length (heap s) → unsettled P (alloc o s).2 = true.
Proof.
  intros ->. apply unsettled_true. exists o, false, []. simpl.
  by apply list_lookup_middle.
Qed.

Lemma queue_alloc s o : queue (alloc o s).2 = queue s.
Proof. done. Qed.

Lemma queue_subscribe_unsettled s p r :
  unsettled p s = true → queue (subscribe p r s) = queue s.
Proof.
  intros (o & l & rs & E)%unsettled_true. unfold subscribe. by rewrite E.
Qed.

Lemma queue_subscribe_settled s p r σ :
  settled_as p σ s → queue (subscribe p r s) = queue s ++ [JReaction r σ].
Proof.
  unfold settled_as, status, subscribe. intros H.
  destruct (heap s !! p) as [[o st]|]; simplify_eq/=. done.
Qed.

#[local] Opaque subscribe alloc.

Ltac peel_unsettled :=
  repeat first
    [ apply unsettled_fresh; by heap_len
    | eapply keeps_unsettled; [apply keeps_subscribe|]
    | eapply keeps_unsettled; [apply keeps_alloc|] ].

Ltac peel_settled :=
  repeat first
    [ eassumption
    | eapply stable_settled; [apply stable_subscribe|]
    | eapply stable_settled; [apply stable_alloc|] ].

Lemma after_properRace_unsettled first second s :
  let n := length (heap s) in
  unsettled (n + 1) (after_properRace first second s) = true ∧
  unsettled (n + 2) (after_properRace first second s) = true.
Proof. unfold after_properRace, then_at. split; peel_unsettled. Qed.

Lemma after_properRace_queue first second s σ1 σ2 :
  settled_as first σ1 s → settled_as second σ2 s →
  let n := length (heap s) in
  queue (after_properRace first second s) =
    queue s ++ [JReaction (index_reaction 0 (n + 1)) σ1;
                JReaction (index_reaction 1 (n + 2)) σ2].
Proof.
  intros H1 H2. unfold after_properRace, then_at. simpl.
  rewrite queue_subscribe_unsettled by peel_unsettled.
  rewrite queue_subscribe_unsettled by peel_unsettled. rewrite queue_alloc.
  rewrite queue_subscribe_unsettled by peel_unsettled. rewrite !queue_alloc.
  rewrite (queue_subscribe_settled _ _ _ σ2) by peel_settled. rewrite queue_alloc.
  rewrite (queue_subscribe_settled _ _ _ σ1) by peel_settled. rewrite !queue_alloc.
  by rewrite <-app_assoc.
Qed.

#[local] Transparent subscribe alloc.

Lemma winning_settled_inputs first second s σ1 σ2 :
  wf s → settled_as first σ1 s → settled_as second σ2 s →
  winning first second (length (heap s)) 0 σ1 (after_properRace first second s).
Proof.
  intros Hwf H1 H2. right.
  destruct (after_properRace_unsettled first second s) as [U1 U2].
  split.
  - repeat split; try done.
    exists (JReaction (index_reaction 0 (length (heap s) + 1)) σ1).
    rewrite (after_properRace_queue _ _ _ _ _ H1 H2). split.
    + rewrite first_job_none_app.
      * apply first_job_here. unfold concerns. rewrite Exists_cons. left. by left.
      * intros j Hj Hc. destruct (wf_queue _ Hwf j Hj) as [Hlt _].
        unfold concerns in Hc. rewrite !Exists_cons, Exists_nil in Hc.
        destruct Hc as [Hc|[Hc|[]]]; apply Hlt in Hc; lia.
    + rewrite Nat.add_0_r. by left.
  - exists first. split; [done|].
    eapply stable_settled; [|done]. unfold after_properRace, then_at.
    repeat first [apply stable_refl
                 |eapply stable_trans; [|apply stable_subscribe]
                 |eapply stable_trans; [|apply stable_alloc]].
Qed.

(** ** The job queue drains *)

Definition handler_weight (h : handler) : nat :=
  match h with
  | HDelayWithResultResume result _ => if is_promise result then 3 else 1
  | _ => 1
  end.

Definition reaction_weight (r : reaction) : nat := handler_weight (r_handler r).

Definition job_weight (j : job) : nat :=
  match j with
  | JReaction r _ => reaction_weight r
  | JResolveThenable _ _ => 2
  end.

Definition cell_weight (c : cell) : nat :=
  match c_state c with
  | Pending _ rs => sum_list_with reaction_weight rs
  | Settled _ => 0
  end.

(** The work that is left: every job and every registered reaction. *)
Definition potential (s : state) : nat :=
  sum_list_with job_weight (queue s) + sum_list_with cell_weight (heap s).

Definition action_cost (a : action) : nat :=
  match a with
  | AResolve _ v | AAdoptResolve _ v => if is_promise v then 2 else 0
  | AReject _ _ | AAdoptReject _ _ => 0
  | AThen _ h => handler_weight h
  end.

Lemma sum_list_with_insert {A} (f : A → nat) (l : list A) i x y :
  l !! i = Some x →
  sum_list_with f (<[i:=y]> l) + f x = sum_list_with f l + f y.
Proof.
  revert i. induction l as [|z l IH]; intros [|i] H; simplify_eq/=; [lia|].
  specialize (IH _ H). lia.
Qed.

Lemma sum_list_with_jobs σ rs :
  sum_list_with job_weight ((λ r, JReaction r σ) <$> rs) =
  sum_list_with reaction_weight rs.
Proof. induction rs as [|r rs IH]; [done|]. rewrite fmap_cons. simpl. by rewrite IH. Qed.

Lemma potential_settle s p σ : potential (settle p σ s) = potential s.
Proof.
  unfold settle. case_cell s p; try done. unfold potential. simpl.
  rewrite sum_list_with_app, sum_list_with_jobs.
  pose proof (sum_list_with_insert cell_weight _ _ _
    (Cell c_owner0 (Settled σ)) E) as H.
  unfold cell_weight at 2 4 in H. simpl in H. lia.
Qed.

Lemma potential_lock s p : potential (lock p s) = potential s.
Proof.
  unfold lock. case_cell s p; try done. unfold potential. simpl.
  pose proof (sum_list_with_insert cell_weight _ _ _
    (Cell c_owner0 (Pending true reactions)) E) as H.
  unfold cell_weight at 2 4 in H. simpl in H. lia.
Qed.

Lemma potential_enqueue s js :
  potential (enqueue js s) = potential s + sum_list_with job_weight js.
Proof. unfold potential. simpl. rewrite sum_list_with_app. lia. Qed.

Lemma potential_alloc s o : potential (alloc o s).2 = potential s.
Proof. unfold potential. simpl. rewrite sum_list_with_app. simpl. lia. Qed.

Lemma potential_subscribe s p r :
  potential (subscribe p r s) ≤ potential s + reaction_weight r.
Proof.
  unfold subscribe. case_cell s p; [| |lia].
  - unfold potential. simpl.
    pose proof (sum_list_with_insert cell_weight _ _ _
      (Cell c_owner0 (Pending locked (reactions ++ [r]))) E) as H.
    unfold cell_weight at 2 4 in H. simpl in H.
    rewrite sum_list_with_app in H. simpl in H. lia.
  - rewrite potential_enqueue. simpl. lia.
Qed.

Lemma potential_resolve_core s p v :
  potential (resolve_core p v s) ≤ potential s + (if is_promise v then 2 else 0).
Proof.
  unfold resolve_core. destruct v; simpl; rewrite ?potential_settle; try lia.
  case_decide; [rewrite potential_settle; lia|].
  rewrite potential_enqueue, potential_lock. simpl. lia.
Qed.

Lemma apply_then_eq q h s :
  apply_action (AThen q h) s = then_at (length (heap s)) q h s.
Proof. done. Qed.

Lemma potential_action s a :
  potential (apply_action a s) ≤ potential s + action_cost a.
Proof.
  destruct a as [p v|p e|p v|p e|q h]; [simpl..|].
  - case_match; [apply potential_resolve_core|lia].
  - case_match; [rewrite potential_settle|]; lia.
  - case_match; [apply potential_resolve_core|lia].
  - case_match; [rewrite potential_settle|]; lia.
  - rewrite apply_then_eq. unfold then_at. etrans; [apply potential_subscribe|].
    by rewrite potential_alloc.
Qed.

Lemma potential_actions s acts :
  potential (run_actions acts s) ≤ potential s + sum_list_with action_cost acts.
Proof.
  revert s. induction acts as [|a acts IH]; intros s; simpl; [lia|].
  etrans; [apply IH|]. pose proof (potential_action s a). lia.
Qed.

Lemma job_cost j :
  job_plain j → sum_list_with action_cost (job_actions j) < job_weight j.
Proof.
  destruct j as [[h d] σ|p q]; simpl; [|lia].
  unfold reaction_weight. simpl. intros Hσ.
  destruct h as [k|p|p|arr r|v r], σ as [w|e], d as [d|]; simpl in *;
    rewrite ?Hσ; simpl; try lia; destruct (is_promise v); simpl; lia.
Qed.

Lemma potential_step_job s j q :
  wf s → queue s = j :: q → potential (step EJob s) < potential s.
Proof.
  intros Hwf Hq. unfold step. rewrite Hq.
  destruct (wf_queue _ Hwf j) as [_ Hplain]; [rewrite Hq; by left|].
  pose proof (potential_actions (State (heap s) q (timers s) (now s)) (job_actions j)).
  pose proof (job_cost j Hplain).
  unfold potential in *. rewrite Hq. simpl in *. lia.
Qed.

(** Running jobs alone empties the queue. *)
Lemma drains s : wf s → ∃ m, queue (exec (replicate m EJob) s) = [].
Proof.
  remember (potential s) as w eqn:Hw. revert s Hw.
  induction w as [w IH] using lt_wf_ind. intros s -> Hwf.
  destruct (queue s) as [|j q] eqn:Hq; [by exists 0|].
  destruct (IH (potential (step EJob s))) with (s := step EJob s) as [m Hm];
    [by eapply potential_step_job|done|by apply wf_step|].
  by exists (S m).
Qed.

(** ** Timers and the whole event loop *)

Lemma elem_of_insert_timer t t0 ts : t ∈ insert_timer t0 ts ↔ t = t0 ∨ t ∈ ts.
Proof.
  induction ts as [|t' ts IH]; simpl.
  - rewrite list_elem_of_singleton, elem_of_nil. tauto.
  - case_decide; rewrite !elem_of_cons, ?IH; tauto.
Qed.

Lemma length_insert_timer t0 ts : length (insert_timer t0 ts) = S (length ts).
Proof. induction ts as [|t' ts IH]; simpl; [done|]. case_decide; simpl; lia. Qed.

Lemma wf_setTimeout s p ms : wf s → p < length (heap s) → wf (setTimeout p ms s).2.
Proof.
  intros [Hq Hr Ht Hs] Hp. constructor; simpl; [done..| |done].
  intros t [->|Hin]%elem_of_insert_timer; [done|by apply Ht].
Qed.

Lemma governed_setTimeout P srcs timed s p ms :
  governed P srcs timed s → (p = P → timed = true) →
  governed P srcs timed (setTimeout p ms s).2.
Proof.
  intros [HP Hr Hq Ht] Hp. constructor; simpl; [done..|].
  intros t [->|Hin]%elem_of_insert_timer; [done|by apply Ht].
Qed.


Lemma potential_step_timer s t ts :
  queue s = [] → timers s = t :: ts →
  potential (step ETimer s) ≤ potential s ∧ timers (step ETimer s) = ts.
Proof.
  intros Hq Ht. unfold step. rewrite Hq, Ht.
  set (s1 := State (heap s) [] ts _). split.
  - pose proof (potential_action s1 (AResolve (t_resolve t) VUndefined)) as H.
    unfold potential in *. rewrite Hq. simpl in *. lia.
  - by destruct (appends_action s1 (AResolve (t_resolve t) VUndefined)) as (_ & -> & _).
Qed.

Lemma timers_step_job s : timers (step EJob s) = timers s.
Proof.
  unfold step. destruct (queue s) as [|j q]; [done|].
  by destruct (appends_actions (State (heap s) q (timers s) (now s)) (job_actions j))
    as (_ & -> & _).
Qed.

(** The event loop comes to rest: the jobs drain, the timers fire. *)
Lemma comes_to_rest s :
  wf s → ∃ sched, queue (exec sched s) = [] ∧ timers (exec sched s) = [].
Proof.
  remember (potential s + length (timers s)) as w eqn:Hw. revert s Hw.
  induction w as [w IH] using lt_wf_ind. intros s -> Hwf.
  destruct (queue s) as [|j q] eqn:Hq.
  - destruct (timers s) as [|t ts] eqn:Ht; [by exists []|].
    destruct (potential_step_timer s t ts Hq Ht) as [Hle Hts].
    destruct (IH (potential (step ETimer s) + length (timers (step ETimer s))))
      with (s := step ETimer s) as [sched Hs];
      [rewrite Hts; cbn [length]; lia|done|by apply wf_step|].
    by exists (ETimer :: sched).
  - pose proof (potential_step_job s j q Hwf Hq).
    destruct (IH (potential (step EJob s) + length (timers (step EJob s))))
      with (s := step EJob s) as [sched Hs];
      [rewrite timers_step_job; lia|done|by apply wf_step|].
    by exists (EJob :: sched).
Qed.

(** ** The state after a call of [delayWithResult] *)

Definition delay_reaction (result : value) (ret : pid) : reaction :=
  Reaction (HDelayWithResultResume result ret) None.

Definition after_delayWithResult (result : value) (milliseconds : Z) (s : state) : state :=
  let n := length (heap s) in
  subscribe (n + 1) (delay_reaction result n)
    (setTimeout (n + 1) milliseconds (alloc Internal (alloc Internal s).2).2).2.

Lemma delayWithResult_eq result milliseconds s :
  delayWithResult result milliseconds s =
    (length (heap s), after_delayWithResult result milliseconds s).
Proof.
  unfold delayWithResult, delay, await, after_delayWithResult.
  unfold mbind, mret, M_bind, M_ret, lift. simpl.
  rewrite length_app. simpl. by rewrite Nat.add_1_r.
Qed.

Lemma delay_eq milliseconds s :
  delay milliseconds s =
    (length (heap s), (setTimeout (length (heap s)) milliseconds (alloc Internal s).2).2).
Proof. done. Qed.

(** The promises of one call of [delayWithResult]: [n] is returned,
    [n + 1] is the promise of [delay]. *)
Record delaying (result : value) (n : nat) (s : state) : Prop := {
  dl_wf : wf s;
  dl_delay : governed (n + 1) [] true s;
  dl_ret : governed n [(n + 1, delay_reaction result n)] false s;
  dl_feed : feeds (n + 1) (delay_reaction result n) n s;
  dl_timer : timer_feeds (n + 1) s
}.

Definition delay_result (result : value) (σ : settlement) : settlement :=
  match σ with
  | Fulfilled _ => Fulfilled result
  | Rejected e => Rejected e
  end.

Lemma job_effect_delay result n σ :
  is_promise result = false →
  job_effect n (JReaction (delay_reaction result n) σ) = Some (delay_result result σ).
Proof.
  intros Hr. unfold job_effect. destruct σ; simpl.
  - rewrite filter_cons_True by (simpl; by left). rewrite filter_nil. simpl.
    by rewrite Hr.
  - rewrite filter_cons_True by (simpl; by left). by rewrite filter_nil.
Qed.

Lemma well_behaved_delay result n (Hr : is_promise result = false) (src : pid) r σ :
  (src, r) ∈ [(n + 1, delay_reaction result n)] → plain σ →
  is_Some (job_effect n (JReaction r σ)).
Proof. intros Hin _. lookup_simpl. rewrite job_effect_delay by done. by eexists. Qed.

Lemma delaying_after result milliseconds s :
  wf s → delaying result (length (heap s)) (after_delayWithResult result milliseconds s).
Proof.
  intros Hwf. unfold after_delayWithResult.
  set (n := length (heap s)).
  set (s2 := (alloc Internal (alloc Internal s).2).2).
  assert (length (heap s2) = n + 2) as Hlen.
  { unfold s2. rewrite !length_heap_alloc. lia. }
  assert (wf s2) as Hwf2 by (by apply wf_alloc, wf_alloc).
  constructor.
  - apply wf_subscribe; [apply wf_setTimeout; [done|lia]|].
    unfold reaction_caps. simpl. intros q Hq. lookup_simpl. lia.
  - apply governed_subscribe; [apply governed_setTimeout; [|done]|].
    + apply governed_fresh; [by apply wf_alloc|]. rewrite length_heap_alloc. lia.
    + unfold reaction_caps. simpl. intros Hq. lookup_simpl. lia.
  - apply governed_subscribe; [apply governed_setTimeout; [|lia]|by left].
    apply governed_alloc, governed_fresh; done.
  - apply feeds_subscribe. simpl in *. lia.
  - right. exists (Timer (now s2 + timer_delay milliseconds) (n + 1)). split; [|done].
    match goal with
    | |- _ ∈ timers (subscribe ?p ?r ?s') =>
        destruct (appends_subscribe s' p r) as (_ & -> & _)
    end.
    simpl. apply elem_of_insert_timer. by left.
Qed.

Lemma delaying_step result n s e :
  is_promise result = false → delaying result n s → delaying result n (step e s).
Proof.
  intros Hr [Hwf Hd Hret Hf Ht]. constructor.
  - by apply wf_step.
  - apply governed_step; [by intros ??? ?%elem_of_nil|done..].
  - apply governed_step; [by apply well_behaved_delay|done..].
  - eapply feeds_step; [by apply well_behaved_delay|done..|by left|done].
  - by eapply timer_feeds_step.
Qed.

Lemma delaying_exec result n s sched :
  is_promise result = false → delaying result n s → delaying result n (exec sched s).
Proof.
  intros Hr. revert s. induction sched as [|e sched IH]; intros s H; [done|].
  simpl. by apply IH, delaying_step.
Qed.

Lemma delaying_settled result n s ρ :
  is_promise result = false → delaying result n s →
  settled_as n ρ s → ρ = Fulfilled result.
Proof.
  intros Hr [Hwf Hd Hret Hf Ht] Hρ.
  destruct (governed_settled _ _ _ _ _ Hret Hρ)
    as [(j & (src & r & σ & -> & Hin & Hσ) & Heff)|[? _]]; [|done].
  lookup_simpl. rewrite job_effect_delay in Heff by done. simplify_eq.
  destruct (governed_settled _ _ _ _ _ Hd Hσ)
    as [(j & (src & r & σ' & _ & Hin & _) & _)|[_ ->]]; [|done].
  by apply elem_of_nil in Hin.
Qed.

Lemma delaying_rest result n s :
  is_promise result = false → delaying result n s →
  queue s = [] → timers s = [] → settled_as n (Fulfilled result) s.
Proof.
  intros Hr Hd Hq Ht. pose proof Hd as [Hwf Hgd Hret Hf Htf].
  destruct Htf as [[σ Hσ]|(t & Hin & _)]; [|rewrite Ht in Hin; by apply elem_of_nil in Hin].
  destruct (feeds_quiet _ _ _ _ _ Hf Hq Hσ) as [ρ Hρ].
  by rewrite <-(delaying_settled _ _ _ _ Hr Hd Hρ).
Qed.

(** ** Statements about [properRace] *)

(** The caller's side of a call: a well-formed state in which both
    operations exist. *)
Definition ready (first second : pid) (s : state) : Prop :=
  wf s ∧ first < length (heap s) ∧ second < length (heap s).

(** The object [{ promise: p }]. *)
Definition outcome (p : pid) : value := VObject [("promise"%string, VPromise p)].

(** What the promise of [properRace] settles as when the input [X]
    settled first as [σ]. *)
Definition race_result (X : pid) (σ : settlement) : settlement :=
  match σ with
  | Fulfilled _ => Fulfilled (outcome X)
  | Rejected e => Rejected e
  end.

Lemma race_invariant first second s f s1 :
  ready first second s → properRace_frame first second s = (f, s1) →
  f = (let n := length (heap s) in Race [first; second] [n + 1; n + 2] (n + 3) n) ∧
  racing first second (length (heap s)) s1.
Proof.
  intros (Hwf & H1 & H2). rewrite properRace_frame_eq. intros [= <- <-].
  split; [done|]. by apply racing_after_properRace.
Qed.

Lemma properRace_ret first second s f s1 :
  properRace_frame first second s = (f, s1) → properRace first second s = (ret f, s1).
Proof. unfold properRace, mbind, M_bind. by intros ->. Qed.

(** The core of the ordering statements: [X], the input at index [k],
    is settled as [σ] at a moment when the other input is pending; then
    every state at rest afterwards shows index [k] as the winner. *)
Lemma race_rest first second s f s1 sched1 sched2 k X Y σ :
  ready first second s → properRace_frame first second s = (f, s1) →
  promiseArray f !! k = Some X → promiseArray f !! (1 - k) = Some Y →
  settled_as X σ (exec sched1 s1) → unsettled Y (exec sched1 s1) = true →
  queue (exec sched2 (exec sched1 s1)) = [] →
  (∃ I, indexPromises f !! k = Some I ∧
        settled_as I (index_result k σ) (exec sched2 (exec sched1 s1))) ∧
  settled_as (raced f) (index_result k σ) (exec sched2 (exec sched1 s1)) ∧
  settled_as (ret f) (race_result X σ) (exec sched2 (exec sched1 s1)).
Proof.
  intros Hready Hf HX HY Hσ HYun Hq.
  destruct (race_invariant _ _ _ _ _ Hready Hf) as [-> Hrace]. simpl in *.
  set (n := length (heap s)) in *.
  set (s2 := exec sched1 s1) in *. set (s3 := exec sched2 s2) in *.
  assert (racing first second n s2) as Hrace2 by (by apply racing_exec).
  assert (racing first second n s3) as Hrace3 by (by apply racing_exec).
  assert (settled_as X σ s3) as Hσ3.
  { eapply stable_settled; [apply stable_exec|done]. }
  assert (settled_as (n + 3) (index_result k σ) s3) as HRC.
  { apply (winning_quiet first second); [|done].
    apply winning_exec; [done|]. by eapply winning_start. }
  repeat split; [|done|].
  - assert (k < 2) as Hk by (apply lookup_lt_Some in HX; simpl in HX; lia).
    destruct k as [|[|]]; [| |lia]; simplify_eq/=.
    + exists (n + 1). split; [done|].
      destruct (feeds_quiet _ _ _ _ _ (rc_feed0 _ _ _ _ Hrace3) Hq Hσ3) as [τ Hτ].
      destruct (index0_settled _ _ _ _ Hrace3 _ Hτ) as (σ' & Hσ' & ->).
      by rewrite (settled_as_inj _ _ _ _ Hσ3 Hσ').
    + exists (n + 2). split; [done|].
      destruct (feeds_quiet _ _ _ _ _ (rc_feed1 _ _ _ _ Hrace3) Hq Hσ3) as [τ Hτ].
      destruct (index1_settled _ _ _ _ Hrace3 _ Hτ) as (σ' & Hσ' & ->).
      by rewrite (settled_as_inj _ _ _ _ Hσ3 Hσ').
  - destruct (quiet_ret _ _ _ _ Hrace3 k X σ Hq HX Hσ3) as [ρ Hρ].
    destruct (ret_settled _ _ _ _ Hrace3 _ Hρ) as (τ & Hτ & Eρ).
    pose proof (settled_as_inj _ _ _ _ Hτ HRC) as ->.
    rewrite (resume_index_result first second k X σ HX) in Eρ. by subst ρ.
Qed.

(** Two external promises, both pending: the operations A (0) and B (1)
    of the scenarios. *)
Definition two_pending : state := (new_promise (new_promise init).2).2.

Lemma wf_init : wf init.
Proof.
  constructor; simpl.
  - by intros j ?%elem_of_nil.
  - intros p o l rs r H. by rewrite lookup_nil in H.
  - by intros t ?%elem_of_nil.
  - intros p o σ H. by rewrite lookup_nil in H.
Qed.

Lemma ready_two_pending : ready 0 1 two_pending.
Proof.
  split; [|simpl; lia]. unfold two_pending, new_promise. apply wf_alloc, wf_alloc, wf_init.
Qed.

Lemma properRace_frame_scenario :
  properRace_frame 0 1 two_pending =
    (Race [0; 1] [3; 4] 5 2, (properRace_frame 0 1 two_pending).2).
Proof. reflexivity. Qed.

(** The scenarios used below: after [properRace(A, B)] on two pending
    operations. *)
Definition scenario_frame : race := (properRace_frame 0 1 two_pending).1.
Definition scenario_start : state := (properRace_frame 0 1 two_pending).2.

Lemma scenario_eq : properRace_frame 0 1 two_pending = (scenario_frame, scenario_start).
Proof. reflexivity. Qed.

Lemma race_drains first second s f s1 sched :
  ready first second s → properRace_frame first second s = (f, s1) →
  ∃ m, queue (exec (replicate m EJob) (exec sched s1)) = [].
Proof.
  intros Hready Hf. destruct (race_invariant _ _ _ _ _ Hready Hf) as [_ Hrace].
  apply drains, wf_exec, (rc_wf _ _ _ _ Hrace).
Qed.

(** C1, as stated, fails when the operation that settles first fails:
    B (index 1) rejects while A is pending, the jobs run, and the promise
    of [properRace] carries no outcome for B; it is rejected. *)
Lemma properRace_first_settled_rejected_no_outcome :
  let s2 := exec [EReject 1 (VString "nope")] scenario_start in
  let s3 := exec [EJob; EJob; EJob] s2 in
  settled_as 1 (Rejected (VString "nope")) s2 ∧ unsettled 0 s2 = true ∧
  queue s3 = [] ∧
  ¬ settled_as (ret scenario_frame) (Fulfilled (outcome 1)) s3 ∧
  settled_as (ret scenario_frame) (Rejected (VString "nope")) s3.
Proof. vm_compute. repeat split; done. Qed.

(** C1 (amended): for every pair of operations passed to [properRace]
    and every schedule, if the operation at index [k] is fulfilled at a
    moment after the call when the other one is still pending, then the
    jobs drain, and in every state at rest afterwards the index promise of
    that operation is fulfilled with [k], it has won the underlying race
    (the raced promise is fulfilled with [k]), and the promise of
    [properRace] is fulfilled with [{ promise: X }] for that very
    operation [X], whatever the values are. *)
Theorem properRace_first_fulfilled_wins first second s f s1 sched1 k X Y v :
  ready first second s → properRace_frame first second s = (f, s1) →
  promiseArray f !! k = Some X → promiseArray f !! (1 - k) = Some Y →
  settled_as X (Fulfilled v) (exec sched1 s1) →
  unsettled Y (exec sched1 s1) = true →
  (∃ m, queue (exec (replicate m EJob) (exec sched1 s1)) = []) ∧
  ∀ sched2, queue (exec sched2 (exec sched1 s1)) = [] →
    (∃ I, indexPromises f !! k = Some I ∧
       settled_as I (Fulfilled (VNumber (Z.of_nat k))) (exec sched2 (exec sched1 s1))) ∧
    settled_as (raced f) (Fulfilled (VNumber (Z.of_nat k))) (exec sched2 (exec sched1 s1)) ∧
    settled_as (ret f) (Fulfilled (outcome X)) (exec sched2 (exec sched1 s1)).
Proof.
  intros Hready Hf HX HY Hσ HYun. split; [by eapply race_drains|].
  intros sched2 Hq.
  apply (race_rest _ _ _ _ _ _ _ _ _ _ _ Hready Hf HX HY Hσ HYun Hq).
Qed.

Lemma properRace_first_fulfilled_wins_witness :
  let s2 := exec [EResolve 1 (VNumber 42)] scenario_start in
  let s3 := exec [EJob; EJob; EJob] s2 in
  settled_as 1 (Fulfilled (VNumber 42)) s2 ∧ unsettled 0 s2 = true ∧ queue s3 = [] ∧
  settled_as (raced scenario_frame) (Fulfilled (VNumber 1)) s3 ∧
  settled_as (ret scenario_frame) (Fulfilled (outcome 1)) s3.
Proof.
  assert (settled_as 1 (Fulfilled (VNumber 42))
            (exec [EResolve 1 (VNumber 42)] scenario_start)) as H1 by reflexivity.
  assert (unsettled 0 (exec [EResolve 1 (VNumber 42)] scenario_start) = true) as H0
    by reflexivity.
  assert (queue (exec [EJob; EJob; EJob]
            (exec [EResolve 1 (VNumber 42)] scenario_start)) = []) as Hq by reflexivity.
  destruct (properRace_first_fulfilled_wins 0 1 two_pending scenario_frame
              scenario_start [EResolve 1 (VNumber 42)] 1 1 0 (VNumber 42)
              ready_two_pending scenario_eq eq_refl eq_refl H1 H0) as [_ H].
  destruct (H [EJob; EJob; EJob] Hq) as (_ & HRC & HR).
  split; [exact H1|]. split; [exact H0|]. split; [exact Hq|].
  split; [exact HRC|exact HR].
Defined.

(** Whatever [properRace] is fulfilled with references an element of
    [promiseArray], and the raced promise holds its index. *)
Lemma properRace_outcome_shape_aux first second s f s1 sched v :
  ready first second s → properRace_frame first second s = (f, s1) →
  settled_as (ret f) (Fulfilled v) (exec sched s1) →
  ∃ k X, [first; second] !! k = Some X ∧ v = outcome X.
Proof.
  intros Hready Hf Hv. destruct (race_invariant _ _ _ _ _ Hready Hf) as [-> Hrace].
  simpl in *.
  assert (racing first second (length (heap s)) (exec sched s1)) as Hrace'
    by (by apply racing_exec).
  destruct (ret_from_input _ _ _ _ Hrace' _ Hv) as (k & X & σ & HX & Hσ & HRC & Hρ).
  destruct σ as [w|e]; [|done]. simplify_eq. by exists k, X.
Qed.

(** C2, as stated, fails: the outcome has no [index] field.  A fulfils
    first; the outcome is the object [{ promise: A }] and reading [index]
    from it finds nothing. *)
Lemma properRace_outcome_has_no_index :
  let s3 := exec [EResolve 0 (VString "fast"); EJob; EJob; EJob] scenario_start in
  settled_as (ret scenario_frame) (Fulfilled (outcome 0)) s3 ∧
  get_field "index" (outcome 0) = None ∧
  ¬ ∃ v i, settled_as (ret scenario_frame) (Fulfilled v) s3 ∧
           get_field "index" v = Some (VNumber i).
Proof.
  split; [reflexivity|]. split; [reflexivity|].
  intros (v & i & Hv & Hi). vm_compute in Hv. by simplify_eq.
Qed.

(** C2 (amended): [properRace] takes exactly two operations, kept in
    call order in [promiseArray]; whenever its promise is fulfilled, the
    value is an object whose only field is [promise], holding a reference
    to the original operation at the index the raced promise was
    fulfilled with; the index itself is not part of the outcome. *)
Theorem properRace_outcome_shape first second s f s1 sched v :
  ready first second s → properRace_frame first second s = (f, s1) →
  settled_as (ret f) (Fulfilled v) (exec sched s1) →
  promiseArray f = [first; second] ∧
  ∃ k X, promiseArray f !! k = Some X ∧
    settled_as (raced f) (Fulfilled (VNumber (Z.of_nat k))) (exec sched s1) ∧
    v = VObject [("promise"%string, VPromise X)] ∧
    get_field "promise" v = Some (VPromise X) ∧
    get_field "index" v = None.
Proof.
  intros Hready Hf Hv. destruct (race_invariant _ _ _ _ _ Hready Hf) as [-> Hrace].
  simpl in *. split; [done|].
  assert (racing first second (length (heap s)) (exec sched s1)) as Hrace'
    by (by apply racing_exec).
  destruct (ret_from_input _ _ _ _ Hrace' _ Hv) as (k & X & σ & HX & Hσ & HRC & Hρ).
  destruct σ as [w|e]; [|done]. simplify_eq. by exists k, X.
Qed.

Lemma properRace_outcome_shape_witness :
  let s3 := exec [EResolve 0 (VString "fast"); EJob; EJob; EJob] scenario_start in
  settled_as (ret scenario_frame) (Fulfilled (outcome 0)) s3 ∧
  promiseArray scenario_frame = [0; 1] ∧
  ∃ k X, promiseArray scenario_frame !! k = Some X ∧
    settled_as (raced scenario_frame) (Fulfilled (VNumber (Z.of_nat k))) s3 ∧
    outcome 0 = VObject [("promise"%string, VPromise X)] ∧
    get_field "promise" (outcome 0) = Some (VPromise X) ∧
    get_field "index" (outcome 0) = None.
Proof.
  assert (settled_as (ret scenario_frame) (Fulfilled (outcome 0))
            (exec [EResolve 0 (VString "fast"); EJob; EJob; EJob] scenario_start))
    as Hv by reflexivity.
  split; [exact Hv|].
  exact (properRace_outcome_shape 0 1 two_pending scenario_frame scenario_start
           [EResolve 0 (VString "fast"); EJob; EJob; EJob] (outcome 0)
           ready_two_pending scenario_eq Hv).
Defined.

(** C3, as stated, fails on the scenario of the specification: A fails
    with ["boom"], the jobs run, B completes with [true], the jobs run.
    The race never resolves with an outcome identifying A: the promise of
    [properRace] is rejected with ["boom"]. *)
Lemma properRace_failure_yields_no_outcome :
  let s2 := exec [EReject 0 (VString "boom")] scenario_start in
  let s3 := exec [EJob; EJob; EJob; EResolve 1 (VBoolean true); EJob; EJob] s2 in
  settled_as 0 (Rejected (VString "boom")) s2 ∧ unsettled 1 s2 = true ∧
  queue s3 = [] ∧
  settled_as (ret scenario_frame) (Rejected (VString "boom")) s3 ∧
  ¬ ∃ v, settled_as (ret scenario_frame) (Fulfilled v) s3.
Proof.
  repeat split; try reflexivity. intros [v Hv]. vm_compute in Hv. by simplify_eq.
Qed.

(** C3 (amended): for every pair of operations where the operation [X]
    at index [k] fails with [e] while the other one is still pending, the
    race does not resolve with an outcome: in every state at rest
    afterwards the promise of [properRace] is rejected with [e], the
    original failure of [X], unchanged, and it never holds an outcome;
    [X] itself stays rejected with [e], so observing it yields the original
    failure. *)
Theorem properRace_first_rejected_rejects first second s f s1 sched1 k X Y e :
  ready first second s → properRace_frame first second s = (f, s1) →
  promiseArray f !! k = Some X → promiseArray f !! (1 - k) = Some Y →
  settled_as X (Rejected e) (exec sched1 s1) →
  unsettled Y (exec sched1 s1) = true →
  ∀ sched2, queue (exec sched2 (exec sched1 s1)) = [] →
    settled_as (ret f) (Rejected e) (exec sched2 (exec sched1 s1)) ∧
    settled_as X (Rejected e) (exec sched2 (exec sched1 s1)) ∧
    ∀ sched3 v,
      ¬ settled_as (ret f) (Fulfilled v) (exec sched3 (exec sched2 (exec sched1 s1))).
Proof.
  intros Hready Hf HX HY Hσ HYun sched2 Hq.
  destruct (race_rest _ _ _ _ _ _ _ _ _ _ _ Hready Hf HX HY Hσ HYun Hq)
    as (_ & _ & HR).
  split; [done|]. split.
  - eapply stable_settled; [apply stable_exec|done].
  - intros sched3 v Hv.
    assert (settled_as (ret f) (Rejected e)
              (exec sched3 (exec sched2 (exec sched1 s1)))) as HR'.
    { eapply stable_settled; [apply stable_exec|done]. }
    by pose proof (settled_as_inj _ _ _ _ Hv HR').
Qed.

Lemma properRace_first_rejected_rejects_witness :
  let s2 := exec [EReject 0 (VString "boom")] scenario_start in
  let s3 := exec [EJob; EJob; EJob] s2 in
  settled_as 0 (Rejected (VString "boom")) s2 ∧ unsettled 1 s2 = true ∧ queue s3 = [] ∧
  settled_as (ret scenario_frame) (Rejected (VString "boom")) s3 ∧
  settled_as 0 (Rejected (VString "boom")) s3.
Proof.
  assert (settled_as 0 (Rejected (VString "boom"))
            (exec [EReject 0 (VString "boom")] scenario_start)) as H0 by reflexivity.
  assert (unsettled 1 (exec [EReject 0 (VString "boom")] scenario_start) = true) as H1
    by reflexivity.
  assert (queue (exec [EJob; EJob; EJob]
            (exec [EReject 0 (VString "boom")] scenario_start)) = []) as Hq by reflexivity.
  destruct (properRace_first_rejected_rejects 0 1 two_pending scenario_frame
              scenario_start [EReject 0 (VString "boom")] 0 0 1 (VString "boom")
              ready_two_pending scenario_eq eq_refl eq_refl H0 H1
              [EJob; EJob; EJob] Hq) as (HR & HX & _).
  split; [exact H0|]. split; [exact H1|]. split; [exact Hq|].
  split; [exact HR|exact HX].
Defined.

(** C4, as stated, fails when the operations have settled before the
    call: B fails while A is pending, A completes after it, and only then
    [properRace(A, B)] is called.  The failure of B, although it came
    first, does not surface: at rest the promise of [properRace] is
    fulfilled with [{ promise: A }], and it stays so. *)
Lemma properRace_failure_before_the_call_is_dropped :
  let s0 := exec [EReject 1 (VString "boom")] two_pending in
  let s := exec [EResolve 0 (VNumber 1)] s0 in
  let call := properRace_frame 0 1 s in
  let s' := exec [EJob; EJob; EJob; EJob; EJob] call.2 in
  settled_as 1 (Rejected (VString "boom")) s0 ∧ unsettled 0 s0 = true ∧
  settled_as 0 (Fulfilled (VNumber 1)) s ∧
  queue s' = [] ∧
  settled_as (ret call.1) (Fulfilled (outcome 0)) s' ∧
  ∀ sched e, ¬ settled_as (ret call.1) (Rejected e) (exec sched s').
Proof.
  repeat split; try reflexivity. intros sched e He.
  assert (settled_as 2 (Fulfilled (outcome 0))
            (exec sched (exec [EJob; EJob; EJob; EJob; EJob]
               (properRace_frame 0 1
                  (exec [EResolve 0 (VNumber 1)]
                     (exec [EReject 1 (VString "boom")] two_pending))).2))) as Hv.
  { eapply stable_settled; [apply stable_exec|reflexivity]. }
  by pose proof (settled_as_inj _ _ _ _ He Hv).
Qed.

(** C4 (amended): if, at a moment after the call, an input operation has
    failed (with reason [e]) while the other one is still unsettled, the
    failure surfaces as the failure of [properRace] itself, verbatim: the
    jobs drain, and at rest the index promise derived from that operation
    is rejected with [e], the raced promise is rejected with [e] (the
    first settlement wins, a failure like a success), and the promise of
    [properRace] is rejected with [e] and stays so under every further
    schedule (neither retried nor suppressed). *)
Theorem properRace_failure_propagates first second s f s1 sched1 k X Y e :
  ready first second s → properRace_frame first second s = (f, s1) →
  promiseArray f !! k = Some X → promiseArray f !! (1 - k) = Some Y →
  settled_as X (Rejected e) (exec sched1 s1) →
  unsettled Y (exec sched1 s1) = true →
  (∃ m, queue (exec (replicate m EJob) (exec sched1 s1)) = []) ∧
  ∀ sched2, queue (exec sched2 (exec sched1 s1)) = [] →
    (∃ I, indexPromises f !! k = Some I ∧
       settled_as I (Rejected e) (exec sched2 (exec sched1 s1))) ∧
    settled_as (raced f) (Rejected e) (exec sched2 (exec sched1 s1)) ∧
    ∀ sched3, settled_as (ret f) (Rejected e) (exec sched3 (exec sched2 (exec sched1 s1))).
Proof.
  intros Hready Hf HX HY Hσ HYun. split; [by eapply race_drains|].
  intros sched2 Hq.
  destruct (race_rest _ _ _ _ _ _ _ _ _ _ _ Hready Hf HX HY Hσ HYun Hq)
    as (HI & HRC & HR).
  split; [done|]. split; [done|]. intros sched3.
  eapply stable_settled; [apply stable_exec|done].
Qed.

Lemma properRace_failure_propagates_witness :
  let s2 := exec [EReject 1 (VString "late boom")] scenario_start in
  let s3 := exec [EJob; EJob; EJob] s2 in
  settled_as 1 (Rejected (VString "late boom")) s2 ∧ unsettled 0 s2 = true ∧
  queue s3 = [] ∧
  settled_as (raced scenario_frame) (Rejected (VString "late boom")) s3 ∧
  settled_as (ret scenario_frame) (Rejected (VString "late boom"))
    (exec [EResolve 0 (VNumber 1); EJob; EJob] s3).
Proof.
  assert (settled_as 1 (Rejected (VString "late boom"))
            (exec [EReject 1 (VString "late boom")] scenario_start)) as H1 by reflexivity.
  assert (unsettled 0 (exec [EReject 1 (VString "late boom")] scenario_start) = true)
    as H0 by reflexivity.
  assert (queue (exec [EJob; EJob; EJob]
            (exec [EReject 1 (VString "late boom")] scenario_start)) = []) as Hq
    by reflexivity.
  destruct (properRace_failure_propagates 0 1 two_pending scenario_frame
              scenario_start [EReject 1 (VString "late boom")] 1 1 0
              (VString "late boom")
              ready_two_pending scenario_eq eq_refl eq_refl H1 H0) as [_ H].
  destruct (H [EJob; EJob; EJob] Hq) as (_ & HRC & HR).
  split; [exact H1|]. split; [exact H0|]. split; [exact Hq|].
  split; [exact HRC|]. exact (HR [EResolve 0 (VNumber 1); EJob; EJob]).
Defined.

(** C5: in every execution in which the promise of [properRace] is
    fulfilled, the operation referenced by the outcome is the first or the
    second argument itself (the same promise, by identity); nothing else is
    ever returned. *)
Theorem properRace_returns_an_input first second s f s1 sched v :
  ready first second s → properRace_frame first second s = (f, s1) →
  settled_as (ret f) (Fulfilled v) (exec sched s1) →
  v = outcome first ∨ v = outcome second.
Proof.
  intros Hready Hf Hv.
  destruct (properRace_outcome_shape_aux first second s f s1 sched v Hready Hf Hv)
    as (k & X & HX & ->).
  destruct k as [|[|k]]; simplify_eq/=; auto.
Qed.

Lemma properRace_returns_an_input_witness :
  let s3 := exec [EResolve 1 (VNumber 42); EJob; EJob; EJob] scenario_start in
  settled_as (ret scenario_frame) (Fulfilled (outcome 1)) s3 ∧
  (outcome 1 = outcome 0 ∨ outcome 1 = outcome 1).
Proof.
  assert (settled_as (ret scenario_frame) (Fulfilled (outcome 1))
            (exec [EResolve 1 (VNumber 42); EJob; EJob; EJob] scenario_start))
    as Hv by reflexivity.
  split; [exact Hv|].
  exact (properRace_returns_an_input 0 1 two_pending scenario_frame scenario_start
           [EResolve 1 (VNumber 42); EJob; EJob; EJob] (outcome 1)
           ready_two_pending scenario_eq Hv).
Defined.

#[local] Opaque subscribe alloc.

Lemma after_properRace_ret_unsettled first second s :
  unsettled (length (heap s)) (after_properRace first second s) = true.
Proof. unfold after_properRace, then_at. peel_unsettled. Qed.

#[local] Transparent subscribe alloc.

(** C6: for any two operations, [properRace] raises no error of its
    own: the call returns a pending promise, and in every execution in
    which that promise is rejected with a reason [e], one of the two
    operations is itself rejected with that same [e].  (The signature takes
    exactly two promises, so a call with fewer is excluded by the types;
    there is no validation in the body.) *)
Theorem properRace_no_error_of_its_own first second s f s1 :
  ready first second s → properRace_frame first second s = (f, s1) →
  unsettled (ret f) s1 = true ∧
  ∀ sched e, settled_as (ret f) (Rejected e) (exec sched s1) →
    settled_as first (Rejected e) (exec sched s1) ∨
    settled_as second (Rejected e) (exec sched s1).
Proof.
  intros Hready Hf. destruct (race_invariant _ _ _ _ _ Hready Hf) as [-> Hrace].
  simpl. split.
  - rewrite properRace_frame_eq in Hf. injection Hf as <-.
    apply after_properRace_ret_unsettled.
  - intros sched e He.
    assert (racing first second (length (heap s)) (exec sched s1)) as Hrace'
      by (by apply racing_exec).
    destruct (ret_from_input _ _ _ _ Hrace' _ He) as (k & X & σ & HX & Hσ & _ & Hρ).
    destruct σ as [w|e']; [done|]. simplify_eq.
    destruct k as [|[|k]]; simplify_eq/=; auto.
Qed.

Lemma properRace_no_error_of_its_own_witness :
  let s3 := exec [EReject 0 (VString "boom"); EJob; EJob; EJob] scenario_start in
  settled_as (ret scenario_frame) (Rejected (VString "boom")) s3 ∧
  unsettled (ret scenario_frame) scenario_start = true ∧
  (settled_as 0 (Rejected (VString "boom")) s3 ∨
   settled_as 1 (Rejected (VString "boom")) s3).
Proof.
  assert (settled_as (ret scenario_frame) (Rejected (VString "boom"))
            (exec [EReject 0 (VString "boom"); EJob; EJob; EJob] scenario_start))
    as He by reflexivity.
  destruct (properRace_no_error_of_its_own 0 1 two_pending scenario_frame
              scenario_start ready_two_pending scenario_eq) as [Hpending H].
  split; [exact He|]. split; [exact Hpending|].
  exact (H [EReject 0 (VString "boom"); EJob; EJob; EJob] (VString "boom") He).
Defined.

(** A race of two operations that are settled when [properRace] is
    called: index 0 wins. *)
Lemma race_settled_rest first second s σ1 σ2 f s1 sched :
  ready first second s → settled_as first σ1 s → settled_as second σ2 s →
  properRace_frame first second s = (f, s1) →
  queue (exec sched s1) = [] →
  settled_as (raced f) (index_result 0 σ1) (exec sched s1) ∧
  settled_as (ret f) (race_result first σ1) (exec sched s1).
Proof.
  intros Hready H1 H2 Hf Hq.
  destruct (race_invariant _ _ _ _ _ Hready Hf) as [-> Hrace]. simpl.
  rewrite properRace_frame_eq in Hf. injection Hf as <-.
  set (n := length (heap s)) in *. set (s1 := after_properRace first second s) in *.
  assert (racing first second n (exec sched s1)) as Hrace' by (by apply racing_exec).
  assert (settled_as (n + 3) (index_result 0 σ1) (exec sched s1)) as HRC.
  { apply (winning_quiet first second); [|done]. apply winning_exec; [done|].
    eapply winning_settled_inputs; [apply Hready|done..]. }
  split; [done|].
  assert (settled_as first σ1 (exec sched s1)) as H1'.
  { eapply stable_settled; [apply stable_exec|].
    eapply stable_settled; [|done]. unfold s1, after_properRace, then_at.
    repeat first [apply stable_refl
                 |eapply stable_trans; [|apply stable_subscribe]
                 |eapply stable_trans; [|apply stable_alloc]]. }
  destruct (quiet_ret _ _ _ _ Hrace' 0 first σ1 Hq eq_refl H1') as [ρ Hρ].
  destruct (ret_settled _ _ _ _ Hrace' _ Hρ) as (τ & Hτ & Eρ).
  pose proof (settled_as_inj _ _ _ _ Hτ HRC) as ->.
  rewrite (resume_index_result first second 0 first σ1 eq_refl) in Eρ. by subst ρ.
Qed.

Lemma ready_later first second s f s1 sched :
  ready first second s → properRace_frame first second s = (f, s1) →
  ready first second (exec sched s1).
Proof.
  intros Hready Hf. destruct (race_invariant _ _ _ _ _ Hready Hf) as [_ Hrace].
  destruct Hready as (_ & H1 & H2).
  assert (length (heap s) ≤ length (heap (exec sched s1))).
  { etrans; [|apply stable_length, stable_exec].
    pose proof (governed_lt _ _ _ _ (rc_ret _ _ _ _ Hrace)). lia. }
  split; [apply wf_exec, (rc_wf _ _ _ _ Hrace)|lia].
Qed.

(** C7: two operations that are already settled are raced, and raced
    again at any later moment (as often as one likes: the second call
    starts from an arbitrary state reached after the first).  At rest both
    races show the same result of the underlying race, which is decided by
    the operations alone (index 0, the first operand, wins), and the same
    settlement of the promise of [properRace]. *)
Theorem properRace_settled_deterministic
    first second s σ1 σ2 f s1 sched f' s1' sched2 sched2' :
  ready first second s → settled_as first σ1 s → settled_as second σ2 s →
  properRace_frame first second s = (f, s1) →
  properRace_frame first second (exec sched s1) = (f', s1') →
  queue (exec sched2 s1) = [] → queue (exec sched2' s1') = [] →
  ∃ τ ρ, τ = index_result 0 σ1 ∧
    settled_as (raced f) τ (exec sched2 s1) ∧
    settled_as (raced f') τ (exec sched2' s1') ∧
    settled_as (ret f) ρ (exec sched2 s1) ∧
    settled_as (ret f') ρ (exec sched2' s1').
Proof.
  intros Hready H1 H2 Hf Hf' Hq Hq'.
  destruct (race_settled_rest _ _ _ _ _ _ _ _ Hready H1 H2 Hf Hq) as [HRC HR].
  assert (stable s (exec sched s1)) as Hst.
  { eapply stable_trans; [|apply stable_exec].
    rewrite properRace_frame_eq in Hf. injection Hf as <- <-.
    unfold after_properRace, then_at.
    repeat first [apply stable_refl
                 |eapply stable_trans; [|apply stable_subscribe]
                 |eapply stable_trans; [|apply stable_alloc]]. }
  destruct (race_settled_rest first second (exec sched s1) σ1 σ2 f' s1' sched2')
    as [HRC' HR']; eauto using ready_later, stable_settled.
  by exists (index_result 0 σ1), (race_result first σ1).
Qed.

(** Both operations settled before any race: B completed first, A
    after it. *)
Definition both_settled : state :=
  exec [EResolve 1 (VNumber 7); EResolve 0 (VString "a")] two_pending.

Lemma ready_both_settled : ready 0 1 both_settled.
Proof.
  destruct ready_two_pending as (Hwf & _ & _).
  split; [by apply wf_exec|simpl; lia].
Qed.

Lemma properRace_settled_deterministic_witness :
  let r1 := properRace_frame 0 1 both_settled in
  let r2 := properRace_frame 0 1 (exec [EJob; EJob] r1.2) in
  let s := exec [EJob; EJob; EJob; EJob; EJob] r1.2 in
  let s' := exec [EJob; EJob; EJob; EJob; EJob; EJob; EJob; EJob] r2.2 in
  settled_as 0 (Fulfilled (VString "a")) both_settled ∧
  settled_as 1 (Fulfilled (VNumber 7)) both_settled ∧
  queue s = [] ∧ queue s' = [] ∧
  ∃ τ ρ, τ = index_result 0 (Fulfilled (VString "a")) ∧
    settled_as (raced r1.1) τ s ∧ settled_as (raced r2.1) τ s' ∧
    settled_as (ret r1.1) ρ s ∧ settled_as (ret r2.1) ρ s'.
Proof.
  split; [reflexivity|]. split; [reflexivity|].
  split; [reflexivity|]. split; [reflexivity|].
  exact (properRace_settled_deterministic 0 1 both_settled
           (Fulfilled (VString "a")) (Fulfilled (VNumber 7))
           (properRace_frame 0 1 both_settled).1
           (properRace_frame 0 1 both_settled).2 [EJob; EJob]
           (properRace_frame 0 1
              (exec [EJob; EJob] (properRace_frame 0 1 both_settled).2)).1
           (properRace_frame 0 1
              (exec [EJob; EJob] (properRace_frame 0 1 both_settled).2)).2
           [EJob; EJob; EJob; EJob; EJob]
           [EJob; EJob; EJob; EJob; EJob; EJob; EJob; EJob]
           ready_both_settled eq_refl eq_refl eq_refl eq_refl eq_refl eq_refl).
Defined.

(** C8, as stated, fails when both operations have settled before the
    call: B completes first, A after it, and then [properRace(A, B)] is
    called.  The result does not reflect B, which settled first: at rest
    the promise of [properRace] is fulfilled with [{ promise: A }], the
    first operand. *)
Lemma properRace_order_before_the_call_is_lost :
  let s0 := exec [EResolve 1 (VNumber 7)] two_pending in
  let s := exec [EResolve 0 (VString "a")] s0 in
  let call := properRace_frame 0 1 s in
  let s' := exec [EJob; EJob; EJob; EJob; EJob] call.2 in
  settled_as 1 (Fulfilled (VNumber 7)) s0 ∧ unsettled 0 s0 = true ∧
  settled_as 0 (Fulfilled (VString "a")) s ∧
  queue s' = [] ∧
  settled_as (ret call.1) (Fulfilled (outcome 0)) s' ∧
  ∀ sched, ¬ settled_as (ret call.1) (Fulfilled (outcome 1)) (exec sched s').
Proof.
  repeat split; try reflexivity. intros sched He.
  assert (settled_as 2 (Fulfilled (outcome 0))
            (exec sched (exec [EJob; EJob; EJob; EJob; EJob]
               (properRace_frame 0 1
                  (exec [EResolve 0 (VString "a")]
                     (exec [EResolve 1 (VNumber 7)] two_pending))).2))) as Hv.
  { eapply stable_settled; [apply stable_exec|reflexivity]. }
  by pose proof (settled_as_inj _ _ _ _ He Hv).
Qed.

(** C8 (amended): the promise of [properRace] reflects the operation that
    is seen to settle first after the call, in the order of the schedule:
    once, at a moment after the call, the operation [X] at index [k] is
    settled as [σ] while the other one is pending, every state at rest
    shows the promise of [properRace] settled from [X] (fulfilled with
    [{ promise: X }], or rejected with the reason of [X]); and from then
    on no schedule changes it, whatever happens to the other operation. *)
Theorem properRace_first_settlement_decides first second s f s1 sched1 k X Y σ :
  ready first second s → properRace_frame first second s = (f, s1) →
  promiseArray f !! k = Some X → promiseArray f !! (1 - k) = Some Y →
  settled_as X σ (exec sched1 s1) → unsettled Y (exec sched1 s1) = true →
  ∀ sched2, queue (exec sched2 (exec sched1 s1)) = [] →
  ∀ sched3,
    settled_as (ret f) (race_result X σ) (exec sched3 (exec sched2 (exec sched1 s1))) ∧
    status (ret f) (exec sched3 (exec sched2 (exec sched1 s1))) =
      status (ret f) (exec sched2 (exec sched1 s1)).
Proof.
  intros Hready Hf HX HY Hσ HYun sched2 Hq sched3.
  destruct (race_rest _ _ _ _ _ _ _ _ _ _ _ Hready Hf HX HY Hσ HYun Hq)
    as (_ & _ & HR).
  assert (settled_as (ret f) (race_result X σ)
            (exec sched3 (exec sched2 (exec sched1 s1)))) as HR'.
  { eapply stable_settled; [apply stable_exec|done]. }
  split; [done|]. unfold settled_as in *. congruence.
Qed.

Lemma properRace_first_settlement_decides_witness :
  let s2 := exec [EResolve 1 (VNumber 42)] scenario_start in
  let s3 := exec [EJob; EJob; EJob] s2 in
  let s4 := exec [EReject 0 (VString "slow failure"); EJob; EJob] s3 in
  settled_as 1 (Fulfilled (VNumber 42)) s2 ∧ unsettled 0 s2 = true ∧ queue s3 = [] ∧
  settled_as (ret scenario_frame) (race_result 1 (Fulfilled (VNumber 42))) s4 ∧
  status (ret scenario_frame) s4 = status (ret scenario_frame) s3.
Proof.
  assert (settled_as 1 (Fulfilled (VNumber 42))
            (exec [EResolve 1 (VNumber 42)] scenario_start)) as H1 by reflexivity.
  assert (unsettled 0 (exec [EResolve 1 (VNumber 42)] scenario_start) = true) as H0
    by reflexivity.
  assert (queue (exec [EJob; EJob; EJob]
            (exec [EResolve 1 (VNumber 42)] scenario_start)) = []) as Hq by reflexivity.
  split; [exact H1|]. split; [exact H0|]. split; [exact Hq|].
  exact (properRace_first_settlement_decides 0 1 two_pending scenario_frame
           scenario_start [EResolve 1 (VNumber 42)] 1 1 0 (Fulfilled (VNumber 42))
           ready_two_pending scenario_eq eq_refl eq_refl H1 H0
           [EJob; EJob; EJob] Hq [EReject 0 (VString "slow failure"); EJob; EJob]).
Defined.

(** ** Statements about [delayWithResult] *)

(** C10, as stated, fails when the value passed in is itself a promise:
    the promise of an async function adopts a returned promise.  The
    operation 0 is fulfilled with 42; [delayWithResult(operation 0, 10)]
    is then never fulfilled with that operation but with 42. *)
Lemma delayWithResult_adopts_a_promise :
  let s := exec [EResolve 0 (VNumber 42)] two_pending in
  let call := delayWithResult (VPromise 0) 10 s in
  settled_as call.1 (Fulfilled (VNumber 42)) (exec [ETimer; EJob; EJob; EJob] call.2) ∧
  ∀ sched, ¬ settled_as call.1 (Fulfilled (VPromise 0)) (exec sched call.2).
Proof.
  split; [reflexivity|]. intros sched H.
  assert (wf (exec sched
    (delayWithResult (VPromise 0) 10 (exec [EResolve 0 (VNumber 42)] two_pending)).2))
    as Hwf.
  { apply wf_exec. rewrite delayWithResult_eq. simpl.
    apply (delaying_after (VPromise 0) 10
             (exec [EResolve 0 (VNumber 42)] two_pending)).
    apply wf_exec. apply ready_two_pending. }
  by pose proof (settled_plain _ _ _ Hwf H).
Qed.

(** C10 (amended): for every value [result] that is not thenable
    (neither a promise nor any other object with a method [then]) and
    every delay, the promise returned by [delayWithResult] is fulfilled
    with exactly [result]: the event loop comes to rest, in every state at
    rest (no job, no timer left) the promise is fulfilled with [result],
    and at no moment of any schedule is it settled with anything else. *)
Theorem delayWithResult_resolves_with_result result milliseconds s p s1 :
  wf s → thenable result = false →
  delayWithResult result milliseconds s = (p, s1) →
  (∃ sched, queue (exec sched s1) = [] ∧ timers (exec sched s1) = [] ∧
            settled_as p (Fulfilled result) (exec sched s1)) ∧
  (∀ sched, queue (exec sched s1) = [] → timers (exec sched s1) = [] →
            settled_as p (Fulfilled result) (exec sched s1)) ∧
  (∀ sched ρ, settled_as p ρ (exec sched s1) → ρ = Fulfilled result).
Proof.
  intros Hwf Hr. rewrite delayWithResult_eq. intros [= <- <-].
  pose proof (delaying_after result milliseconds s Hwf) as Hd.
  assert (∀ sched, delaying result (length (heap s))
            (exec sched (after_delayWithResult result milliseconds s))) as Hd'.
  { intros sched. by apply delaying_exec. }
  split; [|split].
  - destruct (comes_to_rest (after_delayWithResult result milliseconds s))
      as (sched & Hq & Ht); [apply (dl_wf _ _ _ Hd)|].
    exists sched. split; [done|]. split; [done|]. by apply delaying_rest.
  - intros sched Hq Ht. by apply delaying_rest.
  - intros sched ρ Hρ. by apply (delaying_settled _ _ _ _ Hr (Hd' sched)).
Qed.

Lemma delayWithResult_resolves_with_result_witness :
  let call := delayWithResult (VString "data") 1000 two_pending in
  settled_as call.1 (Fulfilled (VString "data")) (exec [ETimer; EJob] call.2) ∧
  (∀ sched ρ, settled_as call.1 ρ (exec sched call.2) → ρ = Fulfilled (VString "data")).
Proof.
  destruct (delayWithResult_resolves_with_result (VString "data") 1000 two_pending
              (delayWithResult (VString "data") 1000 two_pending).1
              (delayWithResult (VString "data") 1000 two_pending).2
              (proj1 ready_two_pending) eq_refl eq_refl) as (_ & Hrest & Hsafe).
  split; [|exact Hsafe].
  exact (Hrest [ETimer; EJob] eq_refl eq_refl).
Defined.

(** ** The clock and the timers *)


Lemma timer_delay_in_range milliseconds :
  (1 ≤ milliseconds ≤ TIMEOUT_MAX)%Z → timer_delay milliseconds = milliseconds.
Proof. intros H. unfold timer_delay. by rewrite decide_True. Qed.

Lemma now_step s e : (now s ≤ now (step e s))%Z.
Proof.
  destruct e as [| |p v|p r]; unfold step.
  - destruct (queue s) as [|j q]; [done|].
    destruct (appends_actions (State (heap s) q (timers s) (now s)) (job_actions j))
      as (_ & _ & ->). done.
  - destruct (queue s) as [|j q]; [|done]. destruct (timers s) as [|t ts]; [done|].
    match goal with
    | |- (_ ≤ now (apply_action ?a ?s'))%Z =>
        destruct (appends_action s' a) as (_ & _ & ->)
    end.
    simpl. lia.
  - case_match; [|done]. destruct (appends_action s (AResolve p v)) as (_ & _ & ->). done.
  - case_match; [|done]. destruct (appends_action s (AReject p r)) as (_ & _ & ->). done.
Qed.

Lemma now_exec s sched : (now s ≤ now (exec sched s))%Z.
Proof.
  revert s. induction sched as [|e sched IH]; intros s; [done|].
  simpl. etrans; [apply (now_step s e)|apply IH].
Qed.

(** No step starts a timer. *)
Lemma timers_step s e t : t ∈ timers (step e s) → t ∈ timers s.
Proof.
  destruct e as [| |p v|p r].
  - intros H. by rewrite timers_step_job in H.
  - unfold step. destruct (queue s) as [|j q]; [|done].
    destruct (timers s) as [|t0 ts] eqn:Et; [by rewrite Et|].
    match goal with
    | |- _ ∈ timers (apply_action ?a ?s') → _ =>
        destruct (appends_action s' a) as (_ & -> & _)
    end.
    simpl. by right.
  - unfold step. case_match; [|done].
    by destruct (appends_action s (AResolve p v)) as (_ & -> & _).
  - unfold step. case_match; [|done].
    by destruct (appends_action s (AReject p r)) as (_ & -> & _).
Qed.

(** A governed promise stays pending over a step as long as its sources
    are pending and the step does not fire its timer. *)
Lemma governed_step_unsettled P srcs timed s e :
  wf s → governed P srcs timed s → unsettled P s = true →
  (∀ src r, (src, r) ∈ srcs → unsettled src s = true) →
  (∀ t ts, e = ETimer → queue s = [] → timers s = t :: ts → t_resolve t ≠ P) →
  unsettled P (step e s) = true.
Proof.
  intros Hwf Hgov HP Hsrcs Htimer.
  assert (∀ p, external p s = true → p ≠ P) as Hext.
  { intros p Hp ->. destruct (gov_cell _ _ _ _ Hgov) as (st & E & _).
    unfold external in Hp. by rewrite E in Hp. }
  destruct e as [| |p v|p r]; unfold step.
  - destruct (queue s) as [|j q] eqn:Eq; [done|].
    eapply keeps_unsettled; [|done].
    eapply keeps_trans;
      [by apply (keeps_same_heap P s (State (heap s) q (timers s) (now s)))|].
    apply keeps_actions, list.Forall_forall. intros a Ha Hcap.
    assert (P ∈ job_caps j) as Hj by (by eapply job_actions_caps).
    destruct (gov_queue _ _ _ _ Hgov j) as (src & r & σ & _ & Hin & Hσ);
      [rewrite Eq; by left|done|].
    eapply settled_not_unsettled; [done|]. by eapply Hsrcs.
  - destruct (queue s) as [|j q] eqn:Eq; [|done].
    destruct (timers s) as [|t ts] eqn:Et; [done|].
    eapply keeps_unsettled; [|done].
    eapply keeps_trans;
      [by apply (keeps_same_heap P s (State (heap s) [] ts (Z.max (now s) (t_due t))))|].
    apply keeps_action. simpl. intros ?%list_elem_of_singleton.
    by eapply Htimer.
  - case_match eqn:Ex; [|done]. eapply keeps_unsettled; [|done].
    apply keeps_action. simpl. intros ?%list_elem_of_singleton. by eapply Hext.
  - case_match eqn:Ex; [|done]. eapply keeps_unsettled; [|done].
    apply keeps_action. simpl. intros ?%list_elem_of_singleton. by eapply Hext.
Qed.

(** The step [e] fires the timer of [P]. *)
Definition fires (P : pid) (e : event) (s : state) : bool :=
  match e, queue s, timers s with
  | ETimer, [], t :: _ => bool_decide (t_resolve t = P)
  | _, _, _ => false
  end.

(** [timing P due s]: the promise [P] is resolved by a timer due at [due]
    and by nothing else. *)
Record timing (P : pid) (due : Z) (s : state) : Prop := {
  tm_wf : wf s;
  tm_governed : governed P [] true s;
  tm_timer : timer_feeds P s;
  tm_due : ∀ t, t ∈ timers s → t_resolve t = P → t_due t = due;
  tm_clock : unsettled P s = true ∨ (due ≤ now s)%Z
}.

Lemma no_sources P (src : pid) (r : reaction) (σ : settlement) :
  (src, r) ∈ @nil (pid * reaction) → plain σ → is_Some (job_effect P (JReaction r σ)).
Proof. by intros ?%elem_of_nil. Qed.

Lemma timing_step P due s e : timing P due s → timing P due (step e s).
Proof.
  intros [Hwf Hgov Ht Hdue Hclock]. constructor.
  - by apply wf_step.
  - apply governed_step; [apply no_sources|done..].
  - by eapply timer_feeds_step.
  - intros t Hin. apply Hdue. by eapply timers_step.
  - destruct Hclock as [HP|Hnow]; [|right; etrans; [done|apply now_step]].
    destruct (fires P e s) eqn:Hf.
    + right. unfold fires in Hf. destruct e; try done.
      destruct (queue s) as [|j q] eqn:Hq; [|done].
      destruct (timers s) as [|t ts] eqn:Hts; [done|].
      apply bool_decide_eq_true in Hf. unfold step. rewrite Hq, Hts.
      match goal with
      | |- (_ ≤ now (apply_action ?a ?s'))%Z =>
          destruct (appends_action s' a) as (_ & _ & ->)
      end.
      simpl. rewrite (Hdue t); [lia|by left|done].
    + left. eapply governed_step_unsettled; try done.
      * by intros ?? ?%elem_of_nil.
      * intros t ts -> Hq Hts HtP. unfold fires in Hf. rewrite Hq, Hts in Hf.
        by apply bool_decide_eq_false in Hf.
Qed.

Lemma timing_exec P due s sched : timing P due s → timing P due (exec sched s).
Proof.
  revert s. induction sched as [|e sched IH]; intros s H; [done|].
  simpl. by apply IH, timing_step.
Qed.

Lemma timing_settled P due s ρ :
  timing P due s → settled_as P ρ s → ρ = Fulfilled VUndefined ∧ (due ≤ now s)%Z.
Proof.
  intros [Hwf Hgov Ht Hdue Hclock] Hρ. split.
  - destruct (governed_settled _ _ _ _ _ Hgov Hρ)
      as [(j & (src & r & σ' & _ & Hin & _) & _)|[_ ->]]; [|done].
    by apply elem_of_nil in Hin.
  - destruct Hclock as [HP|?]; [|done]. by destruct (settled_not_unsettled _ _ _ Hρ HP).
Qed.

Lemma timing_rest P due s :
  timing P due s → timers s = [] → settled_as P (Fulfilled VUndefined) s.
Proof.
  intros Htm Hts. destruct (tm_timer _ _ _ Htm) as [[ρ Hρ]|(t & Hin & _)].
  - by destruct (timing_settled _ _ _ _ Htm Hρ) as [<- _].
  - rewrite Hts in Hin. by apply elem_of_nil in Hin.
Qed.

Lemma timing_alloc P due s o : timing P due s → timing P due (alloc o s).2.
Proof.
  intros [Hwf Hgov Ht Hdue Hclock]. constructor.
  - by apply wf_alloc.
  - by apply governed_alloc.
  - destruct Ht as [[τ Hτ]|?]; [left|by right].
    exists τ. eapply stable_settled; [apply stable_alloc|done].
  - done.
  - destruct Hclock as [HP|?]; [left|by right].
    eapply keeps_unsettled; [apply keeps_alloc|done].
Qed.

Lemma timing_subscribe P due s p r :
  timing P due s → P ∉ reaction_caps r →
  (∀ q, q ∈ reaction_caps r → q < length (heap s)) →
  timing P due (subscribe p r s).
Proof.
  intros [Hwf Hgov Ht Hdue Hclock] HP Hcaps.
  destruct (appends_subscribe s p r) as (_ & Ets & Enow). constructor.
  - by apply wf_subscribe.
  - by apply governed_subscribe.
  - destruct Ht as [[τ Hτ]|?]; [left|right; by rewrite Ets].
    exists τ. eapply stable_settled; [apply stable_subscribe|done].
  - by rewrite Ets.
  - destruct Hclock as [?|?]; [left|right; by rewrite Enow].
    eapply keeps_unsettled; [apply keeps_subscribe|done].
Qed.

Lemma timing_setTimeout P due s p ms :
  timing P due s → p ≠ P → p < length (heap s) → timing P due (setTimeout p ms s).2.
Proof.
  intros [Hwf Hgov Ht Hdue Hclock] Hp Hlt. constructor.
  - by apply wf_setTimeout.
  - by apply governed_setTimeout.
  - destruct Ht as [?|(t & Hin & HtP)]; [by left|right].
    exists t. split; [|done]. simpl. apply elem_of_insert_timer. by right.
  - simpl. intros t [->|Hin]%elem_of_insert_timer HtP; [done|by apply Hdue].
  - done.
Qed.

(** The state after [delay(milliseconds)]. *)
Lemma timing_after_delay milliseconds s :
  wf s →
  timing (length (heap s)) (now s + timer_delay milliseconds)
    (setTimeout (length (heap s)) milliseconds (alloc Internal s).2).2.
Proof.
  intros Hwf. constructor.
  - apply wf_setTimeout; [by apply wf_alloc|]. rewrite length_heap_alloc. lia.
  - apply governed_setTimeout; [by apply governed_fresh|done].
  - right. eexists. split; [simpl; apply elem_of_insert_timer; by left|done].
  - simpl. intros t [->|Hin]%elem_of_insert_timer HtP; [done|].
    pose proof (wf_timers _ Hwf t Hin). lia.
  - left. by apply unsettled_fresh.
Qed.

Lemma timing_after_delayWithResult result milliseconds s :
  wf s →
  timing (length (heap s) + 1) (now s + timer_delay milliseconds)
    (after_delayWithResult result milliseconds s).
Proof.
  intros Hwf. unfold after_delayWithResult.
  pose proof (timing_after_delay milliseconds (alloc Internal s).2
                (wf_alloc _ Internal Hwf)) as Htm.
  rewrite length_heap_alloc in Htm. rewrite <-Nat.add_1_r in Htm.
  apply timing_subscribe; [exact Htm| |].
  - unfold reaction_caps. simpl. intros Hin. lookup_simpl. lia.
  - unfold reaction_caps. simpl. intros q Hq. lookup_simpl.
    rewrite length_app. simpl. rewrite length_app. simpl. lia.
Qed.

(** X1: the promise of [delay(milliseconds)] is pending when the call
    returns; the event loop comes to rest; once no timer is left the
    promise is fulfilled with [undefined]; and at no moment of any schedule
    is it rejected or fulfilled with anything else. *)
Theorem delay_fulfils_with_undefined milliseconds s p s1 :
  wf s → delay milliseconds s = (p, s1) →
  unsettled p s1 = true ∧
  (∃ sched, queue (exec sched s1) = [] ∧ timers (exec sched s1) = []) ∧
  (∀ sched, timers (exec sched s1) = [] →
     settled_as p (Fulfilled VUndefined) (exec sched s1)) ∧
  (∀ sched ρ, settled_as p ρ (exec sched s1) → ρ = Fulfilled VUndefined).
Proof.
  intros Hwf. rewrite delay_eq. intros [= <- <-].
  pose proof (timing_after_delay milliseconds s Hwf) as Htm.
  split; [|split; [|split]].
  - eapply keeps_unsettled; [|by apply (unsettled_fresh s Internal)].
    by apply keeps_same_heap.
  - apply comes_to_rest, (tm_wf _ _ _ Htm).
  - intros sched Hts. eapply timing_rest; [by apply timing_exec|done].
  - intros sched ρ Hρ. eapply timing_settled; [by apply timing_exec|done].
Qed.

Lemma delay_fulfils_with_undefined_witness :
  let call := delay 400 two_pending in
  unsettled call.1 call.2 = true ∧
  settled_as call.1 (Fulfilled VUndefined) (exec [ETimer] call.2) ∧
  (∀ sched ρ, settled_as call.1 ρ (exec sched call.2) → ρ = Fulfilled VUndefined).
Proof.
  destruct (delay_fulfils_with_undefined 400 two_pending
              (delay 400 two_pending).1 (delay 400 two_pending).2
              (proj1 ready_two_pending) eq_refl) as (Hpending & _ & Hrest & Hsafe).
  split; [exact Hpending|]. split; [|exact Hsafe].
  exact (Hrest [ETimer] eq_refl).
Defined.

(** X2: the promise of [delay(milliseconds)] is not settled before its
    time has come: in every state of every schedule in which it is settled,
    the clock has reached the time of the call plus the delay the host
    gives the timer, which is [milliseconds] from 1 to [TIMEOUT_MAX] and
    1 ms for every other argument (zero, negative, or too large). *)
Theorem delay_not_before_due milliseconds s p s1 sched ρ :
  wf s → delay milliseconds s = (p, s1) →
  settled_as p ρ (exec sched s1) →
  (now s + timer_delay milliseconds ≤ now (exec sched s1))%Z.
Proof.
  intros Hwf. rewrite delay_eq. intros [= <- <-] Hρ.
  eapply timing_settled; [|done]. by apply timing_exec, timing_after_delay.
Qed.

Lemma delay_not_before_due_witness :
  let call := delay 400 two_pending in
  let long := delay 2147483648 two_pending in
  settled_as call.1 (Fulfilled VUndefined) (exec [ETimer] call.2) ∧
  (now two_pending + 400 ≤ now (exec [ETimer] call.2))%Z ∧
  settled_as long.1 (Fulfilled VUndefined) (exec [ETimer] long.2) ∧
  (now two_pending + 1 ≤ now (exec [ETimer] long.2))%Z.
Proof.
  assert (settled_as (delay 400 two_pending).1 (Fulfilled VUndefined)
            (exec [ETimer] (delay 400 two_pending).2)) as H by reflexivity.
  assert (settled_as (delay 2147483648 two_pending).1 (Fulfilled VUndefined)
            (exec [ETimer] (delay 2147483648 two_pending).2)) as H' by reflexivity.
  split; [exact H|]. split; [|split; [exact H'|]].
  - exact (delay_not_before_due 400 two_pending
             (delay 400 two_pending).1 (delay 400 two_pending).2 [ETimer]
             (Fulfilled VUndefined) (proj1 ready_two_pending) eq_refl H).
  - exact (delay_not_before_due 2147483648 two_pending
             (delay 2147483648 two_pending).1 (delay 2147483648 two_pending).2 [ETimer]
             (Fulfilled VUndefined) (proj1 ready_two_pending) eq_refl H').
Defined.

(** X4: the promise of [delayWithResult(result, milliseconds)], for a
    [result] that is not thenable, is pending when the call returns and is
    not settled before the delay of its timer has passed: [milliseconds]
    from 1 to [TIMEOUT_MAX], and 1 ms for every other argument. *)
Theorem delayWithResult_not_before_due result milliseconds s p s1 :
  wf s → thenable result = false →
  delayWithResult result milliseconds s = (p, s1) →
  unsettled p s1 = true ∧
  ∀ sched ρ, settled_as p ρ (exec sched s1) →
    (now s + timer_delay milliseconds ≤ now (exec sched s1))%Z.
Proof.
  intros Hwf Hr. rewrite delayWithResult_eq. intros [= <- <-].
  pose proof (delaying_after result milliseconds s Hwf) as Hd.
  pose proof (timing_after_delayWithResult result milliseconds s Hwf) as Htm.
  split.
  - destruct (governed_cases _ _ _ _ (dl_ret _ _ _ Hd)) as [?|[ρ Hρ]]; [done|].
    destruct (governed_settled _ _ _ _ _ (dl_ret _ _ _ Hd) Hρ)
      as [(j & (src & r & σ & -> & Hin & Hσ) & _)|[? _]]; [|done].
    lookup_simpl.
    destruct (timing_settled _ _ _ _ Htm Hσ) as [_ Hnow].
    destruct (tm_clock _ _ _ Htm) as [Hun|?];
      [by destruct (settled_not_unsettled _ _ _ Hσ Hun)|].
    exfalso. clear -Hσ. unfold after_delayWithResult in Hσ.
    eapply settled_not_unsettled; [exact Hσ|].
    eapply keeps_unsettled; [apply keeps_subscribe|].
    eapply keeps_unsettled; [by apply keeps_same_heap|].
    apply unsettled_fresh. rewrite length_heap_alloc. lia.
  - intros sched ρ Hρ.
    pose proof (delaying_exec _ _ _ sched Hr Hd) as Hd'.
    pose proof (timing_exec _ _ _ sched Htm) as Htm'.
    destruct (governed_settled _ _ _ _ _ (dl_ret _ _ _ Hd') Hρ)
      as [(j & (src & r & σ & -> & Hin & Hσ) & _)|[? _]]; [|done].
    lookup_simpl. eapply timing_settled; done.
Qed.

Lemma delayWithResult_not_before_due_witness :
  let call := delayWithResult (VString "data") 1000 two_pending in
  unsettled call.1 call.2 = true ∧
  settled_as call.1 (Fulfilled (VString "data")) (exec [ETimer; EJob] call.2) ∧
  (now two_pending + timer_delay 1000 ≤ now (exec [ETimer; EJob] call.2))%Z.
Proof.
  destruct (delayWithResult_not_before_due (VString "data") 1000 two_pending
              (delayWithResult (VString "data") 1000 two_pending).1
              (delayWithResult (VString "data") 1000 two_pending).2
              (proj1 ready_two_pending) eq_refl eq_refl) as [Hpending Hdue].
  assert (settled_as (delayWithResult (VString "data") 1000 two_pending).1
            (Fulfilled (VString "data"))
            (exec [ETimer; EJob] (delayWithResult (VString "data") 1000 two_pending).2))
    as H by reflexivity.
  split; [exact Hpending|]. split; [exact H|].
  exact (Hdue [ETimer; EJob] (Fulfilled (VString "data")) H).
Defined.

(** ** [retrieve] *)

Definition retrieve_reaction (ret : pid) : reaction := Reaction (HResolving ret) None.

Lemma job_effect_retrieve ret σ :
  plain σ → job_effect ret (JReaction (retrieve_reaction ret) σ) = Some σ.
Proof.
  intros Hσ. unfold job_effect. destruct σ as [v|e]; simpl in *.
  - rewrite filter_cons_True by (simpl; by left). rewrite filter_nil. simpl.
    by rewrite Hσ.
  - rewrite filter_cons_True by (simpl; by left). by rewrite filter_nil.
Qed.

Lemma well_behaved_retrieve (q ret : pid) (src : pid) r σ :
  (src, r) ∈ [(q, retrieve_reaction ret)] → plain σ →
  is_Some (job_effect ret (JReaction r σ)).
Proof. intros Hin Hσ. lookup_simpl. rewrite job_effect_retrieve by done. by eexists. Qed.

(** [mirroring q ret s]: the promise [ret] of a call of [retrieve] awaits
    the promise [q] and nothing else can settle it. *)
Record mirroring (q ret : pid) (s : state) : Prop := {
  mr_wf : wf s;
  mr_ret : governed ret [(q, retrieve_reaction ret)] false s;
  mr_feed : feeds q (retrieve_reaction ret) ret s
}.

Lemma mirroring_step q ret s e : mirroring q ret s → mirroring q ret (step e s).
Proof.
  intros [Hwf Hgov Hf]. constructor.
  - by apply wf_step.
  - apply governed_step; [apply well_behaved_retrieve|done..].
  - eapply feeds_step; [apply well_behaved_retrieve|done..|by left|done].
Qed.

Lemma mirroring_exec q ret s sched : mirroring q ret s → mirroring q ret (exec sched s).
Proof.
  revert s. induction sched as [|e sched IH]; intros s H; [done|].
  simpl. by apply IH, mirroring_step.
Qed.

Lemma mirroring_settled q ret s ρ :
  mirroring q ret s → settled_as ret ρ s → settled_as q ρ s.
Proof.
  intros [Hwf Hgov Hf] Hρ.
  destruct (governed_settled _ _ _ _ _ Hgov Hρ)
    as [(j & (src & r & σ & -> & Hin & Hσ) & Heff)|[? _]]; [|done].
  lookup_simpl.
  rewrite job_effect_retrieve in Heff by (by eapply settled_plain).
  by simplify_eq.
Qed.

Lemma mirroring_quiet q ret s σ :
  mirroring q ret s → queue s = [] → settled_as q σ s → settled_as ret σ s.
Proof.
  intros Hm Hq Hσ. destruct (feeds_quiet _ _ _ _ _ (mr_feed _ _ _ Hm) Hq Hσ) as [ρ Hρ].
  pose proof (mirroring_settled _ _ _ _ Hm Hρ) as Hρ'.
  by rewrite (settled_as_inj _ _ _ _ Hσ Hρ').
Qed.

Lemma governed_weaken P srcs srcs' timed s :
  (∀ x, x ∈ srcs → x ∈ srcs') → governed P srcs timed s → governed P srcs' timed s.
Proof.
  intros Hsub [(st & HP & Hst) Hr Hq Ht].
  assert (∀ j, designated srcs s j → designated srcs' s j) as Hd.
  { intros j (src & r & σ & ? & ? & ?). exists src, r, σ. eauto. }
  constructor; [|by eauto..].
  exists st. split; [done|]. destruct st as [|τ]; [done|].
  destruct Hst as [(j & ? & ?)|?]; [left|by right]. exists j. eauto.
Qed.

(** [retrieve] has called its functor and awaits what it returned. *)
Lemma mirroring_await q ret s :
  wf s → governed ret [] false s → q < length (heap s) →
  mirroring q ret (subscribe q (retrieve_reaction ret) s).
Proof.
  intros Hwf Hgov Hq.
  pose proof (governed_lt _ _ _ _ Hgov) as Hret. constructor.
  - apply wf_subscribe; [done|]. unfold reaction_caps. simpl.
    intros p Hp. by lookup_simpl.
  - apply governed_subscribe; [|by left].
    eapply governed_weaken; [|done]. by intros ? ?%elem_of_nil.
  - by apply feeds_subscribe.
Qed.

Lemma retrieve_promise_eq q s :
  retrieve (mret (Return (VPromise q))) s =
    (length (heap s), subscribe q (retrieve_reaction (length (heap s))) (alloc Internal s).2).
Proof. done. Qed.

Lemma retrieve_plain_eq v s :
  is_promise v = false →
  retrieve (mret (Return v)) s =
    (length (heap s),
     subscribe (length (heap s) + 1) (retrieve_reaction (length (heap s)))
       (settle (length (heap s) + 1) (Fulfilled v)
          (alloc Internal (alloc Internal s).2).2)).
Proof.
  intros Hv. unfold retrieve, promise_resolve, await.
  destruct v; try done;
    unfold mbind, mret, M_bind, M_ret, lift; simpl;
    rewrite length_app; simpl; by rewrite Nat.add_1_r.
Qed.

Lemma retrieve_throw_eq e s :
  retrieve (mret (Throw e)) s =
    (length (heap s), settle (length (heap s)) (Rejected e) (alloc Internal s).2).
Proof. done. Qed.

Lemma settled_as_settle s p σ :
  unsettled p s = true → settled_as p σ (settle p σ s).
Proof.
  intros (o & l & rs & E)%unsettled_true.
  rewrite (settle_pending _ _ _ _ _ _ E). unfold settled_as, status. simpl.
  rewrite list_lookup_insert_eq; [done|by eapply lookup_lt_Some].
Qed.

(** X6: [retrieve(functor)] with a functor that returns a promise [q]:
    the call returns a pending promise that mirrors [q].  Under every
    schedule it is settled only as [q] is settled (the same value or the
    same reason), and in every state in which [q] is settled and no job is
    left it is settled so. *)
Theorem retrieve_mirrors_promise q s p s1 :
  wf s → q < length (heap s) →
  retrieve (mret (Return (VPromise q))) s = (p, s1) →
  unsettled p s1 = true ∧
  ∀ sched,
    (∀ ρ, settled_as p ρ (exec sched s1) → settled_as q ρ (exec sched s1)) ∧
    (∀ σ, queue (exec sched s1) = [] → settled_as q σ (exec sched s1) →
          settled_as p σ (exec sched s1)).
Proof.
  intros Hwf Hq. rewrite retrieve_promise_eq. intros [= <- <-].
  assert (mirroring q (length (heap s))
            (subscribe q (retrieve_reaction (length (heap s))) (alloc Internal s).2))
    as Hm.
  { apply mirroring_await; [by apply wf_alloc|by apply governed_fresh|].
    rewrite length_heap_alloc. lia. }
  split.
  - eapply keeps_unsettled; [apply keeps_subscribe|]. by apply unsettled_fresh.
  - intros sched. pose proof (mirroring_exec _ _ _ sched Hm) as Hm'. split.
    + intros ρ. by apply mirroring_settled.
    + intros σ. by apply mirroring_quiet.
Qed.

Lemma retrieve_mirrors_promise_witness :
  let call := retrieve (mret (Return (VPromise 1))) two_pending in
  let s2 := exec [EReject 1 (VString "boom"); EJob] call.2 in
  unsettled call.1 call.2 = true ∧ queue s2 = [] ∧
  settled_as 1 (Rejected (VString "boom")) s2 ∧
  settled_as call.1 (Rejected (VString "boom")) s2.
Proof.
  destruct (retrieve_mirrors_promise 1 two_pending
              (retrieve (mret (Return (VPromise 1))) two_pending).1
              (retrieve (mret (Return (VPromise 1))) two_pending).2
              (proj1 ready_two_pending) (proj2 (proj2 ready_two_pending))
              (surjective_pairing _))
    as [Hpending H].
  destruct (H [EReject 1 (VString "boom"); EJob]) as [_ Hlive].
  assert (queue (exec [EReject 1 (VString "boom"); EJob]
            (retrieve (mret (Return (VPromise 1))) two_pending).2) = []) as Hq
    by reflexivity.
  assert (settled_as 1 (Rejected (VString "boom"))
            (exec [EReject 1 (VString "boom"); EJob]
               (retrieve (mret (Return (VPromise 1))) two_pending).2)) as H1
    by reflexivity.
  split; [exact Hpending|]. split; [exact Hq|]. split; [exact H1|].
  exact (Hlive (Rejected (VString "boom")) Hq H1).
Defined.

(** X5: [retrieve(functor)] with a functor that returns a value [v] that
    is not thenable (neither a promise nor any other object with a method
    [then]): the call returns a promise that is still pending; the jobs
    drain; in every state with no job left the promise is fulfilled with
    [v]; and it is never settled with anything else. *)
Theorem retrieve_immediate_value v s p s1 :
  wf s → thenable v = false →
  retrieve (mret (Return v)) s = (p, s1) →
  unsettled p s1 = true ∧
  (∃ m, queue (exec (replicate m EJob) s1) = []) ∧
  (∀ sched, queue (exec sched s1) = [] →
     settled_as p (Fulfilled v) (exec sched s1)) ∧
  (∀ sched ρ, settled_as p ρ (exec sched s1) → ρ = Fulfilled v).
Proof.
  intros Hwf Hv. rewrite retrieve_plain_eq by done. intros [= <- <-].
  set (n := length (heap s)).
  set (s2 := (alloc Internal (alloc Internal s).2).2).
  set (s3 := settle (n + 1) (Fulfilled v) s2).
  assert (length (heap s2) = n + 2) as Hlen.
  { unfold s2. rewrite !length_heap_alloc. lia. }
  assert (wf s2) as Hwf2 by (by apply wf_alloc, wf_alloc).
  assert (unsettled (n + 1) s2 = true) as Hq2.
  { apply unsettled_fresh. rewrite length_heap_alloc. lia. }
  assert (settled_as (n + 1) (Fulfilled v) s3) as Hq3 by (by apply settled_as_settle).
  assert (mirroring (n + 1) n (subscribe (n + 1) (retrieve_reaction n) s3)) as Hm.
  { apply mirroring_await.
    - by apply wf_settle.
    - apply governed_settle; [|lia]. by apply governed_alloc, governed_fresh.
    - pose proof (stable_length _ _ (stable_settle s2 (n + 1) (Fulfilled v))).
      fold s3 in H. lia. }
  assert (∀ sched, settled_as (n + 1) (Fulfilled v)
            (exec sched (subscribe (n + 1) (retrieve_reaction n) s3))) as Hq'.
  { intros sched. eapply stable_settled; [apply stable_exec|].
    eapply stable_settled; [apply stable_subscribe|done]. }
  split; [|split; [|split]].
  - eapply keeps_unsettled; [apply keeps_subscribe|].
    eapply keeps_unsettled; [apply keeps_settle; lia|]. unfold s2.
    eapply keeps_unsettled; [apply (keeps_alloc n (alloc Internal s).2 Internal)|].
    by apply unsettled_fresh.
  - apply drains, (mr_wf _ _ _ Hm).
  - intros sched Hq. eapply mirroring_quiet; [by apply mirroring_exec|done|done].
  - intros sched ρ Hρ.
    pose proof (mirroring_settled _ _ _ _ (mirroring_exec _ _ _ sched Hm) Hρ) as Hρ'.
    by rewrite (settled_as_inj _ _ _ _ Hρ' (Hq' sched)).
Qed.

Lemma retrieve_immediate_value_witness :
  let call := retrieve (mret (Return (VString "Immediate result"))) two_pending in
  unsettled call.1 call.2 = true ∧
  settled_as call.1 (Fulfilled (VString "Immediate result")) (exec [EJob] call.2).
Proof.
  destruct (retrieve_immediate_value (VString "Immediate result") two_pending
              (retrieve (mret (Return (VString "Immediate result"))) two_pending).1
              (retrieve (mret (Return (VString "Immediate result"))) two_pending).2
              (proj1 ready_two_pending) eq_refl (surjective_pairing _))
    as (Hpending & _ & Hrest & _).
  split; [exact Hpending|]. exact (Hrest [EJob] eq_refl).
Defined.

(** X7: [retrieve(functor)] with a functor that throws [e] does not throw:
    it returns a promise that is rejected with [e], and stays so under
    every schedule. *)
Theorem retrieve_rejects_what_functor_throws e s sched :
  settled_as (retrieve (mret (Throw e)) s).1 (Rejected e)
    (exec sched (retrieve (mret (Throw e)) s).2).
Proof.
  rewrite retrieve_throw_eq. cbn [fst snd].
  eapply stable_settled; [apply stable_exec|].
  by apply settled_as_settle, unsettled_fresh.
Qed.

(** *** [retrieve(() => delayWithResult(result, milliseconds))] *)

Lemma governed_after_delayWithResult P srcs timed result milliseconds s :
  governed P srcs timed s →
  governed P srcs timed (after_delayWithResult result milliseconds s).
Proof.
  intros Hgov. pose proof (governed_lt _ _ _ _ Hgov) as HP.
  unfold after_delayWithResult. apply governed_subscribe.
  - apply governed_setTimeout; [by apply governed_alloc, governed_alloc|lia].
  - unfold reaction_caps. simpl. intros Hin. lookup_simpl. lia.
Qed.

Lemma delaying_subscribe result n s p r :
  delaying result n s → n ∉ reaction_caps r → n + 1 ∉ reaction_caps r →
  (∀ q, q ∈ reaction_caps r → q < length (heap s)) →
  delaying result n (subscribe p r s).
Proof.
  intros [Hwf Hd Hret Hf Ht] H0 H1 Hcaps.
  destruct (appends_subscribe s p r) as (_ & Ets & _). constructor.
  - by apply wf_subscribe.
  - by apply governed_subscribe.
  - by apply governed_subscribe.
  - eapply feeds_advances; [apply advances_subscribe|done].
  - destruct Ht as [[τ Hτ]|?]; [left|right; by rewrite Ets].
    exists τ. eapply stable_settled; [apply stable_subscribe|done].
Qed.

Definition delayed (result : value) (milliseconds : Z) : M completion :=
  d ← delayWithResult result milliseconds;
  mret (Return (VPromise d)).

Lemma retrieve_delayed_eq result milliseconds s :
  retrieve (delayed result milliseconds) s =
    (length (heap s),
     subscribe (length (heap s) + 1) (retrieve_reaction (length (heap s)))
       (after_delayWithResult result milliseconds (alloc Internal s).2)).
Proof.
  unfold retrieve, delayed, promise_resolve, await.
  unfold mbind, mret, M_bind, M_ret, lift.
  cbn [alloc fst snd]. rewrite delayWithResult_eq.
  cbn [set_heap heap]. rewrite length_app. cbn [length].
  by rewrite Nat.add_1_r.
Qed.

(** X8: [retrieve(() => delayWithResult(result, milliseconds))], for a
    [result] that is not thenable: the promise returned is pending at
    first; the event loop comes to rest; in every state at rest the promise
    is fulfilled with [result]; it is never settled with anything else, and
    never before the delay of the timer has passed ([milliseconds] from 1
    to [TIMEOUT_MAX], and 1 ms for every other argument). *)
Theorem retrieve_delayWithResult result milliseconds s p s1 :
  wf s → thenable result = false →
  retrieve (delayed result milliseconds) s = (p, s1) →
  unsettled p s1 = true ∧
  (∃ sched, queue (exec sched s1) = [] ∧ timers (exec sched s1) = []) ∧
  (∀ sched, queue (exec sched s1) = [] → timers (exec sched s1) = [] →
     settled_as p (Fulfilled result) (exec sched s1)) ∧
  (∀ sched ρ, settled_as p ρ (exec sched s1) →
     ρ = Fulfilled result ∧
     (now s + timer_delay milliseconds ≤ now (exec sched s1))%Z).
Proof.
  intros Hwf Hr. rewrite retrieve_delayed_eq. intros [= <- <-].
  set (n := length (heap s)).
  set (s0 := (alloc Internal s).2).
  set (s2 := after_delayWithResult result milliseconds s0).
  assert (length (heap s0) = n + 1) as Hlen0.
  { unfold s0. rewrite length_heap_alloc. lia. }
  assert (wf s0) as Hwf0 by (by apply wf_alloc).
  pose proof (delaying_after result milliseconds s0 Hwf0) as Hd.
  pose proof (timing_after_delayWithResult result milliseconds s0 Hwf0) as Htm.
  rewrite Hlen0 in Hd, Htm. fold s2 in Hd, Htm.
  assert (length (heap s2) = n + 3) as Hlen2.
  { unfold s2, after_delayWithResult. rewrite length_heap_subscribe. simpl.
    rewrite !length_app. simpl. fold n. lia. }
  set (s3 := subscribe (n + 1) (retrieve_reaction n) s2).
  assert (mirroring (n + 1) n s3) as Hm.
  { apply mirroring_await; [apply (dl_wf _ _ _ Hd)| |lia].
    apply governed_after_delayWithResult. by apply governed_fresh. }
  assert (delaying result (n + 1) s3) as Hd3.
  { apply delaying_subscribe; [done|..]; unfold reaction_caps; simpl;
      first [intros ?%list_elem_of_singleton; lia|intros; lookup_simpl; lia]. }
  assert (timing (n + 1 + 1) (now s + timer_delay milliseconds) s3) as Htm3.
  { apply timing_subscribe; [done|..]; unfold reaction_caps; simpl;
      first [intros ?%list_elem_of_singleton; lia|intros; lookup_simpl; lia]. }
  split; [|split; [|split]].
  - destruct (governed_cases _ _ _ _ (mr_ret _ _ _ Hm)) as [?|[ρ Hρ]]; [done|].
    apply (mirroring_settled _ _ _ _ Hm) in Hρ.
    pose proof (delaying_settled _ _ _ _ Hr Hd3 Hρ) as ->.
    destruct (governed_settled _ _ _ _ _ (dl_ret _ _ _ Hd3) Hρ)
      as [(j & (src & r & σ & -> & Hin & Hσ) & _)|[? _]]; [|done].
    lookup_simpl. exfalso. eapply settled_not_unsettled; [exact Hσ|].
    unfold s3, s2, after_delayWithResult.
    eapply keeps_unsettled; [apply keeps_subscribe|].
    eapply keeps_unsettled; [apply keeps_subscribe|].
    eapply keeps_unsettled; [by apply keeps_same_heap|].
    apply unsettled_fresh. unfold s0, n. simpl. rewrite length_app. simpl. lia.
  - apply comes_to_rest, (mr_wf _ _ _ Hm).
  - intros sched Hq Hts.
    eapply mirroring_quiet; [by apply mirroring_exec|done|].
    apply delaying_rest; [done|by apply delaying_exec|done..].
  - intros sched ρ Hρ.
    apply (mirroring_settled _ _ _ _ (mirroring_exec _ _ _ sched Hm)) in Hρ.
    pose proof (delaying_exec _ _ _ sched Hr Hd3) as Hd'.
    pose proof (delaying_settled _ _ _ _ Hr Hd' Hρ) as ->. split; [done|].
    destruct (governed_settled _ _ _ _ _ (dl_ret _ _ _ Hd') Hρ)
      as [(j & (src & r & σ & -> & Hin & Hσ) & _)|[? _]]; [|done].
    lookup_simpl. eapply timing_settled; [by apply timing_exec|done].
Qed.

Lemma retrieve_delayWithResult_witness :
  let call := retrieve (delayed (VString "Delayed result") 1000) two_pending in
  unsettled call.1 call.2 = true ∧
  settled_as call.1 (Fulfilled (VString "Delayed result"))
    (exec [ETimer; EJob; EJob] call.2).
Proof.
  destruct (retrieve_delayWithResult (VString "Delayed result") 1000 two_pending
              (retrieve (delayed (VString "Delayed result") 1000) two_pending).1
              (retrieve (delayed (VString "Delayed result") 1000) two_pending).2
              (proj1 ready_two_pending) eq_refl (surjective_pairing _))
    as (Hpending & _ & Hrest & _).
  split; [exact Hpending|]. exact (Hrest [ETimer; EJob; EJob] eq_refl eq_refl).
Defined.

(** ** The order in which timers fire *)

Fixpoint sorted_timers (ts : list timer) : Prop :=
  match ts with
  | [] => True
  | t :: ts => Forall (λ t', (t_due t ≤ t_due t')%Z) ts ∧ sorted_timers ts
  end.

(** The timers of a state are in firing order. *)
Definition chronological (s : state) : Prop := sorted_timers (timers s).

Lemma sorted_insert_timer t ts : sorted_timers ts → sorted_timers (insert_timer t ts).
Proof.
  induction ts as [|t' ts IH]; simpl; [by split|].
  intros [Hall Hs]. case_decide as Hle; simpl.
  - split; [|by apply IH]. apply list.Forall_forall.
    intros x [->|Hx]%elem_of_insert_timer; [done|].
    by eapply list.Forall_forall in Hall.
  - split; [|done]. constructor; [lia|].
    eapply Forall_impl; [|exact Hall]. simpl. intros. lia.
Qed.

(** A new timer goes behind every timer that is due no later. *)
Lemma insert_timer_behind t ts t1 :
  sorted_timers ts → t1 ∈ ts → (t_due t1 ≤ t_due t)%Z →
  ∃ l1 l2, insert_timer t ts = l1 ++ t1 :: l2 ∧ ∀ x, x ∈ l1 → x ∈ ts.
Proof.
  induction ts as [|t' ts IH]; simpl; [by intros _ ?%elem_of_nil|].
  intros [Hall Hs] Hin Hle.
  assert (t_due t' ≤ t_due t1)%Z as Hle'.
  { apply elem_of_cons in Hin as [->|Hin]; [done|].
    by eapply list.Forall_forall in Hall. }
  rewrite decide_True by lia.
  apply elem_of_cons in Hin as [->|Hin].
  - exists [], (insert_timer t ts). split; [done|]. by intros x ?%elem_of_nil.
  - destruct (IH Hs Hin Hle) as (l1 & l2 & -> & Hl1).
    exists (t' :: l1), l2. split; [done|].
    intros x [->|Hx]%elem_of_cons; [by left|right; eauto].
Qed.


(** A step leaves the timers alone or fires the first one. *)
Lemma timers_step_cases s e :
  (timers (step e s) = timers s ∧ ∀ P, fires P e s = false) ∨
  (∃ t ts, e = ETimer ∧ queue s = [] ∧ timers s = t :: ts ∧ timers (step e s) = ts).
Proof.
  destruct e as [| |p v|p r].
  - left. split; [apply timers_step_job|done].
  - unfold step, fires. destruct (queue s) as [|j q]; [|by left].
    destruct (timers s) as [|t ts] eqn:Et; [left; by rewrite Et|].
    right. exists t, ts. repeat split.
    match goal with
    | |- timers (apply_action ?a ?s') = _ =>
        by destruct (appends_action s' a) as (_ & -> & _)
    end.
  - left. split; [|done]. unfold step. case_match; [|done].
    by destruct (appends_action s (AResolve p v)) as (_ & -> & _).
  - left. split; [|done]. unfold step. case_match; [|done].
    by destruct (appends_action s (AReject p r)) as (_ & -> & _).
Qed.

Lemma chronological_step s e : chronological s → chronological (step e s).
Proof.
  unfold chronological.
  destruct (timers_step_cases s e) as [[-> _]|(t & ts & _ & _ & -> & ->)]; [done|].
  simpl. tauto.
Qed.

Lemma chronological_exec s sched : chronological s → chronological (exec sched s).
Proof.
  revert s. induction sched as [|e sched IH]; intros s H; [done|].
  simpl. by apply IH, chronological_step.
Qed.

Lemma chronological_setTimeout s p ms :
  chronological s → chronological (setTimeout p ms s).2.
Proof. apply sorted_insert_timer. Qed.

Lemma chronological_appends s s' : appends s s' → chronological s → chronological s'.
Proof. intros (_ & E & _). unfold chronological. by rewrite E. Qed.

(** [ahead P Q s]: the timer of [P] fires before any timer of [Q]. *)
Definition ahead (P Q : pid) (s : state) : Prop :=
  (∃ τ, settled_as P τ s) ∨
  (unsettled Q s = true ∧
   ∃ l1 t1 l2, timers s = l1 ++ t1 :: l2 ∧ t_resolve t1 = P ∧
     ∀ t, t ∈ l1 → t_resolve t ≠ Q).


Lemma ahead_step P Q s e :
  wf s → governed P [] true s → governed Q [] true s →
  ahead P Q s → ahead P Q (step e s).
Proof.
  intros Hwf HgP HgQ [[τ Hτ]|(HQ & l1 & t1 & l2 & Hts & Ht1 & Hl1)].
  { left. exists τ. eapply stable_settled; [apply stable_step|done]. }
  destruct (timers_step_cases s e) as [[Ets Hf]|(t & ts & -> & Hq & Hts' & Ets)].
  - right. split.
    + eapply governed_step_unsettled; try done.
      * by intros ?? ?%elem_of_nil.
      * intros t ts -> Hq Hts' HtQ. specialize (Hf Q). unfold fires in Hf.
        rewrite Hq, Hts' in Hf. by apply bool_decide_eq_false in Hf.
    + exists l1, t1, l2. by rewrite Ets.
  - rewrite Hts in Hts'. destruct l1 as [|x l1]; simpl in Hts';
      injection Hts' as <- <-.
    + left. destruct (governed_cases _ _ _ _ HgP) as [HP|[τ Hτ]].
      * destruct (governed_unsettled _ _ _ _ HgP HP) as [rs Hrs].
        exists (Fulfilled VUndefined). unfold step. rewrite Hq, Hts. simpl.
        eapply (action_settles _ (AResolve (t_resolve t1) VUndefined));
          [by rewrite Ht1|done].
      * exists τ. eapply stable_settled; [apply stable_step|done].
    + right. split.
      * eapply governed_step_unsettled; try done.
        -- by intros ?? ?%elem_of_nil.
        -- intros t' ts' _ _ Hts' <-. rewrite Hts in Hts'. simpl in Hts'.
           injection Hts' as -> _. eapply Hl1; [by left|done].
      * exists l1, t1, l2. split; [done|]. split; [done|].
        intros t' Ht'. apply Hl1. by right.
Qed.

Lemma ahead_exec P Q dueP dueQ s sched :
  timing P dueP s → timing Q dueQ s → ahead P Q s → ahead P Q (exec sched s).
Proof.
  revert s. induction sched as [|e sched IH]; intros s HP HQ Ha; [done|].
  simpl. apply IH; [by apply timing_step..|].
  apply ahead_step; [apply (tm_wf _ _ _ HP)|apply (tm_governed _ _ _ HP)|
                     apply (tm_governed _ _ _ HQ)|done].
Qed.


Lemma chronological_two_pending : chronological two_pending.
Proof. done. Qed.

(** ** A race against a timer: [properRace(downloadPromise, delay(b))] *)




#[local] Opaque subscribe alloc.

Ltac fresh_caps :=
  unfold reaction_caps, index_reaction, race_reaction, resume_reaction; simpl;
  first [ intros ?%list_elem_of_singleton; lia
        | intros [?|?%list_elem_of_singleton]%elem_of_cons; lia
        | intros; lookup_simpl; heap_len ].


Lemma timing_after_properRace P due first second s :
  timing P due s → first < length (heap s) → second < length (heap s) →
  timing P due (after_properRace first second s).
Proof.
  intros Htm H1 H2. pose proof (governed_lt _ _ _ _ (tm_governed _ _ _ Htm)) as Hm.
  unfold after_properRace, then_at.
  repeat first
    [ assumption
    | apply timing_alloc
    | apply timing_subscribe; [| by fresh_caps..] ].
Qed.



Lemma timers_after_properRace first second s :
  timers (after_properRace first second s) = timers s.
Proof.
  unfold after_properRace, then_at.
  repeat match goal with
  | |- timers (subscribe ?p ?r ?s') = _ =>
      destruct (appends_subscribe s' p r) as (_ & -> & _)
  | |- timers (alloc ?o ?s').2 = _ =>
      destruct (appends_alloc s' o) as (_ & -> & _)
  end.
  done.
Qed.

Lemma now_after_properRace first second s :
  now (after_properRace first second s) = now s.
Proof.
  unfold after_properRace, then_at.
  repeat match goal with
  | |- now (subscribe ?p ?r ?s') = _ =>
      destruct (appends_subscribe s' p r) as (_ & _ & ->)
  | |- now (alloc ?o ?s').2 = _ =>
      destruct (appends_alloc s' o) as (_ & _ & ->)
  end.
  done.
Qed.

#[local] Transparent subscribe alloc.

(** ** What the program does between two calls

    Besides the events of the event loop, the program may start further
    delays and races at any time. *)
Inductive activity :=
| Event (e : event)
| CallDelay (milliseconds : Z)
| CallDelayWithResult (result : value) (milliseconds : Z)
| CallProperRace (first second : pid).

Definition act (a : activity) (s : state) : state :=
  match a with
  | Event e => step e s
  | CallDelay milliseconds => (delay milliseconds s).2
  | CallDelayWithResult result milliseconds => (delayWithResult result milliseconds s).2
  | CallProperRace first second =>
      if decide (first < length (heap s) ∧ second < length (heap s))
      then (properRace first second s).2 else s
  end.

Definition run (acts : list activity) (s : state) : state :=
  foldl (λ s a, act a s) s acts.

Lemma run_events sched s : run (Event <$> sched) s = exec sched s.
Proof. revert s. induction sched as [|e sched IH]; intros s; [done|]. apply IH. Qed.

Lemma timing_act P due s a : timing P due s → timing P due (act a s).
Proof.
  intros Htm. pose proof (governed_lt _ _ _ _ (tm_governed _ _ _ Htm)) as HP.
  destruct a as [e|ms|r ms|first second]; cbn [act].
  - by apply timing_step.
  - rewrite delay_eq. cbn [snd].
    apply timing_setTimeout; [by apply timing_alloc|lia|].
    rewrite length_heap_alloc. lia.
  - rewrite delayWithResult_eq. cbn [snd]. unfold after_delayWithResult.
    apply timing_subscribe.
    + apply timing_setTimeout; [by apply timing_alloc, timing_alloc|lia|].
      rewrite !length_heap_alloc. lia.
    + unfold reaction_caps. simpl. intros ?%list_elem_of_singleton. lia.
    + unfold reaction_caps. simpl. intros q ?%list_elem_of_singleton.
      rewrite !length_app. simpl. lia.
  - case_decide as Hlt; [|done]. rewrite properRace_eq. cbn [snd].
    apply timing_after_properRace; [done|apply Hlt..].
Qed.


Lemma chronological_act s a : chronological s → chronological (act a s).
Proof.
  intros Hch. destruct a as [e|ms|r ms|first second]; cbn [act].
  - by apply chronological_step.
  - rewrite delay_eq. cbn [snd]. apply chronological_setTimeout.
    eapply chronological_appends; [apply (appends_alloc s Internal)|done].
  - rewrite delayWithResult_eq. cbn [snd]. unfold after_delayWithResult.
    eapply chronological_appends; [apply appends_subscribe|].
    apply chronological_setTimeout.
    eapply chronological_appends; [apply appends_alloc|].
    eapply chronological_appends; [apply (appends_alloc s Internal)|done].
  - case_decide as Hlt; [|done]. rewrite properRace_eq. cbn [snd].
    unfold chronological. by rewrite timers_after_properRace.
Qed.

Lemma now_act s a : (now s ≤ now (act a s))%Z.
Proof.
  destruct a as [e|ms|r ms|first second]; cbn [act].
  - apply now_step.
  - done.
  - rewrite delayWithResult_eq. cbn [snd]. unfold after_delayWithResult.
    by destruct (appends_subscribe
      (setTimeout (length (heap s) + 1) ms (alloc Internal (alloc Internal s).2).2).2
      (length (heap s) + 1) (delay_reaction r (length (heap s)))) as (_ & _ & ->).
  - case_decide as Hlt; [|done]. rewrite properRace_eq. cbn [snd].
    by rewrite now_after_properRace.
Qed.

Lemma timing_run P due s acts : timing P due s → timing P due (run acts s).
Proof.
  revert s. induction acts as [|a acts IH]; intros s H; [done|].
  simpl. by apply IH, timing_act.
Qed.


Lemma chronological_run s acts : chronological s → chronological (run acts s).
Proof.
  revert s. induction acts as [|a acts IH]; intros s H; [done|].
  simpl. by apply IH, chronological_act.
Qed.

Lemma now_run s acts : (now s ≤ now (run acts s))%Z.
Proof.
  revert s. induction acts as [|a acts IH]; intros s; [done|].
  simpl. etrans; [apply (now_act s a)|apply IH].
Qed.

(** X3: two calls of [delay], the second at a later moment at which no
    timer other than that of the first call is pending (at most one timer
    is), whatever has happened in between.  A timer is due at the time of
    its call plus the delay the host gives it ([timer_delay]: the argument
    from 1 to [TIMEOUT_MAX], and 1 ms for every other argument, so that
    [delay(0)] and [delay(1)] are due together).  If the first is due no
    later than the second, then under every schedule the second promise is
    never settled before the first: the two timers fire in the order of
    their due times, and in the order of the calls when the times are
    equal. *)
Theorem delay_fires_in_order a b s p1 s1 acts p2 s2 sched2 τ :
  wf s → chronological s →
  delay a s = (p1, s1) → delay b (run acts s1) = (p2, s2) →
  length (timers (run acts s1)) ≤ 1 →
  (now s + timer_delay a ≤ now (run acts s1) + timer_delay b)%Z →
  settled_as p2 τ (exec sched2 s2) →
  settled_as p1 (Fulfilled VUndefined) (exec sched2 s2).
Proof.
  intros Hwf Hch. rewrite !delay_eq. intros [= <- <-].
  set (s1 := (setTimeout (length (heap s)) a (alloc Internal s).2).2).
  set (s1' := run acts s1). intros [= <- <-] _ Hdue Hτ.
  set (p1 := length (heap s)) in *. set (p2 := length (heap s1')) in *.
  set (s2 := (setTimeout p2 b (alloc Internal s1').2).2) in *.
  assert (timing p1 (now s + timer_delay a) s1') as Htm1.
  { by apply timing_run, timing_after_delay. }
  assert (chronological s1') as Hch1.
  { apply chronological_run, chronological_setTimeout.
    eapply chronological_appends; [apply (appends_alloc s Internal)|done]. }
  assert (p1 < p2) as Hlt.
  { apply (governed_lt _ _ _ _ (tm_governed _ _ _ Htm1)). }
  assert (timing p1 (now s + timer_delay a) s2) as Htm1'.
  { apply timing_setTimeout; [by apply timing_alloc|lia|].
    rewrite length_heap_alloc. lia. }
  assert (timing p2 (now s1' + timer_delay b) s2) as Htm2.
  { apply timing_after_delay, (tm_wf _ _ _ Htm1). }
  assert (ahead p1 p2 s2) as Ha.
  { destruct (tm_timer _ _ _ Htm1) as [[ρ Hρ]|(t1 & Hin & Ht1)].
    - left. exists ρ. eapply stable_settled; [|done].
      eapply stable_trans; [apply (stable_alloc s1' Internal)|].
      by apply stable_same_heap.
    - right. split.
      { eapply keeps_unsettled; [|by apply (unsettled_fresh s1' Internal)].
        by apply keeps_same_heap. }
      pose proof (tm_due _ _ _ Htm1 t1 Hin Ht1) as Hd1.
      destruct (insert_timer_behind (Timer (now s1' + timer_delay b) p2) (timers s1') t1)
        as (l1 & l2 & E & Hl1); [done|done|cbn [t_due]; by rewrite Hd1|].
      exists l1, t1, l2. split; [exact E|]. split; [done|].
      intros t Ht HtQ. pose proof (wf_timers _ (tm_wf _ _ _ Htm1) t (Hl1 t Ht)).
      unfold p2 in HtQ. lia. }
  pose proof (ahead_exec _ _ _ _ _ sched2 Htm1' Htm2 Ha) as [[ρ Hρ]|[HQ _]].
  - by destruct (timing_settled _ _ _ _ (timing_exec _ _ _ sched2 Htm1') Hρ) as [<- _].
  - by destruct (settled_not_unsettled _ _ _ Hτ HQ).
Qed.

Lemma delay_fires_in_order_witness :
  let first := delay 1 two_pending in
  let second := delay 0 first.2 in
  let s' := exec [ETimer; ETimer] second.2 in
  settled_as second.1 (Fulfilled VUndefined) s' ∧
  settled_as first.1 (Fulfilled VUndefined) s' ∧
  unsettled second.1 (exec [ETimer] second.2) = true.
Proof.
  assert (settled_as (delay 0 (delay 1 two_pending).2).1 (Fulfilled VUndefined)
            (exec [ETimer; ETimer] (delay 0 (delay 1 two_pending).2).2)) as H2
    by reflexivity.
  split; [exact H2|]. split; [|reflexivity].
  refine (delay_fires_in_order 1 0 two_pending
            (delay 1 two_pending).1 (delay 1 two_pending).2 []
            (delay 0 (delay 1 two_pending).2).1
            (delay 0 (delay 1 two_pending).2).2 [ETimer; ETimer]
            (Fulfilled VUndefined) (proj1 ready_two_pending) chronological_two_pending
            (surjective_pairing _) (surjective_pairing _) _ _ H2).
  - vm_compute. constructor.
  - vm_compute. discriminate.
Defined.



Section contest.
Context (result : value) (m d n : pid) (due_m due_d : Z).
Hypothesis plain_result : is_promise result = false.
Hypothesis distinct : d ≠ m + 1.









End contest.

Lemma heap_after_delayWithResult result milliseconds s :
  length (heap (after_delayWithResult result milliseconds s)) = length (heap s) + 2.
Proof.
  unfold after_delayWithResult. rewrite length_heap_subscribe. simpl.
  rewrite !length_app. simpl. lia.
Qed.







(** ** More about [properRace] *)

(** X9: the promise of [properRace] is settled only after one of the two
    operations: under every schedule it is pending as long as both
    operations are pending, and whenever it is fulfilled, the operation
    referenced by the outcome is itself already fulfilled (observing it
    yields a value, never a failure). *)
Theorem properRace_settles_after_an_operand first second s f s1 sched :
  ready first second s → properRace_frame first second s = (f, s1) →
  (unsettled first (exec sched s1) = true → unsettled second (exec sched s1) = true →
     unsettled (ret f) (exec sched s1) = true) ∧
  (∀ v, settled_as (ret f) (Fulfilled v) (exec sched s1) →
     ∃ X w, X ∈ [first; second] ∧ v = outcome X ∧
       settled_as X (Fulfilled w) (exec sched s1)).
Proof.
  intros Hready Hf. destruct (race_invariant _ _ _ _ _ Hready Hf) as [-> Hrace].
  simpl in *.
  assert (racing first second (length (heap s)) (exec sched s1)) as Hrace'
    by (by apply racing_exec).
  split.
  - intros H1 H2.
    destruct (governed_cases _ _ _ _ (rc_ret _ _ _ _ Hrace')) as [?|[ρ Hρ]]; [done|].
    destruct (ret_from_input _ _ _ _ Hrace' _ Hρ) as (k & X & σ & HX & Hσ & _).
    destruct k as [|[|k]]; simplify_eq/=;
      by destruct (settled_not_unsettled _ _ _ Hσ).
  - intros v Hv.
    destruct (ret_from_input _ _ _ _ Hrace' _ Hv) as (k & X & σ & HX & Hσ & HRC & Hρ).
    destruct σ as [w|e]; [|done]. simplify_eq. exists X, w.
    split; [by eapply list_elem_of_lookup_2|done].
Qed.

Lemma properRace_settles_after_an_operand_witness :
  let s3 := exec [EResolve 1 (VNumber 42); EJob; EJob; EJob] scenario_start in
  unsettled (ret scenario_frame) (exec [EJob; ETimer] scenario_start) = true ∧
  settled_as (ret scenario_frame) (Fulfilled (outcome 1)) s3 ∧
  ∃ X w, X ∈ [0; 1] ∧ outcome 1 = outcome X ∧ settled_as X (Fulfilled w) s3.
Proof.
  destruct (properRace_settles_after_an_operand 0 1 two_pending scenario_frame
              scenario_start [EJob; ETimer] ready_two_pending scenario_eq)
    as [Hpending _].
  destruct (properRace_settles_after_an_operand 0 1 two_pending scenario_frame
              scenario_start [EResolve 1 (VNumber 42); EJob; EJob; EJob]
              ready_two_pending scenario_eq) as [_ Hwinner].
  assert (settled_as (ret scenario_frame) (Fulfilled (outcome 1))
            (exec [EResolve 1 (VNumber 42); EJob; EJob; EJob] scenario_start))
    as Hv by reflexivity.
  split; [exact (Hpending eq_refl eq_refl)|]. split; [exact Hv|].
  exact (Hwinner (outcome 1) Hv).
Defined.

(** ** The by-products of a race *)

Lemma job_effect_derived RC D σ :
  D ≠ RC →
  job_effect D (JReaction (race_reaction RC D) σ) = Some (Fulfilled VUndefined).
Proof.
  intros HD. unfold job_effect. destruct σ as [v|e]; simpl.
  - rewrite filter_cons_False by (simpl; by intros ->%list_elem_of_singleton).
    rewrite filter_cons_True by (simpl; by left). by rewrite filter_nil.
  - rewrite filter_cons_False by (simpl; by intros ->%list_elem_of_singleton).
    rewrite filter_cons_True by (simpl; by left). by rewrite filter_nil.
Qed.

Lemma well_behaved_derived (I RC D : pid) (HD : D ≠ RC) (src : pid) r σ :
  (src, r) ∈ [(I, race_reaction RC D)] → plain σ →
  is_Some (job_effect D (JReaction r σ)).
Proof. intros Hin _. lookup_simpl. rewrite job_effect_derived by done. by eexists. Qed.

(** The promises that [then] returns inside [Promise.race]: [n + 4] and
    [n + 5] for a call that started with [n] promises. *)
Record byproducts (n : nat) (s : state) : Prop := {
  bp_wf : wf s;
  bp_derived0 : governed (n + 4) [(n + 1, race_reaction (n + 3) (n + 4))] false s;
  bp_derived1 : governed (n + 5) [(n + 2, race_reaction (n + 3) (n + 5))] false s
}.

#[local] Opaque subscribe alloc.

Lemma byproducts_after_properRace first second s :
  wf s → first < length (heap s) → second < length (heap s) →
  byproducts (length (heap s)) (after_properRace first second s).
Proof.
  intros Hwf Hfirst Hsecond. unfold after_properRace, then_at.
  constructor.
  - peel_wf.
  - peel_governed.
  - peel_governed.
Qed.

Lemma length_after_properRace first second s :
  length (heap (after_properRace first second s)) = length (heap s) + 6.
Proof. unfold after_properRace, then_at. heap_len. Qed.

#[local] Transparent subscribe alloc.

Lemma byproducts_step n s e : byproducts n s → byproducts n (step e s).
Proof.
  intros [Hwf H0 H1]. constructor.
  - by apply wf_step.
  - apply governed_step; [by apply well_behaved_derived; lia|done..].
  - apply governed_step; [by apply well_behaved_derived; lia|done..].
Qed.

Lemma byproducts_exec n s sched : byproducts n s → byproducts n (exec sched s).
Proof.
  revert s. induction sched as [|e sched IH]; intros s H; [done|].
  simpl. by apply IH, byproducts_step.
Qed.

Lemma feeds_handled src r P s l rs :
  feeds src r P s → status src s = Some (Pending l rs) → r ∈ rs.
Proof.
  unfold feeds, status. destruct (heap s !! src) as [[o st]|]; [|done].
  simpl. by intros H [= ->].
Qed.

(** X17: a call of [properRace] creates six promises: the one it returns,
    the two index promises, the promise of [Promise.race], and the two
    promises [then] returns inside [Promise.race].  Under every schedule,
    an index promise or the raced promise that is still pending has a
    reaction registered on it, and the two other by-products are never
    rejected: apart from the promise it returns, the call leaves no
    rejection without a handler. *)
Theorem properRace_no_unhandled_rejection first second s f s1 sched :
  ready first second s → properRace_frame first second s = (f, s1) →
  length (heap s1) = length (heap s) + 6 ∧
  (∀ q l rs, q ∈ raced f :: indexPromises f →
     status q (exec sched s1) = Some (Pending l rs) → rs ≠ []) ∧
  (∀ q e, length (heap s) ≤ q < length (heap s1) →
     q ∉ ret f :: raced f :: indexPromises f →
     ¬ settled_as q (Rejected e) (exec sched s1)).
Proof.
  intros Hready Hf. destruct (race_invariant _ _ _ _ _ Hready Hf) as [-> Hrace].
  rewrite properRace_frame_eq in Hf. injection Hf as <-.
  destruct Hready as (Hwf & H1 & H2). cbn [raced indexPromises ret].
  set (n := length (heap s)) in *.
  pose proof (racing_exec _ _ _ _ sched Hrace) as Hrace'.
  pose proof (byproducts_exec _ _ sched
                (byproducts_after_properRace first second s Hwf H1 H2)) as Hbp.
  fold n in Hbp.
  split; [apply length_after_properRace|]. split.
  - intros q l rs Hq Hst.
    assert (∀ r, r ∈ rs → rs ≠ []) as Hne.
    { intros r Hr ->. by apply elem_of_nil in Hr. }
    repeat (apply elem_of_cons in Hq as [->|Hq]); [..|by apply elem_of_nil in Hq].
    + eapply Hne, feeds_handled; [apply (rc_feed_ret _ _ _ _ Hrace')|done].
    + eapply Hne, feeds_handled; [apply (rc_feed_raced0 _ _ _ _ Hrace')|done].
    + eapply Hne, feeds_handled; [apply (rc_feed_raced1 _ _ _ _ Hrace')|done].
  - intros q e Hq Hnot Hrej. rewrite length_after_properRace in Hq. fold n in Hq.
    rewrite !not_elem_of_cons in Hnot. destruct Hnot as (? & ? & ? & ? & _).
    assert (q = n + 4 ∨ q = n + 5) as [->| ->] by lia.
    + destruct (governed_settled _ _ _ _ _ (bp_derived0 _ _ Hbp) Hrej)
        as [(j & (src & r & σ & -> & Hin & Hσ) & Heff)|[? _]]; [|done].
      lookup_simpl. rewrite job_effect_derived in Heff by lia. done.
    + destruct (governed_settled _ _ _ _ _ (bp_derived1 _ _ Hbp) Hrej)
        as [(j & (src & r & σ & -> & Hin & Hσ) & Heff)|[? _]]; [|done].
      lookup_simpl. rewrite job_effect_derived in Heff by lia. done.
Qed.

Lemma properRace_no_unhandled_rejection_witness :
  let sched := [EResolve 0 (VNumber 1); EJob; EJob; EJob;
                EReject 1 (VString "late"); EJob; EJob] in
  let s3 := exec sched scenario_start in
  length (heap scenario_start) = length (heap two_pending) + 6 ∧
  settled_as 4 (Rejected (VString "late")) s3 ∧
  settled_as 7 (Fulfilled VUndefined) s3 ∧
  ¬ settled_as 7 (Rejected (VString "late")) s3.
Proof.
  destruct (properRace_no_unhandled_rejection 0 1 two_pending scenario_frame
              scenario_start
              [EResolve 0 (VNumber 1); EJob; EJob; EJob;
               EReject 1 (VString "late"); EJob; EJob]
              ready_two_pending scenario_eq) as (Hlen & _ & Hnever).
  split; [exact Hlen|]. split; [reflexivity|]. split; [reflexivity|].
  apply (Hnever 7 (VString "late")).
  - simpl. lia.
  - apply (bool_decide_unpack _). vm_compute. exact I.
Defined.

(** ** [oneOf]

    The numbers of the host language are binary64 floats; they are taken
    from the specification of floats of the standard library
    ([spec_float], with its rounding to nearest even). *)
Module Float64.

Definition prec : Z := 53.
Definition emax : Z := 1024.

(** The number of an array length. *)
Definition of_nat (n : nat) : spec_float :=
  binary_normalize prec emax (Z.of_nat n) 0 false.

Definition mul : spec_float → spec_float → spec_float := SFmul prec emax.

(** [Math.floor], as an integer; [None] for infinities and NaN. *)
Definition floor (x : spec_float) : option Z :=
  match x with
  | S754_zero _ => Some 0%Z
  | S754_finite s m e => Some (Z.shiftl (cond_Zopp s (Zpos m)) e)
  | _ => None
  end.

(** What [Math.random()] may return: a number [x] with [0 <= x < 1]. *)
Definition in_unit_interval (x : spec_float) : bool :=
  valid_binary prec emax x && SFleb (S754_zero false) x && SFltb x (SFone prec emax).

End Float64.

(** [oneOf(...options)] with the value of [Math.random()] made explicit;
    [None] is the [undefined] of a read outside the array. *)
Definition oneOf {A} (random : spec_float) (options : list A) : option A :=
  let index := Float64.floor (Float64.mul random (Float64.of_nat (length options))) in
  match index with
  | Some index => if decide (0 ≤ index)%Z then options !! Z.to_nat index else None
  | None => None
  end.

(** *** Shifting and rounding in the specification of floats *)
Section float_rounding.
Local Open Scope Z_scope.


Lemma iter_pos_nat {A} (f : A → A) (p : positive) (x : A) :
  SpecFloat.iter_pos f p x = Nat.iter (Pos.to_nat p) f x.
Proof.
  revert x. induction p as [p IH|p IH|]; intros x; cbn [SpecFloat.iter_pos].
  - rewrite !IH, Pos2Nat.inj_xI, <-Nat.iter_add, <-Nat.iter_succ_r.
    f_equal. lia.
  - rewrite !IH, Pos2Nat.inj_xO, <-Nat.iter_add. f_equal. lia.
  - done.
Qed.

Lemma shr_1_spec m r s :
  0 ≤ m → shr_1 (Build_shr_record m r s) = Build_shr_record (m / 2) (Z.odd m) (r || s).
Proof.
  intros Hm. destruct m as [|[p|p|]|p]; try lia; simpl; f_equal.
  - rewrite Pos2Z.inj_xI. rewrite (Z.mul_comm 2), Z.div_add_l by lia. done.
  - rewrite Pos2Z.inj_xO. by rewrite (Z.mul_comm 2), Z.div_mul by lia.
Qed.

(** After [k] shifts of [M]: the quotient, and a round bit that is only
    set when the remainder is at least one half. *)
Lemma shr_iter M (k : nat) :
  0 ≤ M →
  let mrs := Nat.iter k shr_1 (Build_shr_record M false false) in
  shr_m mrs = M / 2 ^ Z.of_nat k ∧
  (shr_r mrs = true → (0 < k)%nat ∧ 2 ^ (Z.of_nat k - 1) ≤ M mod 2 ^ Z.of_nat k).
Proof.
  intros HM. cbv zeta. induction k as [|k IH].
  - simpl. split; [by rewrite Z.div_1_r|done].
  - rewrite Nat.iter_succ. destruct IH as [IHm IHr].
    destruct (Nat.iter k shr_1 _) as [m r s] eqn:E. cbn [shr_m shr_r] in *.
    assert (0 ≤ m) as Hm by (subst m; apply Z.div_pos; lia).
    rewrite shr_1_spec by done. cbn [shr_m shr_r].
    rewrite Nat2Z.inj_succ, Z.pow_succ_r by lia. split.
    + subst m. rewrite Z.div_div by lia. f_equal. lia.
    + intros Hodd. split; [lia|].
      replace (Z.succ (Z.of_nat k) - 1) with (Z.of_nat k) by lia.
      set (q := 2 ^ Z.of_nat k) in *. assert (0 < q) by (apply Z.pow_pos_nonneg; lia).
      apply Z.odd_spec in Hodd as [q' Hq'].
      assert (M = q * m + M mod q) as HMq.
      { subst m. apply Z.div_mod. lia. }
      assert (0 ≤ M mod q < q) as Hr by (apply Z.mod_pos_bound; lia).
      assert (M mod (2 * q) = q + M mod q) as ->; [|lia].
      symmetry. apply (Z.mod_unique _ _ q'); [lia|]. lia.
Qed.


Lemma shr_exact M e n :
  shr (shr_record_of_loc M loc_Exact) e n =
    (Nat.iter (Z.to_nat n) shr_1 (Build_shr_record M false false), e + Z.max 0 n).
Proof.
  destruct n as [|p|p]; simpl.
  - f_equal; lia.
  - rewrite iter_pos_nat. f_equal; lia.
  - f_equal; lia.
Qed.

(** One rounding step: the mantissa after shifting by [k] and rounding
    to nearest is off by at most one half, and exact when nothing is
    lost. *)
Lemma round_shr M (k : nat) :
  0 ≤ M →
  let mrs := Nat.iter k shr_1 (Build_shr_record M false false) in
  let m' := round_nearest_even (shr_m mrs) (loc_of_shr_record mrs) in
  0 ≤ m' ∧ m' * 2 ^ Z.of_nat k ≤ M + 2 ^ Z.of_nat k / 2 ∧
  (M mod 2 ^ Z.of_nat k = 0 → m' * 2 ^ Z.of_nat k = M).
Proof.
  intros HM. cbv zeta. destruct (shr_iter M k HM) as [Hm Hr].
  destruct (Nat.iter k shr_1 _) as [m r s]. cbn [shr_m shr_r] in *.
  set (q := 2 ^ Z.of_nat k) in *.
  assert (0 < q) as Hq by (apply Z.pow_pos_nonneg; lia).
  assert (0 ≤ m) as Hm0 by (subst m; apply Z.div_pos; lia).
  assert (M = q * m + M mod q) as HMq by (subst m; apply Z.div_mod; lia).
  assert (0 ≤ M mod q < q) as Hρ by (apply Z.mod_pos_bound; lia).
  assert (0 ≤ q / 2) as Hh by (apply Z.div_pos; lia).
  destruct r.
  - destruct Hr as [Hk Hhalf]; [done|].
    assert (q = 2 * 2 ^ (Z.of_nat k - 1)) as Hq2.
    { unfold q. rewrite <-Z.pow_succ_r by lia. f_equal. lia. }
    assert (q / 2 = 2 ^ (Z.of_nat k - 1)) as Hq3.
    { rewrite Hq2, (Z.mul_comm 2), Z.div_mul by lia. done. }
    assert (round_nearest_even m (loc_of_shr_record (Build_shr_record m true s)) ≤ m + 1
            ∧ m ≤ round_nearest_even m (loc_of_shr_record (Build_shr_record m true s)))
      as [Hle Hge].
    { destruct s; simpl; [lia|]. destruct (Z.even m); lia. }
    split; [lia|]. split; [nia|]. intros H0. lia.
  - assert (round_nearest_even m (loc_of_shr_record (Build_shr_record m false s)) = m)
      as ->.
    { by destruct s. }
    split; [done|]. split; [nia|]. intros H0. nia.
Qed.

Lemma round_aux_floor (M : positive) (E n : Z) :
  E ≤ 0 → 0 < n < 2 ^ 970 →
  (let k := Z.max 0 (fexp 53 1024 (Z.pos (digits2_pos M) + E) - E) in
   Z.pos M + (if decide (Z.pos M mod 2 ^ k = 0) then 0 else 2 ^ k / 2) < n * 2 ^ (- E)) →
  ∃ i, Float64.floor (binary_round_aux 53 1024 false (Z.pos M) E loc_Exact) = Some i ∧
       0 ≤ i < n.
Proof.
  intros HE Hn Hbound. unfold binary_round_aux, shr_fexp.
  rewrite shr_exact. cbn [Zdigits2].
  set (x := fexp 53 1024 (Z.pos (digits2_pos M) + E) - E) in *.
  destruct (round_shr (Z.pos M) (Z.to_nat x)) as (Hm0 & Hle & Hexact); [lia|].
  rewrite ZifyInst.of_nat_to_nat_eq in Hle, Hexact. cbv zeta in Hbound.
  set (k := Z.max 0 x) in *.
  set (m' := round_nearest_even _ _) in *.
  rewrite shr_exact.
  set (x2 := fexp 53 1024 (Zdigits2 m' + (E + k)) - (E + k)).
  destruct (shr_iter m' (Z.to_nat x2) Hm0) as [Hmf _].
  rewrite ZifyInst.of_nat_to_nat_eq in Hmf. set (k2 := Z.max 0 x2) in *.
  destruct (Nat.iter (Z.to_nat x2) shr_1 _) as [mf rf sf]. cbn [shr_m] in *.
  assert (0 ≤ k ∧ 0 ≤ k2) as [Hk Hk2] by lia.
  assert (0 < 2 ^ k ∧ 0 < 2 ^ k2 ∧ 0 < 2 ^ (- E)) as (Hpk & Hpk2 & HpE).
  { repeat split; apply Z.pow_pos_nonneg; lia. }
  assert (0 ≤ mf) as Hmf0 by (subst mf; apply Z.div_pos; lia).
  assert (mf * 2 ^ (k + k2) < n * 2 ^ (- E)) as HB.
  { assert (mf * 2 ^ k2 ≤ m') as H1.
    { subst mf. rewrite Z.mul_comm. apply Z.mul_div_le. lia. }
    assert (m' * 2 ^ k < n * 2 ^ (- E)) as H2.
    { destruct (decide (Z.pos M mod 2 ^ k = 0)) as [H0|H0]; [rewrite Hexact by done|]; lia. }
    rewrite Z.pow_add_r by lia. nia. }
  clearbody m' k k2. clear Hbound Hle Hexact.
  destruct mf as [|p|p]; [| |lia].
  { exists 0. split; [done|lia]. }
  assert (E + k + k2 ≤ 1024 - 53) as Hover.
  { destruct (decide (E + k + k2 ≤ 971)) as [|Hbig]; [lia|exfalso].
    assert (2 ^ (k + k2) = 2 ^ (- E) * 2 ^ (E + k + k2)) as Hsplit.
    { rewrite <-Z.pow_add_r by lia. f_equal. lia. }
    assert (2 ^ 970 ≤ 2 ^ (E + k + k2)) by (apply Z.pow_le_mono_r; lia).
    nia. }
  rewrite (proj2 (Z.leb_le _ _) Hover). cbn [Float64.floor cond_Zopp].
  eexists. split; [done|].
  destruct (decide (0 ≤ E + k + k2)) as [Hpos|Hneg].
  - rewrite Z.shiftl_mul_pow2 by done.
    assert (2 ^ (k + k2) = 2 ^ (- E) * 2 ^ (E + k + k2)) as Hsplit.
    { rewrite <-Z.pow_add_r by lia. f_equal. lia. }
    assert (0 < 2 ^ (E + k + k2)) by (apply Z.pow_pos_nonneg; lia).
    split; [lia|]. nia.
  - rewrite Z.shiftl_div_pow2 by lia.
    assert (2 ^ (- E) = 2 ^ (k + k2) * 2 ^ (- (E + k + k2))) as Hsplit.
    { rewrite <-Z.pow_add_r by lia. f_equal. lia. }
    assert (0 < 2 ^ (- (E + k + k2))) by (apply Z.pow_pos_nonneg; lia).
    assert (0 < 2 ^ (k + k2)) by (apply Z.pow_pos_nonneg; lia).
    split; [apply Z.div_pos; lia|].
    apply Z.div_lt_upper_bound; [done|]. nia.
Qed.

Lemma digits2_pos_bounds p :
  2 ^ (Z.pos (digits2_pos p) - 1) ≤ Z.pos p < 2 ^ Z.pos (digits2_pos p).
Proof.
  induction p as [p IH|p IH|]; cbn [digits2_pos]; [| |done].
  - rewrite Pos2Z.inj_succ. change (Z.pos p~1) with (2 * Z.pos p + 1).
    replace (Z.succ (Z.pos (digits2_pos p)) - 1) with (Z.succ (Z.pos (digits2_pos p) - 1))
      by lia.
    rewrite !Z.pow_succ_r by lia. lia.
  - rewrite Pos2Z.inj_succ. change (Z.pos p~0) with (2 * Z.pos p).
    replace (Z.succ (Z.pos (digits2_pos p)) - 1) with (Z.succ (Z.pos (digits2_pos p) - 1))
      by lia.
    rewrite !Z.pow_succ_r by lia. lia.
Qed.

Lemma bounded_mantissa m e :
  bounded 53 1024 m e = true → Z.pos m < 2 ^ 53 ∧ -1074 ≤ e.
Proof.
  unfold bounded, canonical_mantissa, fexp, emin.
  intros [Hc _]%andb_true_iff. apply Z.eqb_eq in Hc.
  pose proof (digits2_pos_bounds m) as [_ Hlt].
  assert (Z.pos (digits2_pos m) ≤ 53) as Hd by lia.
  split; [|lia]. eapply Z.lt_le_trans; [done|]. apply Z.pow_le_mono_r; lia.
Qed.

(** The exact product of a number below one and an integer [n], plus
    half a unit in the last place where the product is rounded, stays
    below [n]. *)
Lemma product_bound (m my : positive) (e ey n : Z) :
  bounded 53 1024 m e = true → e ≤ -53 →
  Z.pos my = n * 2 ^ (- ey) → ey ≤ 0 → 0 < n →
  let M := (m * my)%positive in
  let E := e + ey in
  let k := Z.max 0 (fexp 53 1024 (Z.pos (digits2_pos M) + E) - E) in
  Z.pos M + (if decide (Z.pos M mod 2 ^ k = 0) then 0 else 2 ^ k / 2) < n * 2 ^ (- E).
Proof.
  intros [Hm He]%bounded_mantissa He53 Hmy Hey Hn M E k.
  pose proof (digits2_pos_bounds M) as [HdM _].
  set (d := Z.pos (digits2_pos M)) in *.
  assert (Z.pos M = Z.pos m * Z.pos my) as HM by (unfold M; lia).
  assert (n * 2 ^ (- E) = Z.pos my * 2 ^ (- e)) as ->.
  { unfold E. replace (- (e + ey)) with (- ey + - e) by lia.
    rewrite Z.pow_add_r by lia. lia. }
  assert (2 ^ 53 ≤ 2 ^ (- e)) as He2 by (apply Z.pow_le_mono_r; lia).
  assert (Z.pos M < Z.pos my * 2 ^ (- e)) as Hexact by nia.
  case_decide as Hmod; [lia|].
  assert (- ey < k) as Hk.
  { destruct (decide (k ≤ - ey)) as [Hle|]; [exfalso|lia]. apply Hmod.
    assert (0 ≤ k) by lia.
    assert (2 ^ (- ey) = 2 ^ k * 2 ^ (- ey - k)) as Hsplit.
    { rewrite <-Z.pow_add_r by lia. f_equal. lia. }
    rewrite HM, Hmy, Hsplit.
    replace (Z.pos m * (n * (2 ^ k * 2 ^ (- ey - k))))
      with (Z.pos m * n * 2 ^ (- ey - k) * 2 ^ k) by lia.
    apply Z.mod_mul. apply Z.pow_nonzero; lia. }
  assert (k = d - 53) as Hkd.
  { unfold k, fexp, emin, E in *. lia. }
  assert (2 ^ k / 2 = 2 ^ (d - 54)) as ->.
  { replace k with (Z.succ (d - 54)) by lia.
    rewrite Z.pow_succ_r by lia. rewrite (Z.mul_comm 2), Z.div_mul by lia. done. }
  assert (2 ^ 53 * 2 ^ (d - 54) ≤ Z.pos M) as Hh.
  { rewrite <-Z.pow_add_r by lia. replace (53 + (d - 54)) with (d - 1) by lia. done. }
  assert (Z.pos m ≤ 2 ^ 53 - 1) as Hm' by lia.
  assert (0 < 2 ^ (d - 54)) by (apply Z.pow_pos_nonneg; lia).
  nia.
Qed.

Lemma in_unit_interval_cases r :
  Float64.in_unit_interval r = true →
  (∃ s, r = S754_zero s) ∨
  (∃ m e, r = S754_finite false m e ∧ bounded 53 1024 m e = true ∧ e ≤ -53).
Proof.
  unfold Float64.in_unit_interval.
  intros [[Hv Hle]%andb_true_iff Hlt]%andb_true_iff.
  destruct r as [s|[]| |[] m e].
  { left. by eexists. }
  { by cbv in Hle. }
  { by vm_compute in Hlt. }
  { by cbv in Hle. }
  { by cbv in Hle. }
  right. exists m, e. split; [reflexivity|]. split; [exact Hv|].
  change (SFone Float64.prec Float64.emax)
    with (S754_finite false 4503599627370496 (-52)) in Hlt.
  unfold SFltb, SFcompare in Hlt.
  destruct (Z.compare_spec e (-52)) as [->|?|?]; [|lia|done].
  exfalso. simpl in Hv. unfold bounded, canonical_mantissa, fexp, emin in Hv.
  apply andb_true_iff in Hv as [Hc _]. apply Z.eqb_eq in Hc.
  pose proof (digits2_pos_bounds m) as [Hge _].
  assert (Z.pos (digits2_pos m) = 53) as Hd by (unfold Float64.prec, Float64.emax in *; lia).
  rewrite Hd in Hge.
  destruct (Pos.compare_cont Eq m 4503599627370496) eqn:Hcmp; try done.
  assert (m < 4503599627370496)%positive as Hm by exact Hcmp.
  assert (2 ^ (53 - 1) = 4503599627370496) as Hpow by (by vm_compute).
  rewrite Hpow in Hge. apply Pos2Z.pos_lt_pos in Hm. clear -Hm Hge. lia.
Qed.

Lemma of_nat_small (n : nat) :
  (2 ≤ n ≤ 5)%nat →
  ∃ my ey, Float64.of_nat n = S754_finite false my ey ∧
           Z.pos my = Z.of_nat n * 2 ^ (- ey) ∧ ey ≤ 0.
Proof.
  intros Hn. assert (n = 2 ∨ n = 3 ∨ n = 4 ∨ n = 5)%nat as [-> | [-> | [-> | ->]]] by lia.
  - exists 4503599627370496%positive, (-51). by vm_compute.
  - exists 6755399441055744%positive, (-51). by vm_compute.
  - exists 4503599627370496%positive, (-50). by vm_compute.
  - exists 5629499534213120%positive, (-50). by vm_compute.
Qed.

End float_rounding.

(** C9: for every call of [oneOf] with two to five arguments and every
    number that [Math.random()] may return (any binary64 number from 0
    up to, not including, 1), the index computed by the floating-point
    multiplication and [Math.floor] is within the bounds of the argument
    list: the lookup yields one of the supplied arguments, never the
    [undefined] of an out-of-range read. *)
Theorem oneOf_returns_an_argument {A} (random : spec_float) (options : list A) :
  (2 ≤ length options ≤ 5)%nat → Float64.in_unit_interval random = true →
  ∃ x, oneOf random options = Some x ∧ x ∈ options.
Proof.
  intros Hlen Hr. unfold oneOf. cbv zeta.
  destruct (of_nat_small _ Hlen) as (my & ey & -> & Hmy & Hey).
  assert (∃ i, Float64.floor (Float64.mul random (S754_finite false my ey)) = Some i ∧
               (0 ≤ i < Z.of_nat (length options))%Z) as (i & -> & Hi).
  { destruct (in_unit_interval_cases _ Hr) as [[s ->]|(m & e & -> & Hb & He)].
    - exists 0%Z. split; [done|lia].
    - unfold Float64.mul, SFmul. cbn [xorb].
      apply round_aux_floor; [lia| |].
      + split; [lia|]. apply Z.lt_le_trans with (2 ^ 3)%Z; [simpl; lia|].
        apply Z.pow_le_mono_r; lia.
      + apply product_bound; try done. lia. }
  rewrite decide_True by lia.
  destruct (lookup_lt_is_Some_2 options (Z.to_nat i)) as [x Hx]; [lia|].
  exists x. split; [done|]. by eapply list_elem_of_lookup_2.
Qed.

(** The largest number below one, the worst case for the index. *)
Definition below_one : spec_float := S754_finite false (2 ^ 53 - 1) (-53).

Lemma oneOf_returns_an_argument_witness :
  (2 ≤ length ["a"; "b"; "c"]%string ≤ 5)%nat ∧
  Float64.in_unit_interval below_one = true ∧
  ∃ x, oneOf below_one ["a"; "b"; "c"]%string = Some x ∧ x ∈ ["a"; "b"; "c"]%string.
Proof.
  assert (2 ≤ length ["a"; "b"; "c"]%string ≤ 5)%nat as Hlen by (simpl; lia).
  assert (Float64.in_unit_interval below_one = true) as Hr by (vm_compute; reflexivity).
  split; [exact Hlen|]. split; [exact Hr|].
  exact (oneOf_returns_an_argument below_one ["a"; "b"; "c"]%string Hlen Hr).
Defined.

(** ** More about [oneOf] *)

Section float_exact.
Local Open Scope Z_scope.

Lemma pos_iter_xO m k : Z.pos (Pos.iter xO m k) = Z.pos m * 2 ^ Z.pos k.
Proof.
  induction k as [|k IH] using Pos.peano_ind.
  - simpl. lia.
  - rewrite Pos.iter_succ, Pos2Z.inj_succ, Z.pow_succ_r by lia.
    change (Z.pos (Pos.iter xO m k)~0) with (2 * Z.pos (Pos.iter xO m k)). lia.
Qed.

Lemma digits2_pos_iter_xO m k :
  digits2_pos (Pos.iter xO m k) = (digits2_pos m + k)%positive.
Proof.
  induction k as [|k IH] using Pos.peano_ind.
  - simpl. lia.
  - rewrite Pos.iter_succ. cbn [digits2_pos]. rewrite IH. lia.
Qed.

(** A mantissa that is already in canonical form is not rounded. *)
Lemma binary_round_aux_canonical s m e :
  fexp 53 1024 (Z.pos (digits2_pos m) + e) = e → e ≤ 1024 - 53 →
  binary_round_aux 53 1024 s (Z.pos m) e loc_Exact = S754_finite s m e.
Proof.
  intros Hc He. unfold binary_round_aux, shr_fexp. cbn [Zdigits2].
  rewrite Hc, Z.sub_diag. cbn [shr shr_record_of_loc shr_m loc_of_shr_record
    round_nearest_even Zdigits2].
  rewrite Hc, Z.sub_diag. cbn [shr shr_record_of_loc shr_m].
  destruct (Z.leb_spec e (1024 - 53)); [done|lia].
Qed.

(** The number of a length below [2 ^ 53] is that length, exactly. *)
Lemma of_nat_exact (n : nat) :
  (0 < n)%nat → Z.of_nat n < 2 ^ 53 →
  ∃ my ey, Float64.of_nat n = S754_finite false my ey ∧
           Z.pos my = Z.of_nat n * 2 ^ (- ey) ∧ ey ≤ 0.
Proof.
  intros Hn Hlt. unfold Float64.of_nat, binary_normalize.
  destruct (Z.of_nat n) as [|p|p] eqn:Ep; [lia| |lia].
  pose proof (digits2_pos_bounds p) as [Hd _].
  set (d := digits2_pos p) in *.
  assert (Z.pos d ≤ 53) as Hd53.
  { assert (Z.pos d - 1 < 53); [|lia].
    apply (Z.pow_lt_mono_r_iff 2); lia. }
  unfold binary_round, Float64.prec, Float64.emax, shl_align. fold d.
  assert (fexp 53 1024 (Z.pos d + 0) = Z.pos d - 53) as ->.
  { unfold fexp, emin. lia. }
  destruct (Z.pos d - 53 - 0) as [|q|q] eqn:Eq; [|lia|].
  - exists p, 0. split; [|split; [simpl; lia|lia]].
    replace (Z.pos d - 53) with 0 by lia.
    apply binary_round_aux_canonical; [|lia]. fold d. unfold fexp, emin. lia.
  - exists (Pos.iter xO p q), (Z.pos d - 53). split; [|split; [|lia]].
    + apply binary_round_aux_canonical; [|lia].
      rewrite digits2_pos_iter_xO. fold d. unfold fexp, emin. lia.
    + rewrite pos_iter_xO. f_equal. f_equal. lia.
Qed.
End float_exact.

Lemma oneOf_nil {A} (random : spec_float) : oneOf random (@nil A) = None.
Proof.
  unfold oneOf. destruct (Float64.floor _) as [index|]; [|done].
  case_decide; [apply lookup_nil|done].
Qed.

(** With at least one argument, and fewer than [2 ^ 53], the index is in
    bounds. *)
Lemma oneOf_in_bounds {A} (random : spec_float) (options : list A) :
  options ≠ [] → (Z.of_nat (length options) < 2 ^ 53)%Z →
  Float64.in_unit_interval random = true →
  ∃ x, oneOf random options = Some x ∧ x ∈ options.
Proof.
  intros Hne Hlen Hr.
  assert (0 < length options) as Hpos by (destruct options; [done|simpl; lia]).
  unfold oneOf. cbv zeta.
  destruct (of_nat_exact _ Hpos Hlen) as (my & ey & -> & Hmy & Hey).
  assert (∃ i, Float64.floor (Float64.mul random (S754_finite false my ey)) = Some i ∧
               (0 ≤ i < Z.of_nat (length options))%Z) as (i & -> & Hi).
  { destruct (in_unit_interval_cases _ Hr) as [[s ->]|(m & e & -> & Hb & He)].
    - exists 0%Z. split; [done|lia].
    - unfold Float64.mul, SFmul. cbn [xorb].
      apply round_aux_floor; [lia| |].
      + split; [lia|]. apply Z.lt_trans with (2 ^ 53)%Z; [done|].
        apply Z.pow_lt_mono_r; lia.
      + apply product_bound; try done. lia. }
  rewrite decide_True by lia.
  destruct (lookup_lt_is_Some_2 options (Z.to_nat i)) as [x Hx]; [lia|].
  exists x. split; [done|]. by eapply list_elem_of_lookup_2.
Qed.

(** X11: [oneOf] called with any number of arguments below [2 ^ 53] (the
    implementation takes a rest parameter, not only the two to five
    arguments of the overloads): for every number that [Math.random()] may
    return, the result is [undefined] because of the index only when there
    is no argument at all; with at least one argument the index is in
    bounds and the result is one of the arguments. *)
Theorem oneOf_undefined_only_when_empty {A} (random : spec_float) (options : list A) :
  (Z.of_nat (length options) < 2 ^ 53)%Z → Float64.in_unit_interval random = true →
  (options = [] → oneOf random options = None) ∧
  (options ≠ [] → ∃ x, oneOf random options = Some x ∧ x ∈ options).
Proof.
  intros Hlen Hr. split; [intros ->; apply oneOf_nil|].
  intros Hne. by apply oneOf_in_bounds.
Qed.

Lemma oneOf_undefined_only_when_empty_witness :
  (Z.of_nat (length [VString "only"]) < 2 ^ 53)%Z ∧
  Float64.in_unit_interval below_one = true ∧
  ∃ x, oneOf below_one [VString "only"] = Some x ∧ x ∈ [VString "only"].
Proof.
  assert (Z.of_nat (length [VString "only"]) < 2 ^ 53)%Z as Hlen by (by vm_compute).
  assert (Float64.in_unit_interval below_one = true) as Hr by (by vm_compute).
  split; [exact Hlen|]. split; [exact Hr|].
  refine (proj2 (oneOf_undefined_only_when_empty below_one [VString "only"] Hlen Hr) _).
  discriminate.
Defined.

(** A value of [Math.random()] that selects index [i] of [n] options:
    [i / n] rounded up to a multiple of [1 / 8]. *)
Definition selecting (n i : nat) : spec_float :=
  binary_normalize Float64.prec Float64.emax
    ((8 * Z.of_nat i + Z.of_nat n - 1) / Z.of_nat n) (-3) false.

Lemma oneOf_selecting {A} (options : list A) (i : nat) (x : A) :
  2 ≤ length options ≤ 5 → options !! i = Some x →
  Float64.in_unit_interval (selecting (length options) i) = true ∧
  oneOf (selecting (length options) i) options = Some x.
Proof.
  intros Hlen Hx.
  destruct options as [|a [|b [|c [|d [|e [|]]]]]]; simpl in Hlen; try lia;
    destruct i as [|[|[|[|[|]]]]]; simplify_eq/=; split; by vm_compute.
Qed.

(** X12: no argument of [oneOf] is left out: for every call with two to
    five arguments and every one of the arguments, there is a value that
    [Math.random()] may return for which [oneOf] returns that argument.
    Together with C9, the possible results are exactly the arguments. *)
Theorem oneOf_reaches_every_argument {A} (options : list A) (i : nat) (x : A) :
  2 ≤ length options ≤ 5 → options !! i = Some x →
  ∃ random, Float64.in_unit_interval random = true ∧ oneOf random options = Some x.
Proof.
  intros Hlen Hx. exists (selecting (length options) i). by apply oneOf_selecting.
Qed.

Lemma oneOf_reaches_every_argument_witness :
  2 ≤ length [VUndefined; VString "Worker"] ≤ 5 ∧
  [VUndefined; VString "Worker"] !! 1 = Some (VString "Worker") ∧
  ∃ random, Float64.in_unit_interval random = true ∧
    oneOf random [VUndefined; VString "Worker"] = Some (VString "Worker").
Proof.
  assert (2 ≤ length [VUndefined; VString "Worker"] ≤ 5) as Hlen by (simpl; lia).
  split; [exact Hlen|]. split; [reflexivity|].
  exact (oneOf_reaches_every_argument [VUndefined; VString "Worker"] 1
           (VString "Worker") Hlen eq_refl).
Defined.

(** ** Objects: [Object.assign], [merge] and [setState] *)

(** *** Plain objects

    An object is the list of its own properties, in the order in which
    they were created. *)
Abbreviation object := (list (string * value)).

(** [o[key] = v]: an existing property keeps its place. *)
Fixpoint set_property (key : string) (v : value) (o : object) : object :=
  match o with
  | [] => [(key, v)]
  | (k, w) :: o =>
      if decide (k = key) then (k, v) :: o else (k, w) :: set_property key v o
  end.

(** [Object.assign(target, ...sources)]: the properties of every source
    are copied to the target, one by one; a source that is [undefined] is
    skipped. *)
Definition assign_from (target : object) (source : option object) : object :=
  match source with
  | Some source => foldl (λ target '(k, v), set_property k v target) target source
  | None => target
  end.

Definition Object_assign (target : object) (sources : list (option object)) : object :=
  foldl assign_from target sources.

(** [merge(full, partial)] of the chapter on mapped types. *)
Definition merge (full partial : object) : object :=
  let result := Object_assign [] [Some full; Some partial] in
  result.

(** [Component.setState(newPartialState)]; the field [state] of a new
    component is [undefined]. *)
Definition setState (newPartialState : object) (state : option object) : option object :=
  Some (Object_assign [] [state; Some newPartialState]).

(** [oneOf(...options)] as a value: a read outside the array is
    [undefined]. *)
Definition oneOf_value (random : spec_float) (options : list value) : value :=
  default VUndefined (oneOf random options).

(** [merge(originalMilk, { id: undefined, name: oneOf('Law fat milk', undefined) })]. *)
Definition whoopsieMilk (random : spec_float) (originalMilk : object) : object :=
  merge originalMilk
    [("id"%string, VUndefined);
     ("name"%string, oneOf_value random [VString "Law fat milk"; VUndefined])].


(** An object has each property once. *)
Definition distinct_keys (o : object) : Prop := NoDup o.*1.

(** The host treats two kinds of keys in a way of their own.  For the key
    [__proto__], [Object.assign] runs the setter of [Object.prototype] on
    the target instead of creating a property.  And the keys that are
    integer indices are listed before the other keys of an object, in
    ascending order, not in the order of their creation.  For every other
    key an object is the list of its own properties in the order of their
    creation, as above.  An ordinary key is not [__proto__] and does not
    start with a digit (so it is no integer index). *)
Definition is_digit (c : Ascii.ascii) : bool :=
  (48 <=? Ascii.nat_of_ascii c) && (Ascii.nat_of_ascii c <=? 57).

Definition ordinary_key (key : string) : bool :=
  negb (String.eqb key "__proto__") &&
  match key with
  | String c _ => negb (is_digit c)
  | EmptyString => true
  end.

Definition ordinary (o : object) : Prop :=
  Forall (λ key, ordinary_key key = true) o.*1.

Lemma assoc_None {A} (key : string) (o : list (string * A)) :
  assoc key o = None ↔ key ∉ o.*1.
Proof.
  induction o as [|[k w] o IH]; simpl.
  - split; [intros _ ?%elem_of_nil|]; done.
  - case_decide as Hk; rewrite not_elem_of_cons.
    + split; [done|]. intros [? _]. by subst.
    + rewrite IH. split; [intros ?; split; [congruence|done]|tauto].
Qed.

Lemma assoc_set_property key v o k :
  assoc k (set_property key v o) = if decide (k = key) then Some v else assoc k o.
Proof.
  induction o as [|[k' w] o IH]; simpl.
  - repeat case_decide; congruence.
  - destruct (decide (k' = key)) as [->|Hne]; simpl.
    + repeat case_decide; congruence.
    + rewrite IH. repeat case_decide; congruence.
Qed.

Lemma keys_set_property key v o :
  (set_property key v o).*1 = if decide (key ∈ o.*1) then o.*1 else o.*1 ++ [key].
Proof.
  induction o as [|[k w] o IH].
  - done.
  - cbn [set_property]. destruct (decide (k = key)) as [->|Hne].
    + rewrite !fmap_cons. cbn [fst]. rewrite decide_True; [done|]. by left.
    + rewrite !fmap_cons. cbn [fst]. rewrite IH.
      destruct (decide (key ∈ o.*1)) as [Hin|Hout].
      * rewrite decide_True; [done|]. by right.
      * rewrite decide_False; [done|]. rewrite not_elem_of_cons. split; [congruence|done].
Qed.

Lemma distinct_set_property key v o :
  distinct_keys o → distinct_keys (set_property key v o).
Proof.
  unfold distinct_keys. rewrite keys_set_property. intros Ho.
  case_decide; [done|]. apply list.NoDup_app. split; [done|].
  split; [|apply list.NoDup_singleton]. intros k Hk ->%list_elem_of_singleton. done.
Qed.

Definition copy_properties (target source : object) : object :=
  foldl (λ target '(k, v), set_property k v target) target source.

Lemma distinct_copy_properties target source :
  distinct_keys target → distinct_keys (copy_properties target source).
Proof.
  revert target. induction source as [|[k v] source IH]; intros target Ht; [done|].
  simpl. by apply IH, distinct_set_property.
Qed.

(** Reading a property after copying: the source wins where it has the
    property. *)
Lemma assoc_copy_properties target source k :
  distinct_keys source →
  assoc k (copy_properties target source) =
    match assoc k source with Some v => Some v | None => assoc k target end.
Proof.
  revert target. induction source as [|[k' v] source IH]; intros target Hs; [done|].
  unfold distinct_keys in Hs. rewrite fmap_cons in Hs.
  apply list.NoDup_cons in Hs as [Hk' Hs]. cbn [fst] in Hk'.
  cbn [copy_properties foldl]. fold (copy_properties (set_property k' v target) source).
  rewrite IH by done. rewrite assoc_set_property. cbn [assoc].
  destruct (decide (k' = k)) as [->|Hne].
  - rewrite decide_True by done. apply assoc_None in Hk'. by rewrite Hk'.
  - by rewrite decide_False by congruence.
Qed.

Lemma copy_properties_nil source :
  distinct_keys source → copy_properties [] source = source.
Proof.
  intros Hs. assert (∀ target, distinct_keys (target ++ source) →
    copy_properties target source = target ++ source) as H.
  { clear Hs. induction source as [|[k v] source IH]; intros target Hd.
    - by rewrite app_nil_r.
    - simpl. assert (set_property k v target = target ++ [(k, v)]) as ->.
      { unfold distinct_keys in Hd. rewrite fmap_app in Hd.
        apply list.NoDup_app in Hd as (_ & Hd & _).
        assert (k ∉ target.*1) as Hk. { intros Hin. eapply Hd; [done|]. by left. }
        clear -Hk. induction target as [|[k' w] target IH]; [done|]. simpl in *.
        apply not_elem_of_cons in Hk as [? ?]. rewrite decide_False by done.
        by rewrite IH. }
      rewrite IH; rewrite <-app_assoc; done. }
  by apply (H []).
Qed.

Lemma merge_eq full partial :
  merge full partial = copy_properties (copy_properties [] full) partial.
Proof. done. Qed.

(** X13: the own properties of [merge(full, partial)], for two objects
    with ordinary keys (no [__proto__], no integer index): where [partial]
    has the property, the result has it with the value of [partial], an
    explicit [undefined] included, which hides the value of [full]; every
    other property is that of [full]; and the result has each property
    once. *)
Theorem merge_lookup full partial key :
  distinct_keys full → distinct_keys partial → ordinary full → ordinary partial →
  get_field key (VObject (merge full partial)) =
    match get_field key (VObject partial) with
    | Some v => Some v
    | None => get_field key (VObject full)
    end ∧
  distinct_keys (merge full partial).
Proof.
  intros Hf Hp _ _. rewrite merge_eq. simpl. split.
  - rewrite assoc_copy_properties by done. destruct (assoc key partial); [done|].
    rewrite assoc_copy_properties by done. by destruct (assoc key full).
  - apply distinct_copy_properties, distinct_copy_properties, base.NoDup_nil_2.
Qed.

Lemma merge_lookup_witness :
  let milk := [("id"%string, VNumber 0); ("name"%string, VString "Full fat milk")] in
  distinct_keys milk ∧ distinct_keys [("id"%string, VUndefined)] ∧
  ordinary milk ∧ ordinary [("id"%string, VUndefined)] ∧
  get_field "id" (VObject (merge milk [("id"%string, VUndefined)])) = Some VUndefined ∧
  get_field "name" (VObject (merge milk [("id"%string, VUndefined)])) =
    Some (VString "Full fat milk").
Proof.
  assert (distinct_keys [("id"%string, VNumber 0); ("name"%string, VString "Full fat milk")])
    as Hf by (apply (bool_decide_unpack _); vm_compute; exact I).
  assert (distinct_keys [("id"%string, VUndefined)]) as Hp
    by (apply (bool_decide_unpack _); vm_compute; exact I).
  assert (ordinary [("id"%string, VNumber 0); ("name"%string, VString "Full fat milk")])
    as Hof by (repeat constructor).
  assert (ordinary [("id"%string, VUndefined)]) as Hop by (repeat constructor).
  split; [exact Hf|]. split; [exact Hp|]. split; [exact Hof|]. split; [exact Hop|].
  split.
  - exact (proj1 (merge_lookup _ _ "id" Hf Hp Hof Hop)).
  - exact (proj1 (merge_lookup _ _ "name" Hf Hp Hof Hop)).
Defined.

(** X14: for an object [full] with ordinary keys (no [__proto__], no
    integer index), [merge(full, {})] is a copy of [full]: the same own
    properties with the same values in the same order (and
    [merge({}, partial)] a copy of [partial]). *)
Theorem merge_nothing_copies o :
  distinct_keys o → ordinary o → merge o [] = o ∧ merge [] o = o.
Proof.
  intros Ho _. rewrite !merge_eq. simpl. split; by apply copy_properties_nil.
Qed.

Lemma merge_nothing_copies_witness :
  let cookie := [("id"%string, VNumber 0); ("name"%string, VString "Cookie")] in
  distinct_keys cookie ∧ ordinary cookie ∧
  merge cookie [] = cookie ∧ merge [] cookie = cookie.
Proof.
  assert (distinct_keys [("id"%string, VNumber 0); ("name"%string, VString "Cookie")])
    as Ho by (apply (bool_decide_unpack _); vm_compute; exact I).
  assert (ordinary [("id"%string, VNumber 0); ("name"%string, VString "Cookie")])
    as Hk by (repeat constructor).
  split; [exact Ho|]. split; [exact Hk|]. exact (merge_nothing_copies _ Ho Hk).
Defined.

(** Reading a property of the state of a component. *)
Definition state_field (key : string) (state : option object) : option value :=
  state ≫= assoc key.

(** The value of [key] in the last of the objects that has it. *)
Definition last_set (key : string) (updates : list object) : option value :=
  head (omap (assoc key) (reverse updates)).

Lemma setState_eq newPartialState state :
  setState newPartialState state =
    Some (copy_properties (from_option (copy_properties []) [] state) newPartialState).
Proof. by destruct state. Qed.

Lemma setState_fold (updates : list object) (key : string) :
  Forall distinct_keys updates →
  let state := foldl (λ state newPartialState, setState newPartialState state) None updates in
  (∀ o, state = Some o → distinct_keys o) ∧
  (state = None ↔ updates = []) ∧
  state_field key state = last_set key updates.
Proof.
  intros Hall. cbv zeta.
  induction updates as [|u updates IH] using rev_ind; [done|].
  apply list.Forall_app in Hall as [Hall Hu]. rewrite list.Forall_singleton in Hu.
  destruct (IH Hall) as (Hd & _ & Hget).
  rewrite foldl_app. cbn [foldl]. rewrite setState_eq.
  assert (last_set key (updates ++ [u]) =
            match assoc key u with Some v => Some v | None => last_set key updates end)
    as ->.
  { unfold last_set. rewrite reverse_app, reverse_singleton. cbn [app omap list_omap].
    by destruct (assoc key u). }
  split; [|split].
  - intros o [= <-]. apply distinct_copy_properties.
    destruct (foldl _ None updates) as [state|]; cbn [from_option].
    + apply distinct_copy_properties, base.NoDup_nil_2.
    + apply base.NoDup_nil_2.
  - split; [done|]. intros Hnil. by destruct updates.
  - cbn [state_field mbind option_bind]. rewrite assoc_copy_properties by done.
    destruct (assoc key u); [done|]. rewrite <-Hget.
    destruct (foldl _ None updates) as [state|]; cbn [from_option]; [|done].
    rewrite assoc_copy_properties by (by apply Hd). cbn [state_field mbind option_bind].
    by destruct (assoc key state).
Qed.

(** X15: after any sequence of calls of [setState] on a new component,
    with objects that have ordinary keys (no [__proto__], no integer
    index), the state is an object as soon as one call was made, and every
    own property of it is as the last call that mentioned it has set it (a
    property that no call mentioned is absent). *)
Theorem setState_last_wins (updates : list object) (key : string) :
  Forall distinct_keys updates → Forall ordinary updates →
  let state := foldl (λ state newPartialState, setState newPartialState state) None updates in
  (state = None ↔ updates = []) ∧
  state_field key state = last_set key updates.
Proof.
  intros Hall _. cbv zeta.
  destruct (setState_fold updates key Hall) as (_ & Hnone & Hlast).
  split; [exact Hnone|exact Hlast].
Qed.

Lemma setState_last_wins_witness :
  let updates :=
    [[]; [("name"%string, VString "Delicious Tide pods")];
     [("name"%string, VString "Chocolate lava"); ("price"%string, VNumber 5)]] in
  let state := foldl (λ state newPartialState, setState newPartialState state) None updates in
  Forall distinct_keys updates ∧ Forall ordinary updates ∧
  state_field "name" state = Some (VString "Chocolate lava") ∧
  state_field "id" state = None.
Proof.
  assert (Forall distinct_keys
            [[]; [("name"%string, VString "Delicious Tide pods")];
             [("name"%string, VString "Chocolate lava"); ("price"%string, VNumber 5)]])
    as Hall.
  { repeat constructor; apply (bool_decide_unpack _); vm_compute; exact I. }
  assert (Forall ordinary
            [[]; [("name"%string, VString "Delicious Tide pods")];
             [("name"%string, VString "Chocolate lava"); ("price"%string, VNumber 5)]])
    as Hord by (repeat constructor).
  split; [exact Hall|]. split; [exact Hord|]. split.
  - exact (proj2 (setState_last_wins _ "name" Hall Hord)).
  - exact (proj2 (setState_last_wins _ "id" Hall Hord)).
Defined.

(** X16: [merge(originalMilk, { id: undefined, name: oneOf('Law fat milk',
    undefined) })], for every [originalMilk] with ordinary keys (no
    [__proto__], no integer index) and whatever [Math.random()] returns:
    the [id] of the result is [undefined], whatever it was; the [name] is
    ['Law fat milk'] or [undefined], and each of the two happens for some
    value of [Math.random()]; every other own property is that of
    [originalMilk]. *)
Theorem whoopsieMilk_properties (originalMilk : object) (random : spec_float) :
  distinct_keys originalMilk → ordinary originalMilk →
  Float64.in_unit_interval random = true →
  let name_of random := get_field "name" (VObject (whoopsieMilk random originalMilk)) in
  get_field "id" (VObject (whoopsieMilk random originalMilk)) = Some VUndefined ∧
  (name_of random = Some (VString "Law fat milk") ∨ name_of random = Some VUndefined) ∧
  (∃ r, Float64.in_unit_interval r = true ∧ name_of r = Some (VString "Law fat milk")) ∧
  (∃ r, Float64.in_unit_interval r = true ∧ name_of r = Some VUndefined) ∧
  (∀ key, key ≠ "id"%string → key ≠ "name"%string →
     get_field key (VObject (whoopsieMilk random originalMilk)) =
       get_field key (VObject originalMilk)).
Proof.
  intros Hd _ Hr. cbv zeta.
  assert (∀ r key,
    get_field key (VObject (whoopsieMilk r originalMilk)) =
      if decide (key = "id"%string) then Some VUndefined
      else if decide (key = "name"%string)
           then Some (oneOf_value r [VString "Law fat milk"; VUndefined])
           else get_field key (VObject originalMilk)) as Hget.
  { intros r key. unfold whoopsieMilk. rewrite merge_eq. cbn [get_field].
    rewrite assoc_copy_properties.
    - cbn [assoc]. rewrite assoc_copy_properties by done.
      repeat case_decide; subst; try done. by destruct (assoc key originalMilk).
    - apply (bool_decide_unpack _). vm_compute. exact I. }
  split; [by rewrite Hget|]. split; [|split; [|split]].
  - rewrite Hget. cbn. unfold oneOf_value.
    destruct (oneOf_in_bounds random [VString "Law fat milk"; VUndefined])
      as (x & -> & Hx); [done|by vm_compute|done|].
    cbn. apply elem_of_cons in Hx as [->|Hx]; [by left|].
    apply list_elem_of_singleton in Hx as ->. by right.
  - exists (selecting 2 0). split; [by vm_compute|]. rewrite Hget. by vm_compute.
  - exists (selecting 2 1). split; [by vm_compute|]. rewrite Hget. by vm_compute.
  - intros key H1 H2. rewrite Hget. by rewrite !decide_False.
Qed.

Lemma whoopsieMilk_properties_witness :
  let milk := [("id"%string, VNumber 0); ("name"%string, VString "Full fat milk");
               ("price"%string, VNumber 1)] in
  distinct_keys milk ∧ ordinary milk ∧ Float64.in_unit_interval below_one = true ∧
  get_field "id" (VObject (whoopsieMilk below_one milk)) = Some VUndefined ∧
  get_field "name" (VObject (whoopsieMilk below_one milk)) = Some VUndefined ∧
  get_field "price" (VObject (whoopsieMilk below_one milk)) = Some (VNumber 1).
Proof.
  assert (distinct_keys [("id"%string, VNumber 0); ("name"%string, VString "Full fat milk");
                         ("price"%string, VNumber 1)]) as Hd
    by (apply (bool_decide_unpack _); vm_compute; exact I).
  assert (ordinary [("id"%string, VNumber 0); ("name"%string, VString "Full fat milk");
                    ("price"%string, VNumber 1)]) as Hk by (repeat constructor).
  assert (Float64.in_unit_interval below_one = true) as Hr by (by vm_compute).
  destruct (whoopsieMilk_properties _ below_one Hd Hk Hr) as (Hid & _ & _ & _ & Hother).
  split; [exact Hd|]. split; [exact Hk|]. split; [exact Hr|]. split; [exact Hid|].
  split; [by vm_compute|]. exact (Hother "price"%string ltac:(done) ltac:(done)).
Defined.

(** ** The log

    [console] is the list of the lines printed so far.  [date] is what
    [new Date()] returns when a line is printed; [message] is the text of
    the message as the template literal renders it (every call in the
    repository passes a string). *)
Record date := Date {
  getHours : nat;
  getMinutes : nat;
  getSeconds : nat;
  getMilliseconds : nat
}.

Definition console_log (line : string) (console : list string) : list string :=
  console ++ [line].

(** [s.slice(-k)]: the last [k] characters of [s], all of [s] if it is
    shorter. *)
Definition slice_from_end (k : nat) (s : string) : string :=
  String.substring (String.length s - k) k s.

Definition logTimestamped (message : string) (date : date) (console : list string) :
    list string :=
  let timestamp :=
    slice_from_end 2 ("0" +:+ pretty.pretty (getHours date)) +:+ ":" +:+
    slice_from_end 2 ("0" +:+ pretty.pretty (getMinutes date)) +:+ ":" +:+
    slice_from_end 2 ("0" +:+ pretty.pretty (getSeconds date)) +:+ "." +:+
    slice_from_end 4 ("000" +:+ pretty.pretty (getMilliseconds date)) in
  console_log (timestamp +:+ "   " +:+ message) console.

Definition logSpacer (console : list string) : list string :=
  console_log "" (console_log "---" (console_log "" console)).
(** ** The timestamps of the log *)

(** A time of day, as [Date] reports it. *)
Definition time_of_day (d : date) : Prop :=
  getHours d < 24 ∧ getMinutes d < 60 ∧ getSeconds d < 60 ∧ getMilliseconds d < 1000.

Definition milliseconds_since_midnight (d : date) : nat :=
  ((getHours d * 60 + getMinutes d) * 60 + getSeconds d) * 1000 + getMilliseconds d.

(** The last [k] decimal digits of [n]. *)
Fixpoint digits (k n : nat) : string :=
  match k with
  | 0 => ""
  | S k => digits k (n / 10) +:+ String (Ascii.ascii_of_nat (48 + n mod 10)) ""
  end.

(** The timestamp of the source, in closed form. *)
Definition timestamp (d : date) : string :=
  digits 2 (getHours d) +:+ ":" +:+ digits 2 (getMinutes d) +:+ ":" +:+
  digits 2 (getSeconds d) +:+ ".0" +:+ digits 3 (getMilliseconds d).

(** Lexicographic order: the first difference decides. *)
Definition then_by (c c' : comparison) : comparison :=
  match c with
  | Eq => c'
  | _ => c
  end.

Lemma checked_below (P : nat → Prop) `{!∀ n, Decision (P n)} (b : nat) :
  forallb (λ n, bool_decide (P n)) (seq 0 b) = true → ∀ n, n < b → P n.
Proof.
  intros Hall n Hn. rewrite forallb_forall in Hall.
  apply (bool_decide_eq_true_1 (P n)), Hall, in_seq. lia.
Qed.

Lemma two_digits n : n < 100 → slice_from_end 2 ("0" +:+ pretty.pretty n) = digits 2 n.
Proof. revert n. apply (checked_below _ 100). by vm_compute. Qed.

Lemma four_digits n :
  n < 1000 → slice_from_end 4 ("000" +:+ pretty.pretty n) = "0" +:+ digits 3 n.
Proof. revert n. apply (checked_below _ 1000). by vm_compute. Qed.

Lemma length_append (s t : string) :
  String.length (s +:+ t) = String.length s + String.length t.
Proof. induction s as [|c s IH]; simpl; [done|]. by rewrite IH. Qed.

Lemma length_digits k n : String.length (digits k n) = k.
Proof.
  revert n. induction k as [|k IH]; intros n; [done|].
  cbn [digits]. rewrite length_append, IH. simpl. lia.
Qed.

Lemma append_assoc (s t u : string) : (s +:+ t) +:+ u = s +:+ t +:+ u.
Proof.
  induction s as [|c s IH]; [done|].
  change (String c ((s +:+ t) +:+ u) = String c (s +:+ t +:+ u)). by rewrite IH.
Qed.

Lemma logTimestamped_line message d console :
  time_of_day d →
  logTimestamped message d console = console ++ [timestamp d +:+ "   " +:+ message].
Proof.
  intros (Hh & Hm & Hs & Hms).
  unfold logTimestamped, console_log, timestamp.
  rewrite !two_digits, four_digits by lia.
  by rewrite !append_assoc.
Qed.

Lemma compare_append (s1 s2 t1 t2 : string) :
  String.length s1 = String.length s2 →
  String.compare (s1 +:+ t1) (s2 +:+ t2) =
    then_by (String.compare s1 s2) (String.compare t1 t2).
Proof.
  revert s2. induction s1 as [|c1 s1 IH]; intros [|c2 s2] Hlen; try done.
  injection Hlen as Hlen.
  change (match Ascii.compare c1 c2 with
          | Eq => String.compare (s1 +:+ t1) (s2 +:+ t2)
          | ne => ne
          end =
          then_by (match Ascii.compare c1 c2 with
                   | Eq => String.compare s1 s2
                   | ne => ne
                   end) (String.compare t1 t2)).
  rewrite (IH _ Hlen). by destruct (Ascii.compare c1 c2).
Qed.

Lemma compare_nat_unique (a b : nat) (c : comparison) :
  match c with
  | Eq => a = b
  | Lt => a < b
  | Gt => b < a
  end → Nat.compare a b = c.
Proof.
  destruct c; intros H.
  - by apply Nat.compare_eq_iff.
  - by apply Nat.compare_lt_iff.
  - by apply Nat.compare_gt_iff.
Qed.

Lemma compare_digit i j :
  i < 10 → j < 10 →
  Ascii.compare (Ascii.ascii_of_nat (48 + i)) (Ascii.ascii_of_nat (48 + j)) =
    Nat.compare i j.
Proof.
  intros Hi Hj. unfold Ascii.compare, Ascii.ascii_of_nat.
  rewrite !Ascii.N_ascii_embedding by lia.
  rewrite <- Nat2N.inj_compare. apply compare_nat_unique.
  destruct (Nat.compare_spec i j); lia.
Qed.

Lemma compare_digits k a b :
  a < 10 ^ k → b < 10 ^ k →
  String.compare (digits k a) (digits k b) = Nat.compare a b.
Proof.
  revert a b. induction k as [|k IH]; intros a b Ha Hb.
  - simpl in *. symmetry. apply compare_nat_unique. lia.
  - cbn [digits]. rewrite Nat.pow_succ_r' in Ha, Hb.
    pose proof (Nat.div_mod_eq a 10). pose proof (Nat.div_mod_eq b 10).
    pose proof (Nat.mod_upper_bound a 10). pose proof (Nat.mod_upper_bound b 10).
    rewrite compare_append by (by rewrite !length_digits).
    rewrite IH by lia.
    change (String.compare (String ?x "") (String ?y ""))
      with (match Ascii.compare x y with Eq => Eq | ne => ne end).
    rewrite compare_digit by lia.
    symmetry. apply compare_nat_unique.
    destruct (Nat.compare_spec (a / 10) (b / 10));
      destruct (Nat.compare_spec (a mod 10) (b mod 10)); simpl; lia.
Qed.

Lemma compare_timestamp d1 d2 :
  time_of_day d1 → time_of_day d2 →
  String.compare (timestamp d1) (timestamp d2) =
    Nat.compare (milliseconds_since_midnight d1) (milliseconds_since_midnight d2).
Proof.
  intros (Hh1 & Hm1 & Hs1 & Hms1) (Hh2 & Hm2 & Hs2 & Hms2).
  unfold timestamp, milliseconds_since_midnight.
  repeat (rewrite compare_append
            by (by rewrite ?length_append, ?length_digits)).
  rewrite !compare_digits by (simpl; lia).
  change (String.compare ":" ":") with Eq. change (String.compare ".0" ".0") with Eq.
  symmetry. apply compare_nat_unique.
  destruct (Nat.compare_spec (getHours d1) (getHours d2));
    destruct (Nat.compare_spec (getMinutes d1) (getMinutes d2));
    destruct (Nat.compare_spec (getSeconds d1) (getSeconds d2));
    destruct (Nat.compare_spec (getMilliseconds d1) (getMilliseconds d2));
    simpl; lia.
Qed.

(** X18: [logTimestamped] appends one line to the console and leaves the
    lines before it as they are.  The line starts with a timestamp of 13
    characters: hours, minutes and seconds with two digits each, a dot,
    and the milliseconds with four digits of which the first is always 0
    (the source pads with three zeros and keeps the last four characters),
    then three spaces and the message. *)
Theorem logTimestamped_format message d console :
  time_of_day d →
  logTimestamped message d console =
    console ++ [timestamp d +:+ "   " +:+ message] ∧
  String.length (timestamp d) = 13.
Proof.
  intros Hd. split; [by apply logTimestamped_line|].
  unfold timestamp. by rewrite !length_append, !length_digits.
Qed.

Lemma logTimestamped_format_witness :
  logTimestamped "Starting" (Date 9 5 3 42) ["---"] =
    ["---"; "09:05:03.0042   Starting"] ∧
  String.length (timestamp (Date 9 5 3 42)) = 13.
Proof.
  apply (logTimestamped_format "Starting" (Date 9 5 3 42) ["---"]).
  unfold time_of_day. simpl. lia.
Defined.

(** X19: the lines of [logTimestamped] sort by time.  Two lines printed at
    different times of the same day compare, as strings, the way their
    times do, whatever the messages are; two lines printed in the same
    millisecond compare the way their messages do. *)
Theorem logTimestamped_sorts_by_time m1 m2 d1 d2 c1 c2 l1 l2 :
  time_of_day d1 → time_of_day d2 →
  list.last (logTimestamped m1 d1 c1) = Some l1 →
  list.last (logTimestamped m2 d2 c2) = Some l2 →
  String.compare l1 l2 =
    then_by (Nat.compare (milliseconds_since_midnight d1)
                         (milliseconds_since_midnight d2))
            (String.compare m1 m2).
Proof.
  intros Hd1 Hd2. rewrite !logTimestamped_line, !last_snoc by done.
  intros [= <-] [= <-].
  assert (∀ d, String.length (timestamp d) = 13) as Hlen.
  { intros d. unfold timestamp. by rewrite !length_append, !length_digits. }
  rewrite compare_append by (by rewrite !Hlen).
  rewrite compare_timestamp by done. reflexivity.
Qed.

Lemma logTimestamped_sorts_by_time_witness :
  String.compare "00:00:00.0999   z" "00:00:01.0000   a" = Lt.
Proof.
  assert (time_of_day (Date 0 0 0 999)) as H1 by (unfold time_of_day; simpl; lia).
  assert (time_of_day (Date 0 0 1 0)) as H2 by (unfold time_of_day; simpl; lia).
  exact (logTimestamped_sorts_by_time "z" "a" (Date 0 0 0 999) (Date 0 0 1 0)
           [] ["---"] "00:00:00.0999   z" "00:00:01.0000   a"
           H1 H2 eq_refl eq_refl).
Defined.

(** ** Values that may be missing: [isDefined] and [reduceDefined] *)

(** A value of type [T | undefined | null]. *)
Inductive nullable (T : Type) :=
| Given (x : T)
| Undefined
| Null.
Arguments Given {T} x.
Arguments Undefined {T}.
Arguments Null {T}.

Definition is_undefined {T} (value : nullable T) : bool :=
  match value with
  | Undefined => true
  | _ => false
  end.

Definition is_null {T} (value : nullable T) : bool :=
  match value with
  | Null => true
  | _ => false
  end.

Definition isDefined {T} (value : nullable T) : bool :=
  negb (is_undefined value) && negb (is_null value).

(** A call returns or throws. *)
Inductive attempt (A : Type) :=
| Returned (a : A)
| Thrown (error : value).
Arguments Returned {A} a.
Arguments Thrown {A} error.

#[global] Instance attempt_ret : MRet attempt := λ A, Returned.
#[global] Instance attempt_bind : MBind attempt := λ A B f m,
  match m with
  | Returned a => f a
  | Thrown error => Thrown error
  end.

(** [items.reduce(callback, initial)], [items.map(callback)] and
    [items.filter(predicate)]: the callback is called on the items from
    left to right, and what it throws ends the call. *)
Fixpoint Array_reduce {A B} (callback : B → A → attempt B) (initial : B)
    (items : list A) : attempt B :=
  match items with
  | [] => Returned initial
  | current :: items =>
      accumulator ← callback initial current;
      Array_reduce callback accumulator items
  end.

Fixpoint Array_map {A B} (callback : A → attempt B) (items : list A) :
    attempt (list B) :=
  match items with
  | [] => Returned []
  | item :: items =>
      r ← callback item;
      rs ← Array_map callback items;
      mret (r :: rs)
  end.

Definition Array_filter {A} (predicate : A → bool) (items : list A) : list A :=
  List.filter predicate items.

Definition push {A} (array : list A) (item : A) : list A := array ++ [item].

(** [action] is a function of the surrounding program: it gets the item
    as it is at run time. *)
Definition reduceDefined {T TResult} (items : list (nullable T))
    (action : nullable T → attempt TResult) : attempt (list TResult) :=
  Array_reduce
    (λ accumulator current,
       if isDefined current
       then r ← action current; mret (push accumulator r)
       else mret accumulator)
    [] items.

Module Person.
Record t := {
  name : string;
  job : option string;
  age : option spec_float
}.
End Person.

(** [person.name]; the non-null assertion [person!] does nothing at run
    time, and reading a property of [undefined] or [null] throws. *)
Definition name_of (person : nullable Person.t) : attempt string :=
  match person with
  | Given person => Returned (Person.name person)
  | _ => Thrown (VError "TypeError")
  end.

Definition namesOfPeople (peopleMaybe : list (nullable Person.t)) : attempt (list string) :=
  Array_map (λ personSurely, name_of personSurely)
    (Array_filter (λ personMaybe, negb (is_undefined personMaybe)) peopleMaybe).

Definition namesOfPeopleAgain (peopleMaybe : list (nullable Person.t)) :
    attempt (list string) :=
  Array_reduce
    (λ accumulator current,
       if negb (is_undefined current)
       then n ← name_of current; mret (push accumulator n)
       else mret accumulator)
    [] peopleMaybe.

Definition namesOfPeopleForTheLastTime (peopleMaybe : list (nullable Person.t)) :
    attempt (list string) :=
  reduceDefined peopleMaybe (λ person, name_of person).

(** The items that are defined, in order. *)
Definition defined {T} (items : list (nullable T)) : list T :=
  omap (λ item, match item with Given x => Some x | _ => None end) items.

(** A reduction that pushes the results of [action] for the items that
    pass [keep]. *)
Lemma reduce_push {A B} (keep : A → bool) (action : A → attempt B) acc items :
  Array_reduce
    (λ accumulator current,
       if keep current then r ← action current; mret (push accumulator r)
       else mret accumulator) acc items =
  rs ← Array_map action (Array_filter keep items); mret (acc ++ rs).
Proof.
  revert acc. induction items as [|x items IH]; intros acc; simpl.
  - by rewrite app_nil_r.
  - destruct (keep x); simpl; [|apply IH].
    destruct (action x) as [r|e]; simpl; [|done].
    rewrite IH. unfold push.
    destruct (Array_map action (Array_filter keep items)) as [rs|e]; simpl; [|done].
    by rewrite <- app_assoc.
Qed.

Lemma Array_map_ext {A B} (f g : A → attempt B) items :
  (∀ x, x ∈ items → f x = g x) → Array_map f items = Array_map g items.
Proof.
  induction items as [|x items IH]; intros Hfg; simpl; [done|].
  rewrite (Hfg x) by left. rewrite IH; [done|]. intros y Hy. apply Hfg. by right.
Qed.

Lemma Array_map_total {A B} (f : A → B) items :
  Array_map (λ x, Returned (f x)) items = Returned (f <$> items).
Proof. induction items as [|x items IH]; simpl; [done|]. by rewrite IH. Qed.

Lemma Array_map_fmap {A B C} (f : B → attempt C) (g : A → B) items :
  Array_map f (g <$> items) = Array_map (λ x, f (g x)) items.
Proof.
  induction items as [|x items IH]; [done|].
  rewrite fmap_cons. cbn [Array_map]. by rewrite IH.
Qed.

Lemma filter_isDefined {T} (items : list (nullable T)) :
  Array_filter isDefined items = Given <$> defined items.
Proof.
  induction items as [|[x| |] items IH]; simpl; [done|..]; by rewrite ?IH.
Qed.

(** X20: [reduceDefined(items, action)] is
    [items.filter(isDefined).map(action)]: it calls [action] on the items
    that are neither [undefined] nor [null], from left to right, and on
    no other; it returns the results in that order, or throws what the
    first failing call throws. *)
Theorem reduceDefined_filter_map {T TResult} (items : list (nullable T))
    (action : nullable T → attempt TResult) :
  reduceDefined items action = Array_map action (Array_filter isDefined items) ∧
  reduceDefined items action =
    Array_map (λ x, action (Given x)) (defined items) ∧
  ∀ action' : nullable T → attempt TResult,
    (∀ x, action' (Given x) = action (Given x)) →
    reduceDefined items action' = reduceDefined items action.
Proof.
  assert (∀ action : nullable T → attempt TResult,
    reduceDefined items action = Array_map action (Array_filter isDefined items)) as H1.
  { intros a. unfold reduceDefined. rewrite reduce_push.
    by destruct (Array_map a (Array_filter isDefined items)). }
  assert (∀ action : nullable T → attempt TResult,
    reduceDefined items action = Array_map (λ x, action (Given x)) (defined items)) as H2.
  { intros a. by rewrite H1, filter_isDefined, Array_map_fmap. }
  split; [apply H1|]. split; [apply H2|].
  intros action' Hagree. rewrite !H2. apply Array_map_ext. intros x _. apply Hagree.
Qed.

(** X21: the three ways to collect the names of the people.  The helper
    [reduceDefined] returns the names of the people that are defined, in
    order, for every array.  The chain of [filter] and [map] and the
    inline [reduce] behave alike: they return the same names when the
    array holds no [null], and throw a [TypeError] when it does, since
    they only test for [undefined]. *)
Theorem names_of_people (peopleMaybe : list (nullable Person.t)) :
  namesOfPeopleForTheLastTime peopleMaybe = Returned (Person.name <$> defined peopleMaybe) ∧
  namesOfPeopleAgain peopleMaybe = namesOfPeople peopleMaybe ∧
  namesOfPeople peopleMaybe =
    if existsb is_null peopleMaybe then Thrown (VError "TypeError")
    else Returned (Person.name <$> defined peopleMaybe).
Proof.
  split; [|split].
  - unfold namesOfPeopleForTheLastTime, reduceDefined. rewrite reduce_push.
    rewrite filter_isDefined, Array_map_fmap.
    by rewrite (Array_map_total Person.name).
  - unfold namesOfPeopleAgain, namesOfPeople. rewrite reduce_push.
    by destruct (Array_map _ _).
  - unfold namesOfPeople.
    induction peopleMaybe as [|[x| |] items IH]; simpl; [done|..].
    + rewrite IH. by destruct (existsb is_null items).
    + done.
    + done.
Qed.
